(** * lp: a process lister for Linux -- verification of the snapshot engine

    A shallow embedding of the Go sources of [lp] (lp.go and the
    directory-entry counter) together with proofs about the status-record
    parser, the file-descriptor counter, the parent/child aggregation and
    the table writer. *)

From Stdlib Require Import ZArith NArith Ascii String List Lia.
From stdpp Require Import base option list gmap strings.

Local Open Scope Z_scope.

(** ** Machine integers *)

(** Go's [int], [int64] and [time.Duration] are 64-bit two's complement
    integers.  They are modelled as [Z] and every arithmetic result is
    wrapped explicitly. *)
Definition wrap64 (z : Z) : Z := (z + 2 ^ 63) mod 2 ^ 64 - 2 ^ 63.

Definition in_int64 (z : Z) : Prop := - 2 ^ 63 <= z < 2 ^ 63.

#[global] Arguments wrap64 : simpl never.

(** ** Errors and outcomes *)

(** The error values the modelled functions can return.  [ErrIO] stands for
    whatever [os.Open], [ReadAt], [Seek] or [ioutil.ReadAll] report;
    [ErrSyntax] and [ErrRange] are the two [*strconv.NumError] kinds;
    [ErrMalformedStat] is [errors.New("malformed /stat")]. *)
Inductive errno := EACCES | EPERM | ENOENT | ESRCH | EINVAL | EMFILE | EIO.

Inductive error :=
| errNotAProcess
| ErrMalformedStat
| ErrSyntax
| ErrRange
| ErrIO (e : errno)
| ErrSyscall (name : string) (e : errno).

(** A Go call either returns normally, returns a non-nil error, or panics
    (index or slice bounds out of range). *)
Inductive outcome (A : Type) :=
| Ok (a : A)
| Err (e : error)
| Panic.
Arguments Ok {A} a.
Arguments Err {A} e.
Arguments Panic {A}.

#[global] Instance outcome_ret : MRet outcome := fun A a => Ok a.
#[global] Instance outcome_bind : MBind outcome := fun A B k m =>
  match m with
  | Ok a => k a
  | Err e => Err e
  | Panic => Panic
  end.

(** What opening and reading a file of the process file system gives:
    the contents, or the error number of the failed call. *)
Inductive read_result (A : Type) :=
| ReadOk (a : A)
| ReadErr (e : errno).
Arguments ReadOk {A} a.
Arguments ReadErr {A} e.

(** ** The process record *)

Record process := mkProcess {
  pid : Z;
  name : string;
  cmdline : string;
  ppid : Z;
  pgid : Z;
  rss : Z;
  uptime : Z;
  utime : Z;
  stime : Z;
  cutime : Z;
  cstime : Z;
  cpuTime : Z;
  nthreads : Z;
  nfds : Z;
  nchild : Z;
  ndesc : Z;
  user : string
}.

(** The zero value [process{}]. *)
Definition process_zero : process :=
  mkProcess 0 "" "" 0 0 0 0 0 0 0 0 0 0 0 0 0 "".

Definition set_pid v p := mkProcess v (name p) (cmdline p) (ppid p) (pgid p) (rss p) (uptime p) (utime p) (stime p) (cutime p) (cstime p) (cpuTime p) (nthreads p) (nfds p) (nchild p) (ndesc p) (user p).
Definition set_name v p := mkProcess (pid p) v (cmdline p) (ppid p) (pgid p) (rss p) (uptime p) (utime p) (stime p) (cutime p) (cstime p) (cpuTime p) (nthreads p) (nfds p) (nchild p) (ndesc p) (user p).
Definition set_cmdline v p := mkProcess (pid p) (name p) v (ppid p) (pgid p) (rss p) (uptime p) (utime p) (stime p) (cutime p) (cstime p) (cpuTime p) (nthreads p) (nfds p) (nchild p) (ndesc p) (user p).
Definition set_ppid v p := mkProcess (pid p) (name p) (cmdline p) v (pgid p) (rss p) (uptime p) (utime p) (stime p) (cutime p) (cstime p) (cpuTime p) (nthreads p) (nfds p) (nchild p) (ndesc p) (user p).
Definition set_pgid v p := mkProcess (pid p) (name p) (cmdline p) (ppid p) v (rss p) (uptime p) (utime p) (stime p) (cutime p) (cstime p) (cpuTime p) (nthreads p) (nfds p) (nchild p) (ndesc p) (user p).
Definition set_rss v p := mkProcess (pid p) (name p) (cmdline p) (ppid p) (pgid p) v (uptime p) (utime p) (stime p) (cutime p) (cstime p) (cpuTime p) (nthreads p) (nfds p) (nchild p) (ndesc p) (user p).
Definition set_uptime v p := mkProcess (pid p) (name p) (cmdline p) (ppid p) (pgid p) (rss p) v (utime p) (stime p) (cutime p) (cstime p) (cpuTime p) (nthreads p) (nfds p) (nchild p) (ndesc p) (user p).
Definition set_utime v p := mkProcess (pid p) (name p) (cmdline p) (ppid p) (pgid p) (rss p) (uptime p) v (stime p) (cutime p) (cstime p) (cpuTime p) (nthreads p) (nfds p) (nchild p) (ndesc p) (user p).
Definition set_stime v p := mkProcess (pid p) (name p) (cmdline p) (ppid p) (pgid p) (rss p) (uptime p) (utime p) v (cutime p) (cstime p) (cpuTime p) (nthreads p) (nfds p) (nchild p) (ndesc p) (user p).
Definition set_cutime v p := mkProcess (pid p) (name p) (cmdline p) (ppid p) (pgid p) (rss p) (uptime p) (utime p) (stime p) v (cstime p) (cpuTime p) (nthreads p) (nfds p) (nchild p) (ndesc p) (user p).
Definition set_cstime v p := mkProcess (pid p) (name p) (cmdline p) (ppid p) (pgid p) (rss p) (uptime p) (utime p) (stime p) (cutime p) v (cpuTime p) (nthreads p) (nfds p) (nchild p) (ndesc p) (user p).
Definition set_cpuTime v p := mkProcess (pid p) (name p) (cmdline p) (ppid p) (pgid p) (rss p) (uptime p) (utime p) (stime p) (cutime p) (cstime p) v (nthreads p) (nfds p) (nchild p) (ndesc p) (user p).
Definition set_nthreads v p := mkProcess (pid p) (name p) (cmdline p) (ppid p) (pgid p) (rss p) (uptime p) (utime p) (stime p) (cutime p) (cstime p) (cpuTime p) v (nfds p) (nchild p) (ndesc p) (user p).
Definition set_nfds v p := mkProcess (pid p) (name p) (cmdline p) (ppid p) (pgid p) (rss p) (uptime p) (utime p) (stime p) (cutime p) (cstime p) (cpuTime p) (nthreads p) v (nchild p) (ndesc p) (user p).
Definition set_nchild v p := mkProcess (pid p) (name p) (cmdline p) (ppid p) (pgid p) (rss p) (uptime p) (utime p) (stime p) (cutime p) (cstime p) (cpuTime p) (nthreads p) (nfds p) v (ndesc p) (user p).
Definition set_ndesc v p := mkProcess (pid p) (name p) (cmdline p) (ppid p) (pgid p) (rss p) (uptime p) (utime p) (stime p) (cutime p) (cstime p) (cpuTime p) (nthreads p) (nfds p) (nchild p) v (user p).
Definition set_user v p := mkProcess (pid p) (name p) (cmdline p) (ppid p) (pgid p) (rss p) (uptime p) (utime p) (stime p) (cutime p) (cstime p) (cpuTime p) (nthreads p) (nfds p) (nchild p) (ndesc p) v.

(** ** fillChildDesc *)

(** [ps []*process] is a slice of pointers.  The records live in a heap
    (a list indexed by address) and a pointer is an index into it, so that
    the map [byPID] and the slices [ps], [rem] and [next] alias the same
    records, as in the source. *)
Abbreviation ptr := nat (only parsing).
Abbreviation heap := (list process) (only parsing).

(** [parent.nchild++] and [parent.ndesc++] on an [int64] field. *)
Definition incr_nchild (p : process) : process := set_nchild (wrap64 (nchild p + 1)) p.
Definition incr_ndesc (p : process) : process := set_ndesc (wrap64 (ndesc p + 1)) p.

(** [for _, p := range ps { byPID[p.pid] = p }] *)
Definition build_byPID (h : heap) (ps : list ptr) : gmap Z ptr :=
  foldl (fun m q => match h !! q with
                    | Some p => <[pid p := q]> m
                    | None => m
                    end) ∅ ps.

(** [for _, p := range ps { if parent, ok := byPID[p.ppid]; ok { parent.nchild++ } }] *)
Definition count_children (byPID : gmap Z ptr) (h : heap) (ps : list ptr) : heap :=
  foldl (fun h q => match h !! q with
                    | Some p => match byPID !! ppid p with
                                | Some parent => alter incr_nchild parent h
                                | None => h
                                end
                    | None => h
                    end) h ps.

(** One execution of the body of [for len(rem) > 0]: the inner [range rem]
    loop, returning the updated heap and [next]. *)
Definition desc_generation (byPID : gmap Z ptr) (h : heap) (rem : list ptr)
  : heap * list ptr :=
  foldl (fun '(h, next) q =>
           match h !! q with
           | Some p => match byPID !! ppid p with
                       | Some parent => (alter incr_ndesc parent h, next ++ [parent])
                       | None => (h, next)
                       end
           | None => (h, next)
           end) (h, []) rem.

(** [for len(rem) > 0 { ...; rem = next }].  The loop has no bound in the
    source; [fuel] bounds the number of generations and [None] means the
    bound was reached with a non-empty generation left. *)
Fixpoint desc_loop (fuel : nat) (byPID : gmap Z ptr) (h : heap) (rem : list ptr)
  : option heap :=
  match rem with
  | [] => Some h
  | _ :: _ =>
      match fuel with
      | O => None
      | S fuel' =>
          let '(h', next) := desc_generation byPID h rem in
          desc_loop fuel' byPID h' next
      end
  end.

Definition fillChildDesc (fuel : nat) (h : heap) (ps : list ptr) : option heap :=
  let byPID := build_byPID h ps in
  let h1 := count_children byPID h ps in
  desc_loop fuel byPID h1 ps.

(** The records of [TestFillChildDesc], in order, allocated at addresses
    0..11, and the slice of their addresses. *)
Definition mk_pp (pid' ppid' : Z) : process := set_ppid ppid' (set_pid pid' process_zero).

Definition test_heap : heap :=
  [ mk_pp 1 0; mk_pp 2 1; mk_pp 5 1; mk_pp 10 5; mk_pp 11 5; mk_pp 12 5;
    mk_pp 13 5; mk_pp 14 13; mk_pp 15 14; mk_pp 16 15; mk_pp 20 19; mk_pp 21 19 ].

Definition test_ps : list ptr := seq 0 12.

Definition mk_want (pid' ppid' nchild' ndesc' : Z) : process :=
  set_ndesc ndesc' (set_nchild nchild' (mk_pp pid' ppid')).

Definition test_want : heap :=
  [ mk_want 1 0 2 9; mk_want 2 1 0 0; mk_want 5 1 4 7; mk_want 10 5 0 0;
    mk_want 11 5 0 0; mk_want 12 5 0 0; mk_want 13 5 1 3; mk_want 14 13 1 2;
    mk_want 15 14 1 1; mk_want 16 15 0 0; mk_want 20 19 0 0; mk_want 21 19 0 0 ].


(** The child and descendant counters of the record with a given PID. *)
Definition counts_of (h : heap) (pid' : Z) : option (Z * Z) :=
  (fun p => (nchild p, ndesc p)) <$> List.find (fun p => Z.eqb (pid p) pid') h.

(** What [fillChildDesc] may change in a record: the two counters only. *)
Definition same_but_counts (p p' : process) : Prop :=
  p' = set_ndesc (ndesc p') (set_nchild (nchild p') p).

(** *** The parent-link graph and the generations of pass 2 *)

(** The parent link the loops follow: [byPID[p.ppid]] for the record at
    address [q]. *)
Definition parent_of (byPID : gmap Z ptr) (h : heap) (q : ptr) : option ptr :=
  match h !! q with
  | Some p => byPID !! ppid p
  | None => None
  end.

(** The [k]-th ancestor along a parent link [par]. *)
Fixpoint ancestor (par : ptr -> option ptr) (k : nat) (q : ptr) : option ptr :=
  match k with
  | O => Some q
  | S k' => ancestor par k' q ≫= par
  end.

(** No record is its own ancestor. *)
Definition acyclic (par : ptr -> option ptr) : Prop :=
  forall q k, ancestor par (S k) q <> Some q.

(** The value of [rem] at the start of iteration [k] of [for len(rem) > 0]
    (counting from 0), obtained by running the loop body [k] times. *)
Fixpoint generation (byPID : gmap Z ptr) (h : heap) (rem : list ptr) (k : nat)
  : list ptr :=
  match k with
  | O => rem
  | S k' =>
      let '(h', next) := desc_generation byPID h rem in
      generation byPID h' next k'
  end.

(** The generations of a call [fillChildDesc(ps)]. *)
Definition fill_generation (h : heap) (ps : list ptr) (k : nat) : list ptr :=
  let byPID := build_byPID h ps in
  generation byPID (count_children byPID h ps) ps k.

(** ** Bytes, slices and the library functions the parser calls *)

(** A [[]byte] is a list of 8-bit characters. *)
Abbreviation bytes := (list ascii) (only parsing).

Definition len (b : bytes) : Z := Z.of_nat (length b).

(** The slice expression [b[lo:hi]].  Go panics unless
    [0 <= lo <= hi <= cap(b)]; every [hi] used below is an index found in
    [b] itself, or -1, or [len(b)], so the bound is written against the
    length. *)
Definition slice (b : bytes) (lo hi : Z) : outcome bytes :=
  if (0 <=? lo) && (lo <=? hi) && (hi <=? len b)
  then Ok (take (Z.to_nat (hi - lo)) (drop (Z.to_nat lo) b))
  else Panic.

(** [bytes.IndexByte]: index of the first instance of [c], or -1. *)
Fixpoint IndexByte (b : bytes) (c : ascii) : Z :=
  match b with
  | [] => -1
  | x :: b' =>
      if Ascii.eqb x c then 0
      else let i := IndexByte b' c in
           if i <? 0 then -1 else i + 1
  end.

(** [bytes.LastIndexByte]: index of the last instance of [c], or -1. *)
Fixpoint LastIndexByte (b : bytes) (c : ascii) : Z :=
  match b with
  | [] => -1
  | x :: b' =>
      let i := LastIndexByte b' c in
      if 0 <=? i then i + 1
      else if Ascii.eqb x c then 0 else -1
  end.

(** *** strconv *)

Definition is_digit (c : ascii) : bool :=
  (48 <=? Z.of_N (N_of_ascii c)) && (Z.of_N (N_of_ascii c) <=? 57).

Definition digit_val (c : ascii) : Z := Z.of_N (N_of_ascii c) - 48.

Definition maxUint64 : Z := 2 ^ 64 - 1.

(** The digit loop of [strconv.ParseUint] for base 10.  A byte that is not
    a decimal digit is a syntax error (a letter has digit value at least
    10, the base); [n >= cutoff] and the two tests on [n1] are the
    overflow checks of the library, [n] being a [uint64]. *)
Fixpoint ParseUint_loop (maxVal : Z) (s : bytes) (n : Z) : outcome Z :=
  match s with
  | [] => Ok n
  | c :: s' =>
      if is_digit c then
        if maxUint64 / 10 + 1 <=? n then Err ErrRange
        else
          let n10 := (n * 10) mod 2 ^ 64 in
          let n1 := (n10 + digit_val c) mod 2 ^ 64 in
          if (n1 <? n10) || (maxVal <? n1) then Err ErrRange
          else ParseUint_loop maxVal s' n1
      else Err ErrSyntax
  end.

(** [strconv.ParseUint(s, 10, bitSize)] *)
Definition ParseUint (s : bytes) (bitSize : Z) : outcome Z :=
  match s with
  | [] => Err ErrSyntax
  | _ => ParseUint_loop (2 ^ bitSize - 1) s 0
  end.

(** [strconv.ParseInt(s, 10, bitSize)]: an optional sign, then
    [ParseUint]; a range error of [ParseUint] stays a range error. *)
Definition ParseInt (s : bytes) (bitSize : Z) : outcome Z :=
  match s with
  | [] => Err ErrSyntax
  | c :: s' =>
      let neg := Ascii.eqb c "-" in
      let digits := if Ascii.eqb c "+" || neg then s' else s in
      match ParseUint digits bitSize with
      | Panic => Panic
      | Err ErrRange => Err ErrRange
      | Err e => Err e
      | Ok un =>
          let cutoff := 2 ^ (bitSize - 1) in
          if negb neg && (cutoff <=? un) then Err ErrRange
          else if neg && (cutoff <? un) then Err ErrRange
          else Ok (if neg then - un else un)
      end
  end.

(** [strconv.Atoi]: the library documents it as [ParseInt(s, 10, 0)]
    converted to [int], which is 64 bits wide here. *)
Definition Atoi (s : bytes) : outcome Z := ParseInt s 64.

Definition parseIntb (b : bytes) : outcome Z := Atoi b.
Definition parseInt32b (b : bytes) : outcome Z := ParseInt b 32.
Definition parseUint32b (b : bytes) : outcome Z := ParseUint b 32.
Definition parseUint64b (b : bytes) : outcome Z := ParseUint b 64.

(** ** Columns *)

(** [type column uint], a bit set. *)
Definition colPID : N := 1.
Definition colPPID : N := 2.
Definition colUser : N := 4.
Definition colName : N := 8.
Definition colPGID : N := 16.
Definition colRSS : N := 32.
Definition colUptime : N := 64.
Definition colUtime : N := 128.
Definition colStime : N := 256.
Definition colCutime : N := 512.
Definition colCstime : N := 1024.
Definition colCPUTime : N := 2048.
Definition colNThreads : N := 4096.
Definition colNFDs : N := 8192.
Definition colNChild : N := 16384.
Definition colNDesc : N := 32768.
Definition colCmdline : N := 65536.
Definition numCols : N := 131072.

Definition has (c col : N) : bool := negb (N.land c col =? 0)%N.

(** ** The filter *)

(** [regexp.Regexp.MatchString] is taken as a given predicate on
    strings; [None] is the nil pointer. *)
Record filter_t := mkFilter {
  f_name : option (string -> bool);
  f_cmd : option (string -> bool);
  f_pid : Z;
  f_ppid : Z;
  f_pgid : Z;
  thisPID : Z;
  f_user : string
}.

Definition include (f : filter_t) (p : process) : bool :=
  if thisPID f =? pid p then false
  else if negb (String.eqb (f_user f) "") && negb (String.eqb (f_user f) (user p)) then false
  else if match f_name f with Some re => negb (re (name p)) | None => false end then false
  else if match f_cmd f with Some re => negb (re (cmdline p)) | None => false end then false
  else if negb (f_pid f =? 0) && negb (f_pid f =? pid p) then false
  else if negb (f_ppid f =? 0) && negb (f_ppid f =? ppid p) then false
  else if negb (f_ppid f =? 0) && negb (f_ppid f =? ppid p) then false
  else if negb (f_pgid f =? 0) && negb (f_pgid f =? pgid p) then false
  else true.

(** ** The lister *)

(** [clockTick] and [uptime] are [time.Duration]s (nanoseconds),
    [pageSize] a [bytesize]; [buf] is the scratch buffer.  The [users]
    cache is not modelled: [getUser] is represented by its result. *)
Module lister.
Record t := mk {
  clockTick : Z;
  pageSize : Z;
  needCols : N;
  buf : bytes;
  uptime : Z;
  filter : filter_t
}.
Definition set_buf (b : bytes) (l : t) : t :=
  mk (clockTick l) (pageSize l) (needCols l) b (uptime l) (filter l).
End lister.

(** ** parseStat *)

(** [for stat[0] == ' ' { stat = stat[1:] }]: indexing an empty slice
    panics. *)
Fixpoint skip_spaces (stat : bytes) : outcome bytes :=
  match stat with
  | [] => Panic
  | c :: rest => if Ascii.eqb c " " then skip_spaces rest else Ok stat
  end.

(** The [switch col] of the loop body, applied to the field [b].  The
    boolean is [true] when the case returns [nil] (column 24). *)
Definition parseStat_switch (l : lister.t) (col : Z) (b : bytes) (p : process)
  : outcome (process * bool) :=
  if col =? 4 then
    v ← parseIntb b; Ok (set_ppid v p, false)
  else if col =? 5 then
    v ← parseIntb b; Ok (set_pgid v p, false)
  else if col =? 14 then
    v ← parseUint32b b; Ok (set_utime (wrap64 (v * lister.clockTick l)) p, false)
  else if col =? 15 then
    v ← parseUint32b b; Ok (set_stime (wrap64 (v * lister.clockTick l)) p, false)
  else if col =? 16 then
    v ← parseUint32b b; Ok (set_cutime (wrap64 (v * lister.clockTick l)) p, false)
  else if col =? 17 then
    v ← parseUint32b b;
    let p := set_cstime (wrap64 (v * lister.clockTick l)) p in
    Ok (set_cpuTime
          (wrap64 (wrap64 (wrap64 (utime p + stime p) + cutime p) + cstime p)) p,
        false)
  else if col =? 20 then
    v ← parseInt32b b; Ok (set_nthreads v p, false)
  else if col =? 22 then
    startTime ← parseUint64b b;
    let uptime' := wrap64 (lister.uptime l - wrap64 (wrap64 startTime * lister.clockTick l)) in
    let uptime' := if uptime' <? 0 then 0 else uptime' in
    Ok (set_uptime uptime' p, false)
  else if col =? 24 then
    pages ← parseInt32b b;
    Ok (set_rss (wrap64 (pages * lister.pageSize l)) p, true)
  else Ok (p, false).

(** The body of the loop [for col := 1; ; col++] at column [col];
    [continue] stands for the next iteration. *)
Definition parseStat_body (l : lister.t) (col : Z) (p : process) (stat : bytes)
    (continue : Z -> process -> bytes -> option (outcome process))
  : option (outcome process) :=
  match skip_spaces stat with
  | Panic => Some Panic
  | Err e => Some (Err e)
  | Ok stat =>
      if col =? 2 then
        match stat with
        | [] => Some Panic
        | c :: _ =>
            if negb (Ascii.eqb c "(") then Some (Err ErrMalformedStat)
            else
              let i := LastIndexByte stat ")" in
              match slice stat 1 i with
              | Ok nm =>
                  match slice stat (i + 1) (len stat) with
                  | Ok rest =>
                      continue (col + 1)
                        (set_name (string_of_list_ascii nm) p) rest
                  | Err e => Some (Err e)
                  | Panic => Some Panic
                  end
              | Err e => Some (Err e)
              | Panic => Some Panic
              end
        end
      else
        let i := IndexByte stat " " in
        match slice stat 0 i with
        | Ok b =>
            match slice stat i (len stat) with
            | Ok rest =>
                match parseStat_switch l col b p with
                | Ok (p', true) => Some (Ok p')
                | Ok (p', false) => continue (col + 1) p' rest
                | Err e => Some (Err e)
                | Panic => Some Panic
                end
            | Err e => Some (Err e)
            | Panic => Some Panic
            end
        | Err e => Some (Err e)
        | Panic => Some Panic
        end
  end.

(** The loop itself.  Column 24 always returns, so 24 iterations are all
    the loop can make; [None] stands for an exhausted [fuel]. *)
Fixpoint parseStat_loop (fuel : nat) (l : lister.t) (col : Z) (p : process)
    (stat : bytes) : option (outcome process) :=
  match fuel with
  | O => None
  | S fuel' => parseStat_body l col p stat (parseStat_loop fuel' l)
  end.

(** [l.parseStat(p, path)].  The argument [file] is what [os.Open]
    followed by [l.readAll] yields for [path]: the contents, or the I/O
    error, which is returned as it is. *)
Definition parseStat (l : lister.t) (p : process) (file : read_result bytes)
  : option (outcome process) :=
  match file with
  | ReadOk stat => parseStat_loop 24 l 1 p stat
  | ReadErr e => Some (Err (ErrIO e))
  end.

(** The record and the lister of [TestListerParseStat]. *)
Definition test_stat : bytes := list_ascii_of_string
  "1860 (panel-6-indicat) S 1837 1689 1689 0 -1 4194304 2673 34 2 0 77 38 5 7 20 0 3 0 1971 440897536 6029 18446744073709551615 94731670310912 94731670333832 140730895617600 0 0 0 0 4096 0 0 0 0 17 0 0 0 0 0 0 94731672435056 94731672436756 94731700363264 140730895620536 140730895620840 140730895620840 140730895622086 0".

Definition millisecond : Z := 1000000.
Definition second : Z := 1000 * millisecond.
Definition minute : Z := 60 * second.

Definition no_filter : filter_t := mkFilter None None 0 0 0 0 "".

Definition test_lister : lister.t :=
  lister.mk (10 * millisecond) 4096 0 [] (10 * minute) no_filter.

Definition test_stat_want : process :=
  mkProcess 0 "panel-6-indicat" "" 1837 1689 24694784
    (9 * minute + 40 * second + 290 * millisecond)
    (770 * millisecond) (380 * millisecond) (50 * millisecond)
    (70 * millisecond) (1270 * millisecond) 3 0 0 0 "".

(** *** The record's fields as the format describes them *)

(** The space-separated fields of a line, [cur] being the field under
    construction.  This follows the description of the format, not the
    parser: it is what the parser's results are compared with. *)
Fixpoint split_fields (b cur : bytes) : list bytes :=
  match b with
  | [] => match cur with [] => [] | _ => [cur] end
  | c :: b' =>
      if Ascii.eqb c " " then
        match cur with
        | [] => split_fields b' []
        | _ => cur :: split_fields b' []
        end
      else split_fields b' (cur ++ [c])
  end.

(** Field [k] of a status record, for [k >= 3]: the fields after the last
    [')'] of the record are numbered from 3. *)
Definition stat_field (stat : bytes) (k : nat) : option bytes :=
  split_fields (drop (Z.to_nat (LastIndexByte stat ")" + 1)) stat) [] !! (k - 3)%nat.

(** Field [k] read as an unsigned decimal number of the given width. *)
Definition stat_field_uint (stat : bytes) (k : nat) (bitSize : Z) : option Z :=
  b ← stat_field stat k;
  match ParseUint b bitSize with
  | Ok v => Some v
  | _ => None
  end.

(** The [switch] applied to successive fields, from column [col] on. *)
Fixpoint apply_cols (l : lister.t) (col : Z) (p : process) (fields : list bytes)
  : option process :=
  match fields with
  | [] => None
  | b :: fields' =>
      match parseStat_switch l col b p with
      | Ok (p', true) => Some p'
      | Ok (p', false) => apply_cols l (col + 1) p' fields'
      | _ => None
      end
  end.

(** ** direntCount *)

Definition blockSize : Z := 4096.

(** The numeric value of a byte. *)
Definition u8 (c : ascii) : Z := Z.of_N (N_of_ascii c).

(** The layout of [unix.Dirent] on Linux (the kernel's [linux_dirent64]):
    [Ino uint64] at offset 0, [Off int64] at 8, [Reclen uint16] at 16,
    [Type uint8] at 18 and the name from 19 on.  These are the values
    [unsafe.Offsetof] and [unsafe.Sizeof] give for the two fields read. *)
Definition Dirent_Ino_offset : Z := 0.
Definition Dirent_Ino_size : Z := 8.
Definition Dirent_Reclen_offset : Z := 16.
Definition Dirent_Reclen_size : Z := 2.

(** [b[i]] once the length has been checked; the index is in range
    wherever it is used. *)
Definition at_index (b : bytes) (i : nat) : Z :=
  match b !! i with
  | Some c => u8 c
  | None => 0
  end.

(** [readInt]: a little-endian unsigned integer of [size] bytes at offset
    [off]; [false] when [b] is too short; a panic for a size other than
    1, 2, 4 or 8. *)
Definition readInt (b : bytes) (off size : Z) : outcome (Z * bool) :=
  if len b <? off + size then Ok (0, false)
  else
    let b := drop (Z.to_nat off) b in
    if size =? 1 then Ok (at_index b 0, true)
    else if size =? 2 then
      Ok (Z.lor (at_index b 0) (Z.shiftl (at_index b 1) 8), true)
    else if size =? 4 then
      Ok (Z.lor (Z.lor (Z.lor (at_index b 0) (Z.shiftl (at_index b 1) 8))
                   (Z.shiftl (at_index b 2) 16))
            (Z.shiftl (at_index b 3) 24), true)
    else if size =? 8 then
      Ok (Z.lor (Z.lor (Z.lor (Z.lor (Z.lor (Z.lor (Z.lor
            (at_index b 0) (Z.shiftl (at_index b 1) 8))
            (Z.shiftl (at_index b 2) 16)) (Z.shiftl (at_index b 3) 24))
            (Z.shiftl (at_index b 4) 32)) (Z.shiftl (at_index b 5) 40))
            (Z.shiftl (at_index b 6) 48)) (Z.shiftl (at_index b 7) 56), true)
    else Panic.

Definition direntReclen (buf : bytes) : outcome (Z * bool) :=
  readInt buf Dirent_Reclen_offset Dirent_Reclen_size.

Definition direntIno (buf : bytes) : outcome (Z * bool) :=
  readInt buf Dirent_Ino_offset Dirent_Ino_size.

(** What successive calls of [unix.ReadDirent] on the open directory
    return: a block of raw entries, or an error number.  The end of the
    list, like an empty block, is the end of the stream ([n <= 0]). *)
Inductive dirent_read :=
| RdData (bs : bytes)
| RdErr (e : errno).

Abbreviation dirstream := (list dirent_read) (only parsing).

(** [wrapSyscallError(name, errno)] *)
Definition wrapSyscallError (name : string) (e : errno) : error := ErrSyscall name e.

(** The bytes [ReadDirent] stores at [b[i:]]. *)
Definition write_at (b : bytes) (i : Z) (bs : bytes) : bytes :=
  take (Z.to_nat i) b ++ bs ++ drop (Z.to_nat (i + len bs)) b.

(** [make([]byte, len(b)+blockSize)] followed by [copy(b1, b)]. *)
Definition grow (b : bytes) : bytes :=
  b ++ replicate (Z.to_nat blockSize) "000"%char.

(** The first loop of [direntCount]: it returns the buffer, [end] and the
    error, if any.  One element of the stream is consumed by each call of
    [ReadDirent]; the kernel refuses with [EINVAL] a buffer too small for
    what it has to deliver.  [i] and [end] never exceed [len(b)]. *)
Fixpoint read_dirents (f : dirstream) (b : bytes) (i end_ : Z)
  : bytes * Z * option error :=
  let b := if len b - i <? blockSize then grow b else b in
  match f with
  | [] => (b, end_, None)
  | RdErr e :: _ => (b, end_, Some (wrapSyscallError "readdirent" e))
  | RdData bs :: f' =>
      if len b - i <? len bs
      then (b, end_, Some (wrapSyscallError "readdirent" EINVAL))
      else if len bs <=? 0 then (b, end_, None)
      else read_dirents f' (write_at b i bs) (i + len bs) (end_ + len bs)
  end.

(** The body of the second loop, [continue] standing for the next
    iteration: it yields the final [count]. *)
Definition scan_body (buf : bytes) (count : Z)
    (continue : bytes -> Z -> option (outcome Z)) : option (outcome Z) :=
  if len buf <=? 0 then Some (Ok count)
  else
    match direntReclen buf with
    | Panic => Some Panic
    | Err e => Some (Err e)
    | Ok (reclen, ok) =>
        if negb ok || (len buf <? reclen) then Some (Ok count)
        else
          let rec := take (Z.to_nat reclen) buf in
          let buf := drop (Z.to_nat reclen) buf in
          match direntIno rec with
          | Panic => Some Panic
          | Err e => Some (Err e)
          | Ok (ino, ok) =>
              if negb ok then Some (Ok count)
              else if ino =? 0 then continue buf count
              else continue buf (wrap64 (count + 1))
          end
    end.

(** [for buf := b[:end]; len(buf) > 0; { ... }] *)
Fixpoint scan_dirents (fuel : nat) (buf : bytes) (count : Z)
  : option (outcome Z) :=
  match fuel with
  | O => None
  | S fuel' => scan_body buf count (scan_dirents fuel')
  end.

(** [direntCount(f, b)]: the count, the buffer for the next call and the
    error.  An iteration of the second loop that goes on consumes at least
    the eight bytes of an inode number, so [len(b[:end])] iterations and
    one more are all it can make. *)
Definition direntCount (f : dirstream) (b : bytes)
  : option (outcome (Z * bytes * option error)) :=
  match read_dirents f b 0 0 with
  | (b, _, Some err) => Some (Ok (0, b, Some err))
  | (b, end_, None) =>
      match slice b 0 end_ with
      | Ok buf =>
          match scan_dirents (S (length buf)) buf 0 with
          | Some (Ok count) => Some (Ok (wrap64 (count - 2), b, None))
          | Some (Err e) => Some (Err e)
          | Some Panic => Some Panic
          | None => None
          end
      | Err e => Some (Err e)
      | Panic => Some Panic
      end
  end.

(** *** Directory entries *)

(** A record is well formed when its record-length field holds its own
    length (which makes it at least 18 bytes long). *)
Definition wf_dirent (rec : bytes) : Prop :=
  direntReclen rec = Ok (len rec, true).

(** The inode number of a well-formed record. *)
Definition dirent_ino (rec : bytes) : Z :=
  match direntIno rec with
  | Ok (ino, _) => ino
  | _ => 0
  end.

(** The number of records with a non-zero inode number. *)
Definition count_present (recs : list bytes) : Z :=
  Z.of_nat (length (List.filter (fun rec => negb (dirent_ino rec =? 0)) recs)).

(** What stops the scan at the head of [buf]: nothing left, no readable
    record length, a record length beyond the buffer or too short to hold
    an inode number. *)
Definition scan_stops (buf : bytes) : Prop :=
  buf = [] \/
  exists reclen ok, direntReclen buf = Ok (reclen, ok) /\
    (ok = false \/ len buf < reclen \/ (0 <= reclen < Dirent_Ino_size)).

(** The bytes a stream delivers before its end. *)
Fixpoint stream_data (f : dirstream) : bytes :=
  match f with
  | RdData (c :: bs) :: f' => (c :: bs) ++ stream_data f'
  | _ => []
  end.

(** A stream without errors whose blocks all fit in one I/O block. *)
Fixpoint stream_ok (f : dirstream) : Prop :=
  match f with
  | [] => True
  | RdData [] :: _ => True
  | RdData bs :: f' => len bs <= blockSize /\ stream_ok f'
  | RdErr _ :: _ => False
  end.

(** [n] written on [k] bytes, little-endian. *)
Definition le_bytes (k : nat) (n : Z) : bytes :=
  (fun i => ascii_of_N (Z.to_N ((n / 256 ^ Z.of_nat i) mod 256))) <$> seq 0 k.

(** A raw directory entry as the kernel lays it out: inode number,
    offset, record length, type, the name and its padding with NUL bytes
    to a multiple of 8. *)
Definition mk_dirent (ino : Z) (typ : Z) (nm : string) : bytes :=
  let name_bytes := list_ascii_of_string nm in
  let unpadded := (19 + length name_bytes + 1)%nat in
  let reclen := ((unpadded + 7) / 8 * 8)%nat in
  le_bytes 8 ino ++ le_bytes 8 0 ++ le_bytes 2 (Z.of_nat reclen)
    ++ le_bytes 1 typ ++ name_bytes
    ++ replicate (reclen - 19 - length name_bytes) "000"%char.

(** The directory of [TestDirentCount]: [.], [..] and the five entries
    [a], [b], [c], [e], [f]. *)
Definition test_dir : list bytes :=
  [ mk_dirent 100 4 "."; mk_dirent 2 4 ".."; mk_dirent 101 8 "a";
    mk_dirent 102 8 "b"; mk_dirent 103 4 "c"; mk_dirent 104 8 "e";
    mk_dirent 105 8 "f" ].

(** The same directory delivered in one block, and in two. *)
Definition test_stream1 : list dirent_read := [RdData (concat test_dir)].
Definition test_stream2 : list dirent_read :=
  [RdData (concat (take 3 test_dir)); RdData (concat (drop 3 test_dir)); RdData []].

(** ** parseCmdline, parseFDs, loadProcess and list *)

(** [nullReplacer.Replace]: every NUL byte becomes a space. *)
Definition nullReplace (b : bytes) : bytes :=
  (fun c => if Ascii.eqb c "000" then " "%char else c) <$> b.

(** The ASCII white space [strings.TrimSpace] removes.  (The library also
    removes the other Unicode [White_Space] runes; command lines are
    modelled as ASCII here.) *)
Definition is_space (c : ascii) : bool :=
  let n := u8 c in (n =? 9) || (n =? 10) || (n =? 11) || (n =? 12) || (n =? 13) || (n =? 32).

Fixpoint trim_left (b : bytes) : bytes :=
  match b with
  | c :: b' => if is_space c then trim_left b' else b
  | [] => []
  end.

Definition TrimSpace (b : bytes) : bytes := rev (trim_left (rev (trim_left b))).

(** [l.parseCmdline(p, path)].  The argument [file] is what [os.Open]
    followed by [l.readAll] yields for [path] -- the bytes [l.readAll]
    returned, which are not the whole file when the file fills the scratch
    buffer, or the I/O error. *)
Definition parseCmdline (p : process) (file : read_result bytes) : outcome process :=
  match file with
  | ReadErr e => Err (ErrIO e)
  | ReadOk cmdline' =>
      Ok (set_cmdline (string_of_list_ascii (TrimSpace (nullReplace cmdline'))) p)
  end.

(** [errors.Is(err, os.ErrPermission)] for the error of a failed
    [os.Open]: true for [EACCES] and [EPERM]. *)
Definition is_permission (e : errno) : bool :=
  match e with
  | EACCES | EPERM => true
  | _ => false
  end.

(** [l.parseFDs(p, path)].  [dir] is what [os.Open(path)] gives: the
    error, or the open directory, represented by what [ReadDirent] will
    deliver.  The result is the record and the lister (whose scratch
    buffer [direntCount] replaces); on an error the caller drops both. *)
Definition parseFDs (l : lister.t) (p : process) (dir : read_result (list dirent_read))
  : option (outcome (process * lister.t)) :=
  match dir with
  | ReadErr e =>
      if is_permission e then Some (Ok (set_nfds (-1) p, l))
      else Some (Err (ErrIO e))
  | ReadOk f =>
      match direntCount f (lister.buf l) with
      | None => None
      | Some (Ok (n, b, None)) => Some (Ok (set_nfds n p, lister.set_buf b l))
      | Some (Ok (_, _, Some err)) => Some (Err err)
      | Some (Err e) => Some (Err e)
      | Some Panic => Some Panic
      end
  end.

(** An entry of [/proc] as [f.Readdir] returns it, together with what
    the files below it give when opened and read: [fi_owner] is
    [l.getUser] of the entry's owner. *)
Record FileInfo := mkFileInfo {
  fi_Name : string;
  fi_owner : string;
  fi_stat : read_result bytes;
  fi_cmdline : read_result bytes;
  fi_fd : read_result (list dirent_read)
}.

(** [if l.needCols.has(colCmdline) { ... parseCmdline ... }] *)
Definition loadProcess_cmdline (l : lister.t) (p : process) (fi : FileInfo)
  : outcome process :=
  if has (lister.needCols l) colCmdline then parseCmdline p (fi_cmdline fi)
  else Ok p.

(** [if l.needCols.has(colNFDs) { ... parseFDs ... }] *)
Definition loadProcess_fds (l : lister.t) (p : process) (fi : FileInfo)
  : option (outcome (process * lister.t)) :=
  if has (lister.needCols l) colNFDs then parseFDs l p (fi_fd fi)
  else Some (Ok (p, l)).

Definition loadProcess (l : lister.t) (fi : FileInfo)
  : option (outcome (process * lister.t)) :=
  match Atoi (list_ascii_of_string (fi_Name fi)) with
  | Ok pid' =>
      let p := set_user (fi_owner fi) (set_pid pid' process_zero) in
      match parseStat l p (fi_stat fi) with
      | None => None
      | Some (Ok p) =>
          match loadProcess_cmdline l p fi with
          | Ok p => loadProcess_fds l p fi
          | Err e => Some (Err e)
          | Panic => Some Panic
          end
      | Some (Err e) => Some (Err e)
      | Some Panic => Some Panic
      end
  | _ => Some (Err errNotAProcess)
  end.

(** [for _, fi := range fis { ... }] of [list], [ps] being the processes
    collected so far. *)
Fixpoint list_loop (l : lister.t) (fis : list FileInfo) (ps : list process)
  : option (outcome (list process * lister.t)) :=
  match fis with
  | [] => Some (Ok (ps, l))
  | fi :: fis' =>
      match loadProcess l fi with
      | None => None
      | Some (Err errNotAProcess) => list_loop l fis' ps
      | Some (Err e) => Some (Err e)
      | Some Panic => Some Panic
      | Some (Ok (p, l')) => list_loop l' fis' (ps ++ [p])
      end
  end.

Definition set_lister_uptime (u : Z) (l : lister.t) : lister.t :=
  lister.mk (lister.clockTick l) (lister.pageSize l) (lister.needCols l)
    (lister.buf l) u (lister.filter l).

(** [l.list()] (named [lister_list] here, [list] being the type of
    lists).  [uptime'] is what [l.getUptime()] returns and [proc]
    what opening [/proc] and reading its entries gives; [fuel] bounds the
    generations of [fillChildDesc].  The records collected are the heap
    [fillChildDesc] works on, [ps] holding their addresses in order. *)
Definition lister_list (l : lister.t) (uptime' : outcome Z)
    (proc : read_result (list FileInfo)) (fuel : nat)
  : option (outcome (list process)) :=
  match uptime' with
  | Ok u =>
      let l := set_lister_uptime u l in
      match proc with
      | ReadErr e => Some (Err (ErrIO e))
      | ReadOk fis =>
          match list_loop l fis [] with
          | None => None
          | Some (Ok (ps, l)) =>
              let filled :=
                if has (lister.needCols l) (N.lor colNChild colNDesc)
                then fillChildDesc fuel ps (seq 0 (length ps))
                else Some ps in
              match filled with
              | None => None
              | Some ps => Some (Ok (List.filter (include (lister.filter l)) ps))
              end
          | Some (Err e) => Some (Err e)
          | Some Panic => Some Panic
          end
      end
  | Err e => Some (Err e)
  | Panic => Some Panic
  end.

(** Two entries of [/proc]: one whose status record is the one of
    [TestListerParseStat], one whose record has no parenthesised name. *)
Definition fi_good : FileInfo :=
  mkFileInfo "1860" "alice" (ReadOk test_stat) (ReadOk []) (ReadOk []).

Definition fi_malformed : FileInfo :=
  mkFileInfo "4242" "alice"
    (ReadOk (list_ascii_of_string "4242 panel-6-indicat S 1837 1689 "))
    (ReadOk []) (ReadOk []).

Definition fi_vanished : FileInfo :=
  mkFileInfo "4243" "alice" (ReadErr ENOENT) (ReadErr ENOENT) (ReadErr ENOENT).

Definition fi_not_a_pid : FileInfo :=
  mkFileInfo "uptime" "root" (ReadErr ENOENT) (ReadErr ENOENT) (ReadErr ENOENT).

(** An entry whose file-descriptor directory cannot be opened. *)
Definition fi_fd_denied : FileInfo :=
  mkFileInfo "1860" "root" (ReadOk test_stat) (ReadOk []) (ReadErr EACCES).

Definition fds_lister : lister.t :=
  lister.mk (10 * millisecond) 4096 (N.lor colPID colNFDs) [] (10 * minute) no_filter.

(** ** Cells of a table row *)

Section Cells.
(** The formatting functions of the libraries: [formatDuration] (built
    on [time.Duration.Round] and [String]), [humanize.Bytes] and the
    decimal printing of integers. *)
Variable formatDuration : Z -> string.
Variable formatBytesize : Z -> string.
Variable formatInt : Z -> string.

(** The dynamic type of a cell value in [process.write]. *)
Inductive cell_value :=
| VInt (n : Z)
| VString (s : string)
| VBytesize (b : Z)
| VDuration (d : Z)
| VInt64 (v : Z).

(** The type switch of [process.write]. *)
Definition format_cell (v : cell_value) : string :=
  match v with
  | VDuration d => formatDuration d
  | VInt64 v => if v =? -1 then "?" else formatInt v
  | VInt n => formatInt n
  | VString s => s
  | VBytesize b => formatBytesize b
  end.

Definition process_values (p : process) : list (N * cell_value)%type :=
  [ (colPID, VInt (pid p)); (colPPID, VInt (ppid p)); (colUser, VString (user p));
    (colName, VString (name p)); (colPGID, VInt (pgid p)); (colRSS, VBytesize (rss p));
    (colUptime, VDuration (uptime p)); (colUtime, VDuration (utime p));
    (colStime, VDuration (stime p)); (colCutime, VDuration (cutime p));
    (colCstime, VDuration (cstime p)); (colCPUTime, VDuration (cpuTime p));
    (colNThreads, VInt (nthreads p)); (colNFDs, VInt64 (nfds p));
    (colNChild, VInt64 (nchild p)); (colNDesc, VInt64 (ndesc p));
    (colCmdline, VString (cmdline p)) ].

(** The cells [process.write] hands to [tw.append]. *)
Definition process_cells (p : process) (cols : N) : list string :=
  omap (fun '(col, v) => if has cols col then Some (format_cell v) else None)
       (process_values p).
End Cells.

(** ** The table writer *)

(** [colConfs], in the order of the column constants: the column, its
    name and whether it is right-aligned. *)
Definition colConfs : list (N * string * bool) :=
  [ (colPID, "pid", true); (colPPID, "ppid", true); (colUser, "user", false);
    (colName, "name", false); (colPGID, "pgid", true); (colRSS, "rss", true);
    (colUptime, "uptime", true); (colUtime, "utime", true);
    (colStime, "stime", true); (colCutime, "cutime", true);
    (colCstime, "cstime", true); (colCPUTime, "cputime", true);
    (colNThreads, "nthreads", true); (colNFDs, "nfds", true);
    (colNChild, "nchild", true); (colNDesc, "ndesc", true);
    (colCmdline, "cmdline", false) ]%string.

(** [columnOpts]: the only option. *)
Definition rightAlign : N := 1.

Record tableWriter := mkTableWriter {
  termWidth : Z;
  opts : list N;
  widths : list Z;
  cells : list (list string)
}.

(** [len(s)] of a Go string: its number of bytes. *)
Definition slen (s : string) : Z := Z.of_nat (String.length s).

(** [bits.OnesCount] *)
Fixpoint pos_ones (p : positive) : nat :=
  match p with
  | xH => 1
  | xO p' => pos_ones p'
  | xI p' => S (pos_ones p')
  end.

Definition OnesCount (n : N) : nat :=
  match n with
  | N0 => 0
  | Npos p => pos_ones p
  end.

(** [newTableWriter(cols)], the terminal width being passed in.  The
    slices are made with [OnesCount(cols)] elements and filled from the
    front with the selected columns. *)
Definition newTableWriter (cols : N) (width : Z) : tableWriter :=
  let n := OnesCount cols in
  let sel := List.filter (fun '(col, _, _) => has cols col) colConfs in
  let fill {A} (d : A) (l : list A) := take n (l ++ replicate n d) in
  mkTableWriter width
    (fill 0%N ((fun '(_, _, ra) => if ra : bool then rightAlign else 0%N) <$> sel))
    (fill 0 ((fun '(_, nm, _) => slen nm) <$> sel))
    [fill ""%string ((fun '(_, nm, _) => nm) <$> sel)].

(** [tw.append(cells)]: a panic when the number of cells is not the
    number of columns. *)
Definition append (tw : tableWriter) (row : list string) : outcome tableWriter :=
  if negb (length row =? length (opts tw))%nat then Panic
  else
    Ok (mkTableWriter (termWidth tw) (opts tw)
          (imap (fun i w =>
                   match row !! i with
                   | Some cell => if w <? slen cell then slen cell else w
                   | None => w
                   end) (widths tw))
          (cells tw ++ [row])).

Definition pad : bytes := list_ascii_of_string "  ".

(** [for k := len(cell); k < w; k++ { b = append(b, ' ') }] *)
Definition spaces (from to : Z) : bytes := replicate (Z.to_nat (to - from)) " "%char.

(** The inner loop of [write] from cell [j] on: [n] is [len(row)] and [b]
    the line so far.  Indexing [tw.widths] or [tw.opts] out of range
    panics. *)
Fixpoint render_cells (tw : tableWriter) (row : list string) (j n : nat) (b : bytes)
  : outcome bytes :=
  match row with
  | [] => Ok b
  | cell :: row' =>
      let b := if (0 <? j)%nat then b ++ pad else b in
      match widths tw !! j, opts tw !! j with
      | Some w, Some o =>
          let c := list_ascii_of_string cell in
          let b :=
            if negb (N.land o rightAlign =? 0)%N
            then b ++ spaces (len c) w ++ c
            else b ++ c ++ (if (j <? n - 1)%nat then spaces (len c) w else []) in
          render_cells tw row' (S j) n b
      | _, _ => Panic
      end
  end.

Definition render_row (tw : tableWriter) (row : list string) : outcome bytes :=
  render_cells tw row 0 (length row) [].

(** The trimming of one line, [trim] being decided. *)
Definition trim_line (tw : tableWriter) (trim : bool) (b : bytes) : outcome bytes :=
  if trim && (termWidth tw <? len b) then
    b' ← slice b 0 (termWidth tw - 3);
    Ok (b' ++ list_ascii_of_string "...")
  else Ok b.

(** The loop of [write] from row [i] on; [out] is what has been written. *)
Fixpoint write_rows (tw : tableWriter) (rows : list (list string)) (i : nat)
    (trim : bool) (out : bytes) : outcome bytes :=
  match rows with
  | [] => Ok out
  | row :: rows' =>
      b ← render_row tw row;
      let trim :=
        if (i =? 0)%nat then (3 <? termWidth tw) && (len b <? termWidth tw)
        else trim in
      b ← trim_line tw trim b;
      write_rows tw rows' (S i) trim (out ++ b ++ ["010"%char])
  end.

(** [tw.write(w)]: the bytes written to [w]. *)
Definition write (tw : tableWriter) : outcome bytes :=
  write_rows tw (cells tw) 0 false [].

(** The line of a row as rendered, before any trimming. *)
Definition line (tw : tableWriter) (row : list string) : bytes :=
  match render_row tw row with
  | Ok b => b
  | _ => []
  end.

(** A line as written when trimming is enabled. *)
Definition trimmed (tw : tableWriter) (b : bytes) : bytes :=
  if termWidth tw <? len b
  then take (Z.to_nat (termWidth tw - 3)) b ++ list_ascii_of_string "..."
  else b.

(** The table of [TestTableWriter] for a given terminal width. *)
Definition test_table (width : Z) : outcome tableWriter :=
  tw ← append (newTableWriter (N.lor (N.lor colPID colName) colPPID) width)
         ["3"; "123"; "abc"]%string;
  tw ← append tw ["10"; "123"; "d"]%string;
  append tw ["11"; "1"; "uvwxyz"]%string.

Definition nl : string := String "010" "".

Definition test_output_full : string :=
  ("pid  ppid  name" ++ nl ++
   "  3   123  abc" ++ nl ++
   " 10   123  d" ++ nl ++
   " 11     1  uvwxyz" ++ nl)%string.

Definition test_output_trimmed : string :=
  ("pid  ppid  name" ++ nl ++
   "  3   123  abc" ++ nl ++
   " 10   123  d" ++ nl ++
   " 11     1  uv..." ++ nl)%string.

(** The table of the test once built. *)
Definition test_tw (width : Z) : tableWriter :=
  match test_table width with
  | Ok tw => tw
  | _ => newTableWriter 0 width
  end.

Definition test_header : list string := ["pid"; "ppid"; "name"]%string.

Definition test_rows : list (list string) :=
  [ ["3"; "123"; "abc"]; ["10"; "123"; "d"]; ["11"; "1"; "uvwxyz"] ]%string.

(** ** Counting along the parent links *)

(** The number of occurrences of the address [q] in a list of addresses. *)
Definition occurrences (q : ptr) (l : list ptr) : nat :=
  length (List.filter (Nat.eqb q) l).

(** The number of members of [ps] whose parent is [q]. *)
Definition children_count (par : ptr -> option ptr) (ps : list ptr) (q : ptr) : nat :=
  occurrences q (omap par ps).

(** The number of pairs of a member [x] of [ps] and a distance [k] from 1
    to [K] such that [q] is the [k]-th ancestor of [x]. *)
Definition descendant_count (par : ptr -> option ptr) (ps : list ptr) (q : ptr)
    (K : nat) : nat :=
  sum_list ((fun k => occurrences q (omap (ancestor par (S k)) ps)) <$> seq 0 K).

(** One increment of a counter of the record at each address of a list,
    in order. *)
Definition bump (f : process -> process) (targets : list ptr) (h : heap) : heap :=
  foldl (fun h t => alter f t h) h targets.

(** ** Decimal numerals *)

(** The number a string of decimal digits denotes, [n] being the value of
    the digits already read. *)
Fixpoint decimal_from (n : Z) (s : bytes) : Z :=
  match s with
  | [] => n
  | c :: s' => decimal_from (n * 10 + digit_val c) s'
  end.

Definition decimal (s : bytes) : Z := decimal_from 0 s.

(** A non-empty string of decimal digits. *)
Definition numeral (s : bytes) : Prop := s <> [] /\ forallb is_digit s = true.

(** The optional sign of a numeral: whether it is negative, and the rest. *)
Definition split_sign (b : bytes) : bool * bytes :=
  match b with
  | c :: ds =>
      if Ascii.eqb c "-" then (true, ds)
      else if Ascii.eqb c "+" then (false, ds)
      else (false, b)
  | [] => (false, [])
  end.

(** ** Tables as they are built *)

(** A table built the way [main] does: [newTableWriter], then one
    [append] per row, in order. *)
Definition build_table (cols : N) (width : Z) (rows : list (list string))
  : outcome tableWriter :=
  foldl (fun acc row => tw ← acc; append tw row) (Ok (newTableWriter cols width)) rows.

(** Every cell of a row is at most as long as the width of its column. *)
Definition cells_fit (tw : tableWriter) (row : list string) : Prop :=
  forall j cell, row !! j = Some cell ->
    exists w, widths tw !! j = Some w /\ slen cell <= w.

(** Every column width is the length of one of the cells of the column. *)
Definition widths_attained (tw : tableWriter) : Prop :=
  forall j w, widths tw !! j = Some w ->
    exists row cell, row ∈ cells tw /\ row !! j = Some cell /\ slen cell = w.

(** The byte at which column [j] starts in every line: the widths of the
    columns before it and their two-space separators. *)
Definition col_start (tw : tableWriter) (j : nat) : Z :=
  foldr Z.add 0 (take j (widths tw)) + 2 * Z.of_nat j.

(** Whether column [j] is right-aligned, and its width. *)
Definition right_aligned (tw : tableWriter) (j : nat) : bool :=
  match opts tw !! j with
  | Some o => negb (N.land o rightAlign =? 0)%N
  | None => false
  end.

Definition col_width (tw : tableWriter) (j : nat) : Z :=
  default 0 (widths tw !! j).

(** What one turn of the inner loop of [write] appends for cell [j] of a
    row of [n] cells. *)
Definition cell_piece (tw : tableWriter) (n j : nat) (cell : string) : bytes :=
  (if (0 <? j)%nat then pad else [])
  ++ match widths tw !! j, opts tw !! j with
     | Some w, Some o =>
         let c := list_ascii_of_string cell in
         if negb (N.land o rightAlign =? 0)%N then spaces (len c) w ++ c
         else c ++ (if (j <? n - 1)%nat then spaces (len c) w else [])
     | _, _ => []
     end.

(** ** Headers and cells *)

(** The entries of [colConfs] and of the list [process.write] ranges
    over, taken together position by position and restricted to the
    selected columns: the name of the column and the cell of the
    process. *)
Definition labelled_cells (fD fB fI : Z -> string) (p : process) (cols : N)
  : list (string * string) :=
  omap (fun '((c, nm, _), (_, v)) =>
          if has cols c then Some (nm, format_cell fD fB fI v) else None)
       (zip colConfs (process_values p)).

(** ** The entries of [/proc] and the processes listed *)

(** An entry of [/proc] whose name is a number. *)
Definition is_pid_entry (fi : FileInfo) : bool :=
  match Atoi (list_ascii_of_string (fi_Name fi)) with
  | Ok _ => true
  | _ => false
  end.

(** The process record [p] stems from the entry [fi]: its PID is the
    number the entry is named by and its user the owner of the entry. *)
Definition entry_of (fi : FileInfo) (p : process) : Prop :=
  Atoi (list_ascii_of_string (fi_Name fi)) = Ok (pid p) /\ user p = fi_owner fi.

(** ** Command lines *)




(** ** Little-endian integers *)

(** The number a sequence of bytes denotes, the least significant byte
    first. *)
Fixpoint le_value (bs : bytes) : Z :=
  match bs with
  | [] => 0
  | c :: bs' => u8 c + 256 * le_value bs'
  end.

(** ** The columns [main] selects *)

(** [colNames], as [init] fills it: from the name of every column to the
    column. *)
Definition colNames : gmap string N :=
  foldl (fun m '(col, nm, _) => <[nm := col]> m) ∅ colConfs.

(** [strings.Split(s, sep)] for a one-byte separator. *)
Fixpoint Split (sep : ascii) (s : bytes) : list bytes :=
  match s with
  | [] => [[]]
  | c :: s' =>
      if Ascii.eqb c sep then [] :: Split sep s'
      else match Split sep s' with
           | field :: fields => (c :: field) :: fields
           | [] => [[c]]
           end
  end.

(** The loop of [main] over the names of the [-cols] flag; [None] is
    [log.Fatalf] on an unknown name. *)
Fixpoint cols_of_names (names : list bytes) (cols : N) : option N :=
  match names with
  | [] => Some cols
  | colName :: names' =>
      match colNames !! string_of_list_ascii (TrimSpace colName) with
      | Some col => cols_of_names names' (N.lor cols col)
      | None => None
      end
  end.

(** The [switch] of [main] that sets [cols] from the flags [-cols] and
    [-full]; [None] is [log.Fatal]. *)
Definition main_cols (colsFlag : bytes) (full : bool) : option N :=
  if negb (len colsFlag =? 0) && full then None
  else if negb (len colsFlag =? 0) then cols_of_names (Split "," colsFlag) 0%N
  else if full then Some (N.lor (N.lor (N.lor colPID colPPID) colUser) colCmdline)
  else Some (N.lor colPID colName).

(** ** Status records the parser accepts *)

Definition is_ok {A} (r : outcome A) : bool :=
  match r with
  | Ok _ => true
  | _ => false
  end.

(** What the format asks of the field of column [col]: a number of the
    type the column is read with.  The other columns are not read. *)
Definition field_accepted (col : Z) (f : bytes) : bool :=
  if col =? 4 then is_ok (parseIntb f)
  else if col =? 5 then is_ok (parseIntb f)
  else if col =? 14 then is_ok (parseUint32b f)
  else if col =? 15 then is_ok (parseUint32b f)
  else if col =? 16 then is_ok (parseUint32b f)
  else if col =? 17 then is_ok (parseUint32b f)
  else if col =? 20 then is_ok (parseInt32b f)
  else if col =? 22 then is_ok (parseUint64b f)
  else if col =? 24 then is_ok (parseInt32b f)
  else true.

(** A field after the name: not empty, without a space or a [')']. *)
Definition field_wf (f : bytes) : bool :=
  match f with
  | [] => false
  | _ => forallb (fun c => negb (Ascii.eqb c " ") && negb (Ascii.eqb c ")")) f
  end.

(** The fields of the columns [col] to 24, each as its column asks. *)
Fixpoint valid_fields (col : Z) (fields : list bytes) : bool :=
  match fields with
  | [] => col =? 25
  | f :: fields' =>
      field_wf f && field_accepted col f && valid_fields (col + 1) fields'
  end.

(** What follows the name in a status record: the fields, each after one
    space, a space after the last of them and whatever comes next. *)
Definition stat_tail (fields : list bytes) (rest : bytes) : bytes :=
  concat ((fun f => " "%char :: f) <$> fields) ++ " "%char :: rest.

(** ** readAll *)




(** ** Directory streams and records, as the format describes them *)

(** A stream without errors that keeps to the contract of [ReadDirent]:
    every block is at most as long as the buffer [b[i:]] the call was
    offered, [cap] being [len(b)] when the loop is entered with [i] --
    the buffer grows by a block whenever less than a block is left. *)
Fixpoint stream_fits (f : dirstream) (cap i : Z) : Prop :=
  let cap := if cap - i <? blockSize then cap + blockSize else cap in
  match f with
  | [] => True
  | RdErr _ :: _ => False
  | RdData [] :: _ => True
  | RdData bs :: f' => len bs <= cap - i /\ stream_fits f' cap (i + len bs)
  end.

(** The record-length field of a raw entry: two bytes at offset 16, least
    significant first; and its inode field: the first eight bytes. *)
Definition dirent_reclen_field (rec : bytes) : Z := le_value (take 2 (drop 16 rec)).
Definition dirent_ino_field (rec : bytes) : Z := le_value (take 8 rec).

(** A well-formed record: its record-length field holds its own length. *)
Definition dirent_wf (rec : bytes) : Prop :=
  18 <= len rec /\ dirent_reclen_field rec = len rec.

(** The number of records whose inode field is not zero. *)
Definition entries_present (recs : list bytes) : Z :=
  Z.of_nat (length (List.filter (fun rec => negb (dirent_ino_field rec =? 0)) recs)).

(** Bytes that do not start with a record: nothing, too few bytes for a
    record-length field, or a record length that is beyond the bytes or
    too short for an inode number. *)
Definition no_record (tail : bytes) : Prop :=
  tail = [] \/ len tail < 18 \/ len tail < dirent_reclen_field tail
  \/ dirent_reclen_field tail < 8.

(** A directory read in two calls, the second returning more than one
    block: 170 records of 24 bytes, then 171. *)
Definition big_dir (from n : nat) : list bytes :=
  (fun i => mk_dirent (Z.of_nat (S i)) 8 "x") <$> seq from n.

Definition test_stream_big : list dirent_read :=
  [RdData (concat (big_dir 0 170)); RdData (concat (big_dir 170 171)); RdData []].

(** ** Proof tools *)

(** Evaluation of the column tests of [parseStat_switch] at a known
    column, one field at a time. *)
Ltac eval_col_tests H :=
  repeat match type of H with
         | context [Z.eqb ?a ?b] =>
             let r := eval vm_compute in (Z.eqb a b) in
             lazymatch r with
             | true => change (Z.eqb a b) with true in H
             | false => change (Z.eqb a b) with false in H
             end
         end.

Ltac col_step H :=
  cbn [apply_cols] in H; unfold parseStat_switch, mbind, outcome_bind in H;
  eval_col_tests H; cbv iota beta in H.


(** * Theorems *)

(** ** TreeAggregator *)

Section Ancestors.
Variable par : ptr -> option ptr.

Lemma ancestor_add a b q :
  ancestor par (a + b) q = ancestor par a q ≫= ancestor par b.
Proof.
  induction b as [|b IH].
  - rewrite Nat.add_0_r. simpl. by destruct (ancestor par a q).
  - rewrite Nat.add_succ_r. simpl. rewrite IH.
    by destruct (ancestor par a q).
Qed.

Lemma ancestor_None_mono m m' q :
  (m <= m')%nat -> ancestor par m q = None -> ancestor par m' q = None.
Proof.
  intros Hle Hm. replace m' with (m + (m' - m))%nat by lia.
  by rewrite ancestor_add, Hm.
Qed.

Lemma ancestor_Some_down m m' q r :
  (m <= m')%nat -> ancestor par m' q = Some r -> is_Some (ancestor par m q).
Proof.
  intros Hle Hm'. destruct (ancestor par m q) eqn:E; [eauto|].
  rewrite (ancestor_None_mono m m' q Hle E) in Hm'. discriminate.
Qed.

(** A chain that ends reaches a root: a record without a present parent. *)
Lemma ancestor_root m q :
  ancestor par m q = None ->
  exists j r, (j < m)%nat /\ ancestor par j q = Some r /\ par r = None.
Proof.
  induction m as [|m IH]; simpl; [discriminate|].
  destruct (ancestor par m q) as [r|] eqn:E; simpl.
  - intros Hr. exists m, r. auto.
  - intros _. destruct IH as (j & r & ? & ? & ?); [done|].
    exists j, r. split; [lia|done].
Qed.

(** Pigeonhole: links that stay inside [n] addresses and never close a
    cycle cannot be followed more than [n] times. *)
Lemma acyclic_bounded n q :
  acyclic par ->
  (forall x y, par x = Some y -> (y < n)%nat) ->
  ancestor par (S n) q = None.
Proof.
  intros Hacyc Hrange.
  destruct (ancestor par (S n) q) as [r|] eqn:Hlast; [exfalso|done].
  set (chain := (fun k => default O (ancestor par (S k) q)) <$> seq 0 (S n)).
  assert (Hdef : forall k, (k <= n)%nat -> exists y,
               ancestor par (S k) q = Some y /\ (y < n)%nat).
  { intros k Hk.
    destruct (ancestor_Some_down (S k) (S n) q r ltac:(lia) Hlast) as [y Hy].
    exists y. split; [done|]. simpl in Hy.
    destruct (ancestor par k q) as [x|]; simpl in Hy; [eauto|discriminate]. }
  assert (Hlook : forall k y, chain !! k = Some y ->
               (k <= n)%nat /\ ancestor par (S k) q = Some y).
  { intros k y. unfold chain. rewrite list_lookup_fmap.
    destruct (seq 0 (S n) !! k) as [k'|] eqn:Hk; [|discriminate].
    apply lookup_seq in Hk as [-> Hk]. change (0 + k)%nat with k.
    destruct (Hdef k ltac:(lia)) as (y' & Hy' & _).
    cbn [fmap option_fmap option_map]. rewrite Hy'.
    intros [= <-]. split; [lia|reflexivity]. }
  assert (Hnodup : NoDup chain).
  { apply NoDup_alt. intros i j y Hi Hj.
    apply Hlook in Hi as [Hi Hyi]. apply Hlook in Hj as [Hj Hyj].
    destruct (decide (i = j)) as [|Hne]; [done|exfalso].
    assert (Hcyc : forall a b, (a < b)%nat ->
               ancestor par (S a) q = Some y ->
               ancestor par (S b) q = Some y -> False).
    { intros a b Hab Ha Hb.
      replace (S b) with (S a + S (b - a - 1))%nat in Hb by lia.
      rewrite ancestor_add, Ha in Hb. by apply Hacyc in Hb. }
    destruct (decide (i < j)%nat).
    - by apply (Hcyc i j).
    - apply (Hcyc j i); [lia|done..]. }
  assert (Hsub : chain ⊆+ seq 0 n).
  { apply NoDup_submseteq; [done|]. intros y Hy.
    apply list_elem_of_lookup in Hy as [k Hk].
    apply Hlook in Hk as [Hk Hy].
    destruct (Hdef k Hk) as (y' & Hy' & Hlt).
    rewrite Hy in Hy'. injection Hy' as <-.
    apply elem_of_seq. lia. }
  apply submseteq_length in Hsub.
  unfold chain in Hsub. rewrite length_fmap, !length_seq in Hsub. lia.
Qed.
End Ancestors.

(** The loops only ever write the two counters. *)
Lemma incr_nchild_ppid p : ppid (incr_nchild p) = ppid p.
Proof. reflexivity. Qed.

Lemma incr_ndesc_ppid p : ppid (incr_ndesc p) = ppid p.
Proof. reflexivity. Qed.

Lemma alter_ppids f (h : heap) q :
  (forall p, ppid (f p) = ppid p) -> ppid <$> alter f q h = ppid <$> h.
Proof.
  intros Hf. apply list_eq. intros i. rewrite !list_lookup_fmap.
  destruct (decide (q = i)) as [->|Hne].
  - rewrite list_lookup_alter_eq. destruct (h !! i); simpl; [|done].
    by rewrite Hf.
  - by rewrite list_lookup_alter_ne.
Qed.

Lemma parent_of_ppids byPID (h h' : heap) q :
  ppid <$> h = ppid <$> h' -> parent_of byPID h q = parent_of byPID h' q.
Proof.
  intros Heq. unfold parent_of.
  assert (Hq : ppid <$> h !! q = ppid <$> h' !! q)
    by (by rewrite <- !list_lookup_fmap, Heq).
  destruct (h !! q), (h' !! q); simpl in Hq; congruence.
Qed.

Lemma count_children_ppids byPID (h : heap) ps :
  ppid <$> count_children byPID h ps = ppid <$> h.
Proof.
  unfold count_children. revert h.
  induction ps as [|q ps IH]; intros h; simpl; [done|].
  rewrite IH. destruct (h !! q) as [p|]; [|done].
  destruct (byPID !! ppid p); [|done].
  apply alter_ppids, incr_nchild_ppid.
Qed.

(** One generation: [next] collects, in order, the present parents of the
    members of [rem]; the parent links themselves are left as they were. *)
Lemma desc_generation_spec byPID (h : heap) rem :
  let '(h', next) := desc_generation byPID h rem in
  ppid <$> h' = ppid <$> h /\ next = omap (parent_of byPID h) rem.
Proof.
  unfold desc_generation.
  assert (Hgen : forall rem (h1 : heap) acc,
    ppid <$> h1 = ppid <$> h ->
    let '(h', next) :=
      foldl (fun '(h, next) q =>
           match h !! q with
           | Some p => match byPID !! ppid p with
                       | Some parent => (alter incr_ndesc parent h, next ++ [parent])
                       | None => (h, next)
                       end
           | None => (h, next)
           end) (h1, acc) rem in
    ppid <$> h' = ppid <$> h /\ next = acc ++ omap (parent_of byPID h) rem).
  { clear rem. induction rem as [|q rem IH]; intros h1 acc Hh1; simpl.
    - by rewrite app_nil_r.
    - rewrite <- (parent_of_ppids byPID h1 h q Hh1).
      unfold parent_of at 1.
      destruct (h1 !! q) as [p|]; [|by apply IH].
      destruct (byPID !! ppid p) as [parent|]; [|by apply IH].
      specialize (IH (alter incr_ndesc parent h1) (acc ++ [parent])).
      destruct (foldl _ _ rem) as [h' next].
      rewrite <- app_assoc in IH. apply IH.
      rewrite <- Hh1. apply alter_ppids, incr_ndesc_ppid. }
  specialize (Hgen rem h [] eq_refl).
  by destruct (foldl _ _ rem).
Qed.

Lemma omap_ancestor_step par (l : list ptr) k :
  omap par (omap (ancestor par k) l) = omap (ancestor par (S k)) l.
Proof.
  induction l as [|x l IH]; [done|].
  cbn [omap list_omap]. rewrite <- IH. cbn [ancestor].
  destruct (ancestor par k x) as [y|]; cbn; [|done].
  by destruct (par y).
Qed.

(** Generation [k] is the list of [k]-th ancestors of the members of the
    first one. *)
Lemma omap_ancestor_0 par (l : list ptr) : omap (ancestor par 0) l = l.
Proof.
  induction l as [|x l IH]; [done|].
  change (omap (ancestor par 0) (x :: l)) with (x :: omap (ancestor par 0) l).
  by rewrite IH.
Qed.

Lemma ancestor_ext par par' k q :
  (forall x, par x = par' x) -> ancestor par k q = ancestor par' k q.
Proof.
  intros Hext. induction k as [|k IH]; [done|]. cbn [ancestor]. rewrite IH.
  destruct (ancestor par' k q); cbn; [apply Hext|done].
Qed.

Lemma omap_ancestor_shift par (l : list ptr) k :
  omap (ancestor par k) (omap par l) = omap (ancestor par (S k)) l.
Proof.
  induction k as [|k IH].
  - rewrite omap_ancestor_0, <- omap_ancestor_step. by rewrite omap_ancestor_0.
  - by rewrite <- omap_ancestor_step, IH, omap_ancestor_step.
Qed.

Lemma generation_ancestors byPID (h : heap) rem k :
  generation byPID h rem k = omap (ancestor (parent_of byPID h) k) rem.
Proof.
  revert h rem. induction k as [|k IH]; intros h rem.
  - by rewrite omap_ancestor_0.
  - cbn [generation].
    pose proof (desc_generation_spec byPID h rem) as Hspec.
    destruct (desc_generation byPID h rem) as [h' next].
    destruct Hspec as [Hpp ->]. rewrite IH.
    rewrite <- omap_ancestor_shift.
    apply list_omap_ext, Forall2_same_length_lookup_2; [done|].
    intros i x y Hx Hy. assert (x = y) as -> by congruence.
    apply ancestor_ext. intros z. by apply parent_of_ppids.
Qed.

(** [byPID] only holds addresses taken from [ps], all of them allocated. *)
Lemma build_byPID_range (h : heap) ps k r :
  build_byPID h ps !! k = Some r -> r ∈ ps /\ is_Some (h !! r).
Proof.
  unfold build_byPID. revert k r.
  induction ps as [|q ps IH] using rev_ind; intros k r.
  - simpl. by rewrite lookup_empty.
  - rewrite foldl_snoc. destruct (h !! q) as [p|] eqn:Hq.
    + destruct (decide (pid p = k)) as [<-|Hne].
      * rewrite lookup_insert_eq. intros [= <-].
        split; [|eauto]. apply elem_of_app. right. by apply list_elem_of_singleton.
      * rewrite lookup_insert_ne by done. intros Hk.
        destruct (IH _ _ Hk). split; [|done]. apply elem_of_app. by left.
    + intros Hk. destruct (IH _ _ Hk). split; [|done].
      apply elem_of_app. by left.
Qed.

Lemma parent_of_range (h : heap) ps x y :
  parent_of (build_byPID h ps) h x = Some y ->
  y ∈ ps /\ (y < length h)%nat.
Proof.
  unfold parent_of. destruct (h !! x); [|discriminate].
  intros Hy. apply build_byPID_range in Hy as [? ?].
  split; [done|]. by apply lookup_lt_is_Some.
Qed.

Lemma length_omap_le {A B} (f : A -> option B) (l : list A) :
  (length (omap f l) <= length l)%nat.
Proof.
  induction l as [|x l IH]; [done|].
  cbn [omap list_omap]. destruct (f x); simpl; lia.
Qed.

Lemma length_omap_lt {A B} (f : A -> option B) (l : list A) x :
  x ∈ l -> f x = None -> (length (omap f l) < length l)%nat.
Proof.
  induction 1 as [x l|x y l Hin IH]; intros Hx; cbn [omap list_omap].
  - rewrite Hx. pose proof (length_omap_le f l). simpl. lia.
  - specialize (IH Hx). destruct (f y); simpl; lia.
Qed.

(** The generations of [fillChildDesc] in terms of the parent links of
    the heap it was called on. *)
Lemma fill_generation_ancestors (h : heap) ps k :
  fill_generation h ps k
  = omap (ancestor (parent_of (build_byPID h ps) h) k) ps.
Proof.
  unfold fill_generation. rewrite generation_ancestors.
  apply list_omap_ext, Forall2_same_length_lookup_2; [done|].
  intros i x y Hx Hy. assert (x = y) as -> by congruence.
  apply ancestor_ext. intros z.
  apply parent_of_ppids, count_children_ppids.
Qed.

(** A non-empty generation of an acyclic snapshot holds a root, so the next
    one is strictly shorter. *)
Lemma fill_generation_shrinks (h : heap) ps k :
  acyclic (parent_of (build_byPID h ps) h) ->
  fill_generation h ps k <> [] ->
  (length (fill_generation h ps (S k)) < length (fill_generation h ps k))%nat.
Proof.
  intros Hacyc Hne. rewrite !fill_generation_ancestors in *.
  set (par := parent_of (build_byPID h ps) h) in *.
  rewrite <- omap_ancestor_step.
  destruct (omap (ancestor par k) ps) as [|y l] eqn:Hgen; [done|]. clear Hne.
  assert (Hy : y ∈ omap (ancestor par k) ps) by (rewrite Hgen; set_solver).
  apply list_elem_of_omap in Hy as (x & Hx & Hxy).
  assert (Hend : ancestor par (S (length h)) x = None).
  { apply acyclic_bounded; [done|]. intros a b Hab.
    by apply parent_of_range in Hab as [_ ?]. }
  apply ancestor_root in Hend as (j & r & _ & Hj & Hroot).
  assert (Hkj : (k <= j)%nat).
  { destruct (decide (k <= j)%nat) as [|Hlt]; [done|exfalso].
    assert (HSj : ancestor par (S j) x = None) by (simpl; by rewrite Hj).
    rewrite (ancestor_None_mono par (S j) k x ltac:(lia) HSj) in Hxy.
    discriminate. }
  destruct (ancestor_Some_down par (j - k) j x r ltac:(lia) Hj) as [z Hz].
  assert (Hzr : ancestor par k z = Some r).
  { replace j with ((j - k) + k)%nat in Hj by lia.
    by rewrite ancestor_add, Hz in Hj. }
  assert (Hzin : z ∈ ps).
  { destruct (j - k)%nat as [|d] eqn:Hd.
    - simpl in Hz. by injection Hz as <-.
    - simpl in Hz. destruct (ancestor par d x) as [w|]; [|discriminate].
      simpl in Hz. by apply parent_of_range in Hz as [? _]. }
  rewrite <- Hgen. apply (length_omap_lt par _ r); [|done].
  apply list_elem_of_omap. eauto.
Qed.

Lemma fill_generation_nil_succ (h : heap) ps k :
  fill_generation h ps k = [] -> fill_generation h ps (S k) = [].
Proof.
  rewrite !fill_generation_ancestors, <- omap_ancestor_step.
  by intros ->.
Qed.

Lemma fill_generation_length (h : heap) ps k :
  acyclic (parent_of (build_byPID h ps) h) ->
  (length (fill_generation h ps k) <= length ps - k)%nat.
Proof.
  intros Hacyc. induction k as [|k IH].
  - rewrite fill_generation_ancestors, omap_ancestor_0. lia.
  - destruct (fill_generation h ps k) as [|y l] eqn:Hgen.
    + rewrite (fill_generation_nil_succ h ps k Hgen). simpl. lia.
    + pose proof (fill_generation_shrinks h ps k Hacyc) as Hlt.
      rewrite Hgen in Hlt. specialize (Hlt ltac:(done)).
      simpl in *. lia.
Qed.

(** The loop returns as soon as some generation within the fuel is empty. *)
Lemma desc_loop_generation byPID (h : heap) rem k fuel :
  generation byPID h rem k = [] -> (k <= fuel)%nat ->
  is_Some (desc_loop fuel byPID h rem).
Proof.
  revert h rem fuel. induction k as [|k IH]; intros h rem fuel.
  - simpl. intros -> _. destruct fuel; simpl; eauto.
  - intros Hgen Hle. destruct rem as [|q rem].
    { destruct fuel; simpl; eauto. }
    destruct fuel as [|fuel]; [lia|].
    cbn [generation] in Hgen. cbn [desc_loop].
    destruct (desc_generation byPID h (q :: rem)) as [h' next].
    apply (IH h' next fuel Hgen). lia.
Qed.

(** More fuel does not change a result. *)
Lemma desc_loop_fuel_mono byPID (h : heap) rem fuel extra r :
  desc_loop fuel byPID h rem = Some r ->
  desc_loop (fuel + extra) byPID h rem = Some r.
Proof.
  revert h rem. induction fuel as [|fuel IH]; intros h rem.
  - destruct rem; simpl; [|discriminate]. intros <-. by destruct extra.
  - destruct rem as [|q rem]; [done|].
    cbn [desc_loop Nat.add].
    destruct (desc_generation byPID h (q :: rem)) as [h' next]. apply IH.
Qed.

(** [C9] Pass 2 of [fillChildDesc] terminates on every snapshot whose
    parent links are acyclic: every non-empty generation is followed by a
    strictly shorter one, some generation within [len(ps)] iterations is
    empty, and with that many iterations allowed the call returns. *)
Theorem fillChildDesc_terminates (h : heap) (ps : list ptr) :
  acyclic (parent_of (build_byPID h ps) h) ->
  (forall k, fill_generation h ps k <> [] ->
     (length (fill_generation h ps (S k)) < length (fill_generation h ps k))%nat)
  /\ (exists n, (n <= length ps)%nat /\ fill_generation h ps n = [])
  /\ (forall fuel, (length ps <= fuel)%nat -> is_Some (fillChildDesc fuel h ps)).
Proof.
  intros Hacyc.
  assert (Hnil : fill_generation h ps (length ps) = []).
  { pose proof (fill_generation_length h ps (length ps) Hacyc) as Hlen.
    destruct (fill_generation h ps (length ps)); [done|simpl in Hlen; lia]. }
  split; [|split].
  - intros k. by apply fill_generation_shrinks.
  - eauto.
  - intros fuel Hfuel. unfold fillChildDesc.
    by apply (desc_loop_generation _ _ _ (length ps)).
Qed.

(** The snapshot of [TestFillChildDesc] is acyclic. *)
Lemma test_heap_acyclic : acyclic (parent_of (build_byPID test_heap test_ps) test_heap).
Proof.
  set (par := parent_of (build_byPID test_heap test_ps) test_heap).
  assert (Hout : forall q, (12 <= q)%nat -> ancestor par 1 q = None).
  { intros q Hq. simpl. unfold par, parent_of.
    rewrite lookup_ge_None_2; [done|simpl; lia]. }
  assert (Hin : forall q j, (q < 12)%nat -> (j <= 6)%nat ->
                  ancestor par (S j) q <> Some q /\ ancestor par 6 q = None).
  { intros q j Hq Hj.
    do 12 (destruct q as [|q];
           [do 7 (destruct j as [|j]; [split; vm_compute; congruence|]); lia|]).
    lia. }
  intros q k Hq.
  destruct (decide (q < 12)%nat) as [Hlt|Hge].
  - destruct (decide (k <= 6)%nat) as [Hk|Hk].
    + by destruct (Hin q k Hlt Hk).
    + destruct (Hin q 0%nat Hlt ltac:(lia)) as [_ H6].
      rewrite (ancestor_None_mono par 6 (S k) q) in Hq by (lia || done).
      discriminate.
  - rewrite (ancestor_None_mono par 1 (S k) q) in Hq; [discriminate|lia|].
    apply Hout. lia.
Qed.

Lemma fillChildDesc_terminates_witness :
  acyclic (parent_of (build_byPID test_heap test_ps) test_heap)
  /\ is_Some (fillChildDesc 12 test_heap test_ps).
Proof.
  split; [exact test_heap_acyclic|].
  apply (fillChildDesc_terminates test_heap test_ps test_heap_acyclic).
  simpl. lia.
Defined.

(** *** Only the counters are written *)

Lemma same_but_counts_refl p : same_but_counts p p.
Proof. by destruct p. Qed.

Lemma same_but_counts_incr_nchild p p' :
  same_but_counts p p' -> same_but_counts p (incr_nchild p').
Proof. unfold same_but_counts. intros ->. by destruct p. Qed.

Lemma same_but_counts_incr_ndesc p p' :
  same_but_counts p p' -> same_but_counts p (incr_ndesc p').
Proof. unfold same_but_counts. intros ->. by destruct p. Qed.

Lemma count_children_frame byPID (h0 h : heap) ps :
  Forall2 same_but_counts h0 h ->
  Forall2 same_but_counts h0 (count_children byPID h ps).
Proof.
  unfold count_children. revert h.
  induction ps as [|q ps IH]; intros h Hh; simpl; [done|].
  apply IH. destruct (h !! q) as [p|]; [|done].
  destruct (byPID !! ppid p); [|done].
  apply Forall2_alter_r; [done|]. intros. by apply same_but_counts_incr_nchild.
Qed.

Lemma desc_generation_frame byPID (h0 h : heap) rem :
  Forall2 same_but_counts h0 h ->
  Forall2 same_but_counts h0 (desc_generation byPID h rem).1.
Proof.
  unfold desc_generation. generalize (@nil nat) at 2. revert h.
  induction rem as [|q rem IH]; intros h acc Hh; simpl; [done|].
  destruct (h !! q) as [p|]; [|by apply IH].
  destruct (byPID !! ppid p); [|by apply IH].
  apply IH, Forall2_alter_r; [done|].
  intros. by apply same_but_counts_incr_ndesc.
Qed.

Lemma desc_loop_frame fuel byPID (h0 h h' : heap) rem :
  Forall2 same_but_counts h0 h ->
  desc_loop fuel byPID h rem = Some h' ->
  Forall2 same_but_counts h0 h'.
Proof.
  revert h rem. induction fuel as [|fuel IH]; intros h rem Hh.
  - destruct rem; simpl; [|discriminate]. by intros [= <-].
  - destruct rem as [|q rem]; [by intros [= <-]|].
    cbn [desc_loop].
    pose proof (desc_generation_frame byPID h0 h (q :: rem) Hh) as Hgen.
    destruct (desc_generation byPID h (q :: rem)) as [h1 next].
    by apply IH.
Qed.

(** Whatever the input, a returning call leaves every field of every
    record but [nchild] and [ndesc] as it was. *)
Lemma fillChildDesc_frame fuel (h h' : heap) ps :
  fillChildDesc fuel h ps = Some h' -> Forall2 same_but_counts h h'.
Proof.
  unfold fillChildDesc. apply desc_loop_frame, count_children_frame.
  apply Forall2_same_length_lookup_2; [done|].
  intros i x y Hx Hy. assert (x = y) as -> by congruence.
  apply same_but_counts_refl.
Qed.

(** [C1] On the snapshot (1,0),(2,1),(5,1),(10,5),(11,5),(12,5),(13,5),
    (14,13),(15,14),(16,15),(20,19),(21,19), with PID 19 absent,
    [fillChildDesc] returns (six generations are enough) and leaves node 1
    with 2 children and 9 descendants, node 5 with 4 and 7, node 13 with 1
    and 3, nodes 20 and 21 with 0 and 0, every record that is nobody's
    parent with 0 and 0, and every other field of every record as it was;
    the whole result is the list the repository's test expects. *)
Theorem fillChildDesc_snapshot (extra : nat) :
  exists h' : heap,
    fillChildDesc (6 + extra) test_heap test_ps = Some h'
    /\ counts_of h' 1 = Some (2, 9)
    /\ counts_of h' 5 = Some (4, 7)
    /\ counts_of h' 13 = Some (1, 3)
    /\ counts_of h' 20 = Some (0, 0)
    /\ counts_of h' 21 = Some (0, 0)
    /\ Forall (fun p =>
                 forallb (fun c => negb (ppid c =? pid p)) test_heap = true ->
                 counts_of h' (pid p) = Some (0, 0)) test_heap
    /\ Forall2 same_but_counts test_heap h'
    /\ h' = test_want.
Proof.
  exists test_want.
  assert (Hrun : fillChildDesc (6 + extra) test_heap test_ps = Some test_want).
  { unfold fillChildDesc. apply desc_loop_fuel_mono. vm_compute. reflexivity. }
  split; [exact Hrun|].
  do 5 (split; [vm_compute; reflexivity|]).
  split; [|split; [by apply (fillChildDesc_frame _ _ _ _ Hrun)|reflexivity]].
  repeat constructor; vm_compute; congruence.
Qed.

(** ** StatParser *)

Example parseStat_test :
  parseStat test_lister process_zero (ReadOk test_stat) = Some (Ok test_stat_want).
Proof. vm_compute. reflexivity. Qed.

(** *** Wrap-around arithmetic *)

Lemma wrap64_eq x : exists k, wrap64 x = x + k * 2 ^ 64.
Proof.
  exists (- ((x + 2 ^ 63) / 2 ^ 64)). unfold wrap64.
  pose proof (Z.div_mod (x + 2 ^ 63) (2 ^ 64) ltac:(lia)). lia.
Qed.

Lemma wrap64_shift x k : wrap64 (x + k * 2 ^ 64) = wrap64 x.
Proof.
  unfold wrap64. replace (x + k * 2 ^ 64 + 2 ^ 63) with (x + 2 ^ 63 + k * 2 ^ 64) by lia.
  by rewrite Z_mod_plus_full.
Qed.

Lemma wrap64_id x : in_int64 x -> wrap64 x = x.
Proof. unfold in_int64, wrap64. intros H. rewrite Z.mod_small; lia. Qed.

Lemma wrap64_range x : in_int64 (wrap64 x).
Proof.
  unfold in_int64, wrap64.
  pose proof (Z.mod_pos_bound (x + 2 ^ 63) (2 ^ 64) ltac:(lia)). lia.
Qed.

Lemma wrap64_add_l x y : wrap64 (wrap64 x + y) = wrap64 (x + y).
Proof.
  destruct (wrap64_eq x) as [k ->].
  replace (x + k * 2 ^ 64 + y) with (x + y + k * 2 ^ 64) by lia.
  apply wrap64_shift.
Qed.

Lemma wrap64_add_r x y : wrap64 (x + wrap64 y) = wrap64 (x + y).
Proof. by rewrite Z.add_comm, wrap64_add_l, Z.add_comm. Qed.

Lemma wrap64_sub_r x y : wrap64 (x - wrap64 y) = wrap64 (x - y).
Proof.
  destruct (wrap64_eq y) as [k ->].
  replace (x - (y + k * 2 ^ 64)) with (x - y + (- k) * 2 ^ 64) by lia.
  apply wrap64_shift.
Qed.

Lemma wrap64_mul_l x y : wrap64 (wrap64 x * y) = wrap64 (x * y).
Proof.
  destruct (wrap64_eq x) as [k ->].
  replace ((x + k * 2 ^ 64) * y) with (x * y + (k * y) * 2 ^ 64) by lia.
  apply wrap64_shift.
Qed.

Lemma wrap64_sum4 a b c d :
  wrap64 (wrap64 a + wrap64 b + wrap64 c + wrap64 d) = wrap64 (a + b + c + d).
Proof.
  destruct (wrap64_eq a) as [ka ->]. destruct (wrap64_eq b) as [kb ->].
  destruct (wrap64_eq c) as [kc ->]. destruct (wrap64_eq d) as [kd ->].
  replace (a + ka * 2 ^ 64 + (b + kb * 2 ^ 64) + (c + kc * 2 ^ 64) + (d + kd * 2 ^ 64))
    with (a + b + c + d + (ka + kb + kc + kd) * 2 ^ 64) by lia.
  apply wrap64_shift.
Qed.

(** *** Bytes and slices *)

Lemma ascii_eqb_refl c : Ascii.eqb c c = true.
Proof. by apply Ascii.eqb_eq. Qed.

Lemma ascii_eqb_ne c d : c <> d -> Ascii.eqb c d = false.
Proof. intros H. by apply Ascii.eqb_neq. Qed.

Lemma len_app (a b : bytes) : len (a ++ b) = len a + len b.
Proof. unfold len. rewrite length_app. lia. Qed.

Lemma len_cons c (a : bytes) : len (c :: a) = 1 + len a.
Proof. unfold len. simpl length. lia. Qed.

Lemma len_nonneg (a : bytes) : 0 <= len a.
Proof. unfold len. lia. Qed.

Lemma slice_prefix (a b : bytes) : slice (a ++ b) 0 (len a) = Ok a.
Proof.
  unfold slice. pose proof (len_nonneg a). pose proof (len_nonneg b).
  rewrite len_app.
  replace ((0 <=? 0) && (0 <=? len a) && (len a <=? len a + len b)) with true
    by (symmetry; rewrite !andb_true_iff; lia).
  f_equal. rewrite Z.sub_0_r. unfold len. rewrite Nat2Z.id.
  change (Z.to_nat 0) with 0%nat. by rewrite drop_0, take_app_length.
Qed.

Lemma slice_suffix (a b : bytes) : slice (a ++ b) (len a) (len (a ++ b)) = Ok b.
Proof.
  unfold slice. pose proof (len_nonneg a). pose proof (len_nonneg b).
  rewrite len_app.
  replace ((0 <=? len a) && (len a <=? len a + len b)
           && (len a + len b <=? len a + len b)) with true
    by (symmetry; rewrite !andb_true_iff; lia).
  f_equal. replace (len a + len b - len a) with (len b) by lia.
  unfold len. rewrite !Nat2Z.id, drop_app_length. apply firstn_all.
Qed.

Lemma slice_middle c (a b : bytes) : slice (c :: a ++ b) 1 (1 + len a) = Ok a.
Proof.
  unfold slice. pose proof (len_nonneg a). pose proof (len_nonneg b).
  rewrite len_cons, len_app.
  replace ((0 <=? 1) && (1 <=? 1 + len a) && (1 + len a <=? 1 + (len a + len b)))
    with true by (symmetry; rewrite !andb_true_iff; lia).
  f_equal. replace (1 + len a - 1) with (len a) by lia.
  unfold len. rewrite Nat2Z.id. change (Z.to_nat 1) with 1%nat.
  cbn [drop]. by rewrite drop_0, take_app_length.
Qed.

Lemma slice_neg (b : bytes) lo : 0 <= lo -> slice b lo (-1) = Panic.
Proof.
  intros H. unfold slice.
  replace (lo <=? -1) with false by (symmetry; lia).
  by rewrite andb_false_r.
Qed.

Lemma IndexByte_app (pre r : bytes) c :
  c ∉ pre -> IndexByte (pre ++ c :: r) c = len pre.
Proof.
  induction pre as [|x pre IH]; intros Hnot; simpl.
  - by rewrite ascii_eqb_refl.
  - rewrite ascii_eqb_ne by (intros ->; apply Hnot; by left).
    rewrite IH by (intros ?; apply Hnot; by right).
    pose proof (len_nonneg pre). rewrite len_cons.
    replace (len pre <? 0) with false by (symmetry; lia). lia.
Qed.

Lemma LastIndexByte_absent (b : bytes) c : c ∉ b -> LastIndexByte b c = -1.
Proof.
  induction b as [|x b IH]; intros Hnot; simpl; [done|].
  rewrite IH by (intros ?; apply Hnot; by right). simpl.
  by rewrite ascii_eqb_ne by (intros ->; apply Hnot; by left).
Qed.

Lemma LastIndexByte_app (pre tail : bytes) c :
  c ∉ tail -> LastIndexByte (pre ++ c :: tail) c = len pre.
Proof.
  intros Hnot. induction pre as [|x pre IH]; simpl.
  - by rewrite LastIndexByte_absent, ascii_eqb_refl.
  - rewrite IH. pose proof (len_nonneg pre). rewrite len_cons.
    replace (0 <=? len pre) with true by (symmetry; lia). lia.
Qed.

Lemma skip_spaces_app (sp r : bytes) c :
  Forall (fun x => x = " "%char) sp -> c <> " "%char ->
  skip_spaces (sp ++ c :: r) = Ok (c :: r).
Proof.
  intros Hsp Hc. induction Hsp as [|x sp -> _ IH]; simpl.
  - by rewrite ascii_eqb_ne.
  - done.
Qed.

Lemma skip_spaces_cons (r : bytes) c :
  c <> " "%char -> skip_spaces (c :: r) = Ok (c :: r).
Proof. intros Hc. simpl. by rewrite ascii_eqb_ne. Qed.

Lemma parseStat_loop_S fuel l col p stat :
  parseStat_loop (S fuel) l col p stat
  = parseStat_body l col p stat (parseStat_loop fuel l).
Proof. reflexivity. Qed.

(** The first two iterations on a record that starts with a PID field,
    spaces and some byte [c]. *)
Lemma parseStat_first_field l p (pidfield sp rest : bytes) c :
  pidfield <> [] ->
  " "%char ∉ pidfield ->
  Forall (fun x => x = " "%char) sp ->
  c <> " "%char ->
  parseStat l p (ReadOk (pidfield ++ " "%char :: sp ++ c :: rest))
  = parseStat_body l 2 p (c :: rest) (parseStat_loop 22 l).
Proof.
  intros Hpid Hnosp Hsp Hc. unfold parseStat.
  rewrite parseStat_loop_S. unfold parseStat_body at 1.
  destruct pidfield as [|c0 pid0]; [congruence|].
  assert (Hc0 : c0 <> " "%char) by (intros ->; apply Hnosp; by left).
  rewrite <- app_comm_cons, skip_spaces_cons by exact Hc0.
  rewrite app_comm_cons, IndexByte_app by exact Hnosp.
  rewrite slice_prefix, slice_suffix.
  change (1 =? 2) with false. cbv iota.
  change (parseStat_switch l 1 (c0 :: pid0) p) with (@Ok (process * bool) (p, false)).
  cbv iota beta.
  rewrite parseStat_loop_S. unfold parseStat_body at 1.
  rewrite (app_comm_cons sp (c :: rest) " "%char).
  rewrite skip_spaces_app; [|by constructor|exact Hc].
  unfold parseStat_body. rewrite (skip_spaces_cons rest c Hc).
  reflexivity.
Qed.

(** *** The loop of parseStat *)

Lemma parseStat_switch_name l col b p p' d :
  parseStat_switch l col b p = Ok (p', d) -> name p' = name p.
Proof.
  unfold parseStat_switch, mbind, outcome_bind. intros H.
  repeat case_match; simplify_eq; reflexivity.
Qed.

Lemma parseStat_switch_24 l b p p' :
  parseStat_switch l 24 b p <> Ok (p', false).
Proof.
  unfold parseStat_switch, mbind, outcome_bind. simpl.
  by destruct (parseInt32b b).
Qed.

Lemma parseStat_switch_done l col b p p' :
  parseStat_switch l col b p = Ok (p', true) -> col = 24.
Proof.
  unfold parseStat_switch, mbind, outcome_bind. intros H.
  repeat case_match; simplify_eq; lia.
Qed.

(** From column 3 on the name is not written any more. *)
Lemma parseStat_loop_name fuel l col p stat p' :
  3 <= col ->
  parseStat_loop fuel l col p stat = Some (Ok p') -> name p' = name p.
Proof.
  revert col p stat. induction fuel as [|fuel IH]; intros col p stat Hcol;
    [discriminate|].
  rewrite parseStat_loop_S. unfold parseStat_body.
  destruct (skip_spaces stat) as [stat'| |]; [|discriminate..].
  replace (col =? 2) with false by (symmetry; lia).
  destruct (slice stat' 0 _) as [b| |]; [|discriminate..].
  destruct (slice stat' _ _) as [rest| |]; [|discriminate..].
  destruct (parseStat_switch l col b p) as [[p1 []]| |] eqn:Hsw;
    [| |discriminate..].
  - intros [= <-]. by apply parseStat_switch_name in Hsw.
  - intros Hloop. apply IH in Hloop; [|lia].
    apply parseStat_switch_name in Hsw. congruence.
Qed.

(** With 24 iterations allowed the loop always comes to an end: by a
    result, an error or a panic. *)
Lemma parseStat_loop_total l n p stat :
  (1 <= n <= 24)%nat ->
  is_Some (parseStat_loop n l (25 - Z.of_nat n) p stat).
Proof.
  revert p stat. induction n as [|n IH]; intros p stat Hn; [lia|].
  rewrite parseStat_loop_S. unfold parseStat_body.
  assert (Hnext : forall p1 rest,
             parseStat_loop n l (25 - Z.of_nat (S n) + 1) p1 rest = None ->
             n = 0%nat).
  { intros p1 rest Hnone. destruct n as [|n']; [done|exfalso].
    replace (25 - Z.of_nat (S (S n')) + 1) with (25 - Z.of_nat (S n')) in Hnone by lia.
    destruct (IH p1 rest ltac:(lia)) as [r Hr]. congruence. }
  destruct (skip_spaces stat) as [stat'| |]; [|eauto..].
  destruct (25 - Z.of_nat (S n) =? 2) eqn:Hcol.
  - destruct stat' as [|c stat']; [eauto|].
    destruct (negb _); [eauto|].
    destruct (slice _ 1 _) as [nm| |]; [|eauto..].
    destruct (slice _ _ _) as [rest| |]; [|eauto..].
    destruct (parseStat_loop n l _ _ rest) eqn:Hloop; [eauto|].
    apply Hnext in Hloop. apply Z.eqb_eq in Hcol. lia.
  - destruct (slice stat' 0 _) as [b| |]; [|eauto..].
    destruct (slice stat' _ _) as [rest| |]; [|eauto..].
    destruct (parseStat_switch l _ b p) as [[p1 []]| |] eqn:Hsw; [eauto| |eauto..].
    destruct (parseStat_loop n l _ p1 rest) eqn:Hloop; [eauto|].
    apply Hnext in Hloop. subst n. simpl in Hsw.
    by apply parseStat_switch_24 in Hsw.
Qed.

Lemma parseStat_total l p file : is_Some (parseStat l p file).
Proof.
  destruct file as [stat|e]; unfold parseStat; [|eauto].
  apply (parseStat_loop_total l 24 p stat). lia.
Qed.

(** Column 2: when what follows the PID field starts with ['('] and
    holds a [')'], the name is everything strictly between that first
    ['('] and the last [')'] of the line, and the loop goes on with column
    3 on what follows that last [')']. *)
Lemma parseStat_name_column l p (pidfield sp nm tail : bytes) :
  pidfield <> [] ->
  " "%char ∉ pidfield ->
  Forall (fun x => x = " "%char) sp ->
  ")"%char ∉ tail ->
  parseStat l p (ReadOk (pidfield ++ " "%char :: sp ++ "("%char :: nm ++ ")"%char :: tail))
  = parseStat_loop 22 l 3 (set_name (string_of_list_ascii nm) p) tail.
Proof.
  intros Hpid Hnosp Hsp Htail.
  rewrite parseStat_first_field by (assumption || discriminate).
  unfold parseStat_body. rewrite skip_spaces_cons by discriminate.
  change (2 =? 2) with true. cbv iota.
  change (negb (Ascii.eqb "(" "(")) with false. cbv iota.
  rewrite (app_comm_cons nm (")"%char :: tail) "("%char).
  rewrite LastIndexByte_app by exact Htail.
  rewrite <- app_comm_cons.
  rewrite len_cons, slice_middle.
  assert (Hsplit : "("%char :: nm ++ ")"%char :: tail
                   = ("("%char :: nm ++ [")"%char]) ++ tail)
    by (rewrite <- app_comm_cons, <- app_assoc; reflexivity).
  assert (Hlen : 1 + len nm + 1 = len ("("%char :: nm ++ [")"%char]))
    by (rewrite len_cons, len_app; unfold len; simpl; lia).
  rewrite Hsplit, Hlen, slice_suffix. reflexivity.
Qed.

(** The [switch] accepts a field that is as its column asks, and returns
    at column 24 only. *)
Lemma parseStat_switch_accepted l col f p :
  field_accepted col f = true ->
  exists p1, parseStat_switch l col f p = Ok (p1, col =? 24).
Proof.
  unfold field_accepted, parseStat_switch, mbind, outcome_bind, is_ok.
  repeat match goal with
         | |- context [if ?x =? ?k then _ else _] =>
             destruct (Z.eqb_spec x k) as [->|?]
         end;
    try (match goal with
         | |- context [match ?r with _ => _ end] => destruct r; try discriminate
         end; intros _; eexists; reflexivity).
  intros _. exists p. reflexivity.
Qed.

Lemma field_wf_spec (f : bytes) :
  field_wf f = true -> f <> [] /\ (" "%char ∉ f) /\ (")"%char ∉ f).
Proof.
  destruct f as [|c f']; [discriminate|]. unfold field_wf.
  intros Hall. split; [discriminate|]. revert Hall.
  generalize (c :: f'). intros g.
  induction g as [|x g IH]; [intros _; split; apply not_elem_of_nil|].
  cbn [forallb]. intros Hall. apply andb_true_iff in Hall as [Hx Hg].
  apply andb_true_iff in Hx as [Hx1 Hx2].
  apply negb_true_iff, Ascii.eqb_neq in Hx1.
  apply negb_true_iff, Ascii.eqb_neq in Hx2.
  destruct (IH Hg) as [H1 H2].
  split; intros Hin; apply elem_of_cons in Hin as [Hin|Hin]; congruence.
Qed.

Lemma stat_tail_cons f fs (rest : bytes) :
  stat_tail (f :: fs) rest = " "%char :: f ++ stat_tail fs rest.
Proof.
  unfold stat_tail. cbn [fmap list_fmap concat].
  rewrite <- app_assoc. reflexivity.
Qed.

Lemma stat_tail_head fs (rest : bytes) : exists r, stat_tail fs rest = " "%char :: r.
Proof.
  destruct fs as [|f fs]; [by eexists|]. rewrite stat_tail_cons. by eexists.
Qed.

Lemma stat_tail_no_paren fs col (rest : bytes) :
  valid_fields col fs = true -> ")"%char ∉ rest -> ")"%char ∉ stat_tail fs rest.
Proof.
  revert col. induction fs as [|f fs IH]; intros col Hv Hrest.
  - unfold stat_tail. cbn. intros Hin.
    apply elem_of_cons in Hin as [Hin|Hin]; [discriminate|done].
  - cbn [valid_fields] in Hv. apply andb_true_iff in Hv as [Hv Hfs].
    apply andb_true_iff in Hv as [Hwf _].
    apply field_wf_spec in Hwf as (_ & _ & Hf).
    rewrite stat_tail_cons. intros Hin.
    apply elem_of_cons in Hin as [Hin|Hin]; [discriminate|].
    apply elem_of_app in Hin as [Hin|Hin]; [done|].
    by apply (IH (col + 1)).
Qed.

(** On fields that are as their columns ask, the loop goes through to
    column 24 and returns a record. *)
Lemma parseStat_loop_valid l fields :
  forall fuel col p (rest : bytes),
    3 <= col <= 24 ->
    valid_fields col fields = true ->
    (length fields <= fuel)%nat ->
    exists p', parseStat_loop fuel l col p (stat_tail fields rest) = Some (Ok p').
Proof.
  induction fields as [|f fs IH]; intros fuel col p rest Hcol Hv Hfuel.
  - cbn [valid_fields] in Hv. apply Z.eqb_eq in Hv. lia.
  - destruct fuel as [|fuel]; [cbn [length] in Hfuel; lia|].
    cbn [valid_fields] in Hv. apply andb_true_iff in Hv as [Hv Hfs].
    apply andb_true_iff in Hv as [Hwf Hacc].
    apply field_wf_spec in Hwf as (Hne & Hsp & _).
    destruct f as [|c f']; [done|].
    assert (Hc : c <> " "%char) by (intros ->; apply Hsp; by left).
    rewrite stat_tail_cons, parseStat_loop_S. unfold parseStat_body.
    destruct (stat_tail_head fs rest) as [r Hr].
    change (" "%char :: (c :: f') ++ stat_tail fs rest)
      with ([" "%char] ++ c :: (f' ++ stat_tail fs rest)).
    rewrite skip_spaces_app; [|by repeat constructor|exact Hc].
    replace (col =? 2) with false by (symmetry; lia).
    change (c :: f' ++ stat_tail fs rest) with ((c :: f') ++ stat_tail fs rest).
    rewrite Hr, IndexByte_app, slice_prefix, slice_suffix by exact Hsp.
    destruct (parseStat_switch_accepted l col (c :: f') p Hacc) as [p1 ->].
    destruct (Z.eqb_spec col 24) as [->|Hne24]; [by eexists|].
    rewrite <- Hr. apply IH; [lia|exact Hfs|cbn [length] in Hfuel; lia].
Qed.

Lemma valid_fields_length col fields :
  valid_fields col fields = true -> Z.of_nat (length fields) = 25 - col.
Proof.
  revert col. induction fields as [|f fs IH]; intros col Hc;
    cbn [valid_fields length] in *.
  - apply Z.eqb_eq in Hc. lia.
  - apply andb_true_iff in Hc as [_ Hc]. apply IH in Hc. lia.
Qed.

(** [C2] A status record made of a PID field, spaces, ['('], any bytes
    [nm] -- parentheses and spaces included -- [')'] and then the fields
    3 to 24 as their columns ask, none holding a [')'], is accepted, and
    the name of the record returned is [nm]: everything strictly between
    the first ['('] and the last [')'] of the line, not what a matching
    pair would delimit. *)
Theorem parseStat_name_first_last l p (pidfield sp nm : bytes) fields (rest : bytes) :
  pidfield <> [] ->
  " "%char ∉ pidfield ->
  Forall (fun x => x = " "%char) sp ->
  valid_fields 3 fields = true ->
  ")"%char ∉ rest ->
  exists p',
    parseStat l p
      (ReadOk (pidfield ++ " "%char :: sp ++ "("%char :: nm ++ ")"%char
                 :: stat_tail fields rest))
    = Some (Ok p')
    /\ name p' = string_of_list_ascii nm.
Proof.
  intros Hpid Hnosp Hsp Hv Hrest.
  rewrite parseStat_name_column;
    [|done|done|done|by apply (stat_tail_no_paren fields 3)].
  assert (Hlen : (length fields <= 22)%nat)
    by (apply valid_fields_length in Hv; lia).
  destruct (parseStat_loop_valid l fields 22 3
              (set_name (string_of_list_ascii nm) p) rest ltac:(lia) Hv Hlen)
    as [p' Hp'].
  exists p'. split; [exact Hp'|].
  by apply parseStat_loop_name in Hp'.
Qed.

Lemma parseStat_name_first_last_witness :
  exists p',
    parseStat test_lister process_zero
      (ReadOk (list_ascii_of_string
         "7 (my(app)name) S 1 7 7 0 -1 0 0 0 0 0 1 2 3 4 20 0 1 0 5 0 9 0"))
    = Some (Ok p')
    /\ name p' = "my(app)name"%string.
Proof.
  assert (Hrec :
    list_ascii_of_string
      "7 (my(app)name) S 1 7 7 0 -1 0 0 0 0 0 1 2 3 4 20 0 1 0 5 0 9 0"
    = list_ascii_of_string "7" ++ " "%char :: [] ++ "("%char
        :: list_ascii_of_string "my(app)name" ++ ")"%char
        :: stat_tail
             (list_ascii_of_string <$>
                ["S"; "1"; "7"; "7"; "0"; "-1"; "0"; "0"; "0"; "0"; "0"; "1"; "2";
                 "3"; "4"; "20"; "0"; "1"; "0"; "5"; "0"; "9"]%string)
             (list_ascii_of_string "0"))
    by (vm_compute; reflexivity).
  destruct (parseStat_name_first_last test_lister process_zero
              (list_ascii_of_string "7") []
              (list_ascii_of_string "my(app)name")
              (list_ascii_of_string <$>
                 ["S"; "1"; "7"; "7"; "0"; "-1"; "0"; "0"; "0"; "0"; "0"; "1"; "2";
                  "3"; "4"; "20"; "0"; "1"; "0"; "5"; "0"; "9"]%string)
              (list_ascii_of_string "0")) as (p' & Hrun & Hname).
  - discriminate.
  - intros H. apply list_elem_of_singleton in H. discriminate.
  - constructor.
  - vm_compute. reflexivity.
  - intros H. apply list_elem_of_singleton in H. discriminate.
  - exists p'. split; [|exact Hname]. rewrite Hrec. exact Hrun.
Defined.

(** A process named [my(app)name] is read back whole. *)
Example parseStat_nested_parens :
  name <$> (parseStat test_lister process_zero
     (ReadOk (list_ascii_of_string
        "7 (my(app)name) S 1 7 7 0 -1 0 0 0 0 0 1 2 3 4 20 0 1 0 5 0 9 0"))
     ≫= fun r => match r with Ok p => Some p | _ => None end)
  = Some "my(app)name"%string.
Proof. vm_compute. reflexivity. Qed.

(** A record without ['('] where the name should start is rejected with
    the error [malformed /stat]. *)
Lemma parseStat_missing_open_paren l p (pidfield sp rest : bytes) c :
  pidfield <> [] ->
  " "%char ∉ pidfield ->
  Forall (fun x => x = " "%char) sp ->
  c <> " "%char -> c <> "("%char ->
  parseStat l p (ReadOk (pidfield ++ " "%char :: sp ++ c :: rest))
  = Some (Err ErrMalformedStat).
Proof.
  intros Hpid Hnosp Hsp Hc1 Hc2.
  rewrite parseStat_first_field by assumption.
  unfold parseStat_body. rewrite skip_spaces_cons by assumption.
  change (2 =? 2) with true. cbv iota.
  rewrite ascii_eqb_ne by assumption. reflexivity.
Qed.

(** [C4] [parseStat] is not free of crashes on arbitrary contents.  The
    loop does end for every input, and a missing ['('] is reported as an
    error, but an empty record, a record cut before the space that should
    end a field, and a record whose name is never closed by [')'] make
    the slice expressions [stat[0]], [stat[:i]] and [stat[1:i]] panic
    instead of returning an error. *)
Theorem parseStat_panics_on_truncated_record l p :
  parseStat l p (ReadOk []) = Some Panic
  /\ parseStat l p (ReadOk (list_ascii_of_string "1860")) = Some Panic
  /\ parseStat l p (ReadOk (list_ascii_of_string "1860 (panel-6-indicat")) = Some Panic
  /\ parseStat l p (ReadOk (list_ascii_of_string "1860 (panel-6-indicat) S 1837")) = Some Panic
  /\ parseStat l p (ReadOk (list_ascii_of_string "1860 panel-6-indicat S 1837 "))
     = Some (Err ErrMalformedStat).
Proof. repeat split; vm_compute; reflexivity. Qed.

(** *** The fields the loop reads are the fields of the record *)

Lemma IndexByte_lower (s : bytes) c : -1 <= IndexByte s c.
Proof.
  induction s as [|x s IH]; simpl; [lia|].
  destruct (Ascii.eqb x c); [lia|]. destruct (IndexByte s c <? 0) eqn:E; lia.
Qed.

Lemma IndexByte_found (s : bytes) c :
  0 <= IndexByte s c ->
  exists pre r, s = pre ++ c :: r /\ (c ∉ pre) /\ IndexByte s c = len pre.
Proof.
  induction s as [|x s IH]; simpl; [lia|].
  destruct (Ascii.eqb x c) eqn:Hx.
  - apply Ascii.eqb_eq in Hx as ->. intros _. exists [], s.
    split; [done|]. split; [|done]. apply not_elem_of_nil.
  - apply Ascii.eqb_neq in Hx.
    destruct (IndexByte s c <? 0) eqn:E; [lia|]. intros _.
    destruct IH as (pre & r & -> & Hnot & Hi); [lia|].
    exists (x :: pre), r. split; [done|]. split.
    + intros Hin. apply elem_of_cons in Hin as [->|]; done.
    + rewrite len_cons. lia.
Qed.

Lemma skip_spaces_suffix (stat s1 : bytes) :
  skip_spaces stat = Ok s1 ->
  exists sp c r, stat = sp ++ s1 /\ s1 = c :: r /\ c <> " "%char
                 /\ Forall (fun x => x = " "%char) sp.
Proof.
  induction stat as [|x stat IH]; simpl; [discriminate|].
  destruct (Ascii.eqb x " ") eqn:Hx.
  - apply Ascii.eqb_eq in Hx as ->. intros H.
    destruct (IH H) as (sp & c & r & -> & -> & Hc & Hsp).
    exists (" "%char :: sp), c, r. repeat split; try done. by constructor.
  - apply Ascii.eqb_neq in Hx. intros [= <-].
    exists [], x, stat. repeat split; try done.
Qed.

Lemma split_fields_spaces (sp b : bytes) :
  Forall (fun x => x = " "%char) sp ->
  split_fields (sp ++ b) [] = split_fields b [].
Proof. induction 1 as [|x sp -> _ IH]; simpl; done. Qed.

Lemma split_fields_token (tok rest cur : bytes) :
  " "%char ∉ tok -> cur ++ tok <> [] ->
  split_fields (tok ++ " "%char :: rest) cur = (cur ++ tok) :: split_fields rest [].
Proof.
  revert cur. induction tok as [|x tok IH]; intros cur Hnot Hne.
  - rewrite app_nil_r in *. simpl. by destruct cur.
  - simpl. rewrite ascii_eqb_ne by (intros ->; apply Hnot; by left).
    rewrite IH.
    + by rewrite <- app_assoc.
    + intros ?. apply Hnot. by right.
    + rewrite <- app_assoc. simpl. by destruct cur.
Qed.

Lemma slice_to_end (s rest : bytes) lo :
  slice s lo (len s) = Ok rest ->
  rest = drop (Z.to_nat lo) s /\ 0 <= lo <= len s.
Proof.
  unfold slice. destruct (_ && _) eqn:E; [|discriminate].
  rewrite !andb_true_iff in E. intros [= <-]. split; [|lia].
  apply take_ge. rewrite length_drop. unfold len in *. lia.
Qed.

(** One iteration on a column other than 2 consumes exactly the next
    field. *)
Lemma field_step (stat s1 b rest : bytes) :
  skip_spaces stat = Ok s1 ->
  slice s1 0 (IndexByte s1 " ") = Ok b ->
  slice s1 (IndexByte s1 " ") (len s1) = Ok rest ->
  split_fields stat [] = b :: split_fields rest [].
Proof.
  intros Hskip Hb Hrest.
  destruct (skip_spaces_suffix _ _ Hskip) as (sp & c & r & -> & Hs1 & Hc & Hsp).
  rewrite split_fields_spaces by done.
  destruct (decide (0 <= IndexByte s1 " ")) as [Hi|Hi].
  - destruct (IndexByte_found _ _ Hi) as (pre & r' & Heq & Hnot & Hlen).
    rewrite Hlen in Hb, Hrest. rewrite Heq in Hb, Hrest.
    rewrite slice_prefix in Hb. rewrite slice_suffix in Hrest.
    injection Hb as <-. injection Hrest as <-.
    rewrite Heq. rewrite split_fields_token; [| done |].
    + simpl. done.
    + simpl. destruct pre; [|done]. simpl in Heq. congruence.
  - pose proof (IndexByte_lower s1 " ").
    replace (IndexByte s1 " ") with (-1) in Hb by lia.
    rewrite slice_neg in Hb by lia. discriminate.
Qed.

Lemma loop_apply_cols fuel l col p stat p' :
  3 <= col ->
  parseStat_loop fuel l col p stat = Some (Ok p') ->
  apply_cols l col p (split_fields stat []) = Some p'.
Proof.
  revert col p stat. induction fuel as [|fuel IH]; intros col p stat Hcol;
    [discriminate|].
  rewrite parseStat_loop_S. unfold parseStat_body.
  destruct (skip_spaces stat) as [s1| |] eqn:Hskip; [|discriminate..].
  replace (col =? 2) with false by (symmetry; lia).
  destruct (slice s1 0 _) as [b| |] eqn:Hb; [|discriminate..].
  destruct (slice s1 _ (len s1)) as [rest| |] eqn:Hrest; [|discriminate..].
  rewrite (field_step _ _ _ _ Hskip Hb Hrest). cbn [apply_cols].
  destruct (parseStat_switch l col b p) as [[p1 []]| |]; [| |discriminate..].
  - by intros [= <-].
  - apply IH. lia.
Qed.

Lemma LastIndexByte_suffix (pre s : bytes) c :
  0 <= LastIndexByte s c ->
  LastIndexByte (pre ++ s) c = len pre + LastIndexByte s c.
Proof.
  intros Hs. induction pre as [|x pre IH]; simpl.
  - unfold len. simpl. lia.
  - rewrite IH. pose proof (len_nonneg pre). rewrite len_cons.
    replace (0 <=? len pre + LastIndexByte s c) with true by (symmetry; lia).
    lia.
Qed.

(** A record [parseStat] accepts: the result is the [switch] applied to
    the fields that follow the last [')'], starting at column 3, on a
    record that carries the name. *)
Lemma parseStat_apply_cols l p stat p' :
  parseStat l p (ReadOk stat) = Some (Ok p') ->
  exists nm,
    apply_cols l 3 (set_name nm p)
      (split_fields (drop (Z.to_nat (LastIndexByte stat ")" + 1)) stat) [])
    = Some p'.
Proof.
  unfold parseStat. rewrite parseStat_loop_S. unfold parseStat_body.
  destruct (skip_spaces stat) as [s1| |] eqn:Hskip1; [|discriminate..].
  change (1 =? 2) with false. cbv iota.
  destruct (slice s1 0 _) as [b1| |] eqn:Hb1; [|discriminate..].
  destruct (slice s1 _ (len s1)) as [rest1| |] eqn:Hrest1; [|discriminate..].
  change (parseStat_switch l 1 b1 p) with (@Ok (process * bool) (p, false)).
  cbv iota beta. rewrite parseStat_loop_S. unfold parseStat_body.
  destruct (skip_spaces rest1) as [s2| |] eqn:Hskip2; [|discriminate..].
  change (1 + 1 =? 2) with true. cbv iota.
  destruct s2 as [|c s2]; [discriminate|].
  destruct (negb _); [discriminate|].
  destruct (slice (c :: s2) 1 _) as [nm| |] eqn:Hnm; [|discriminate..].
  destruct (slice (c :: s2) _ (len _)) as [rest2| |] eqn:Hrest2; [|discriminate..].
  intros Hloop. exists (string_of_list_ascii nm).
  apply loop_apply_cols in Hloop; [|lia].
  apply slice_to_end in Hrest2 as [-> Hj].
  assert (Hj0 : 0 <= LastIndexByte (c :: s2) ")").
  { unfold slice in Hnm. destruct (_ && _) eqn:E; [|discriminate].
    rewrite !andb_true_iff in E. lia. }
  assert (Hpre : exists pre, stat = pre ++ c :: s2).
  { destruct (skip_spaces_suffix _ _ Hskip1) as (sp1 & _ & _ & -> & _).
    apply slice_to_end in Hrest1 as [-> _].
    destruct (skip_spaces_suffix _ _ Hskip2) as (sp2 & _ & _ & Hr1 & _).
    exists (sp1 ++ take (Z.to_nat (IndexByte s1 " ")) s1 ++ sp2).
    rewrite <- !app_assoc, <- Hr1. by rewrite take_drop. }
  destruct Hpre as [pre ->].
  rewrite LastIndexByte_suffix by done.
  rewrite drop_app_ge by (unfold len; lia).
  replace (Z.to_nat (len pre + LastIndexByte (c :: s2) ")" + 1) - length pre)%nat
    with (Z.to_nat (LastIndexByte (c :: s2) ")" + 1)) by (unfold len; lia).
  exact Hloop.
Qed.

(** *** Derived times *)

(** [C3] For every record [parseStat] accepts, with [ut], [st], [cut],
    [cst] the tick counts in fields 14 to 17 and [start] the start time in
    field 22: each of the four times is its tick count times the one clock
    tick of the lister, [cpuTime] is their sum, and the age is
    [max(0, uptime - start * clockTick)], hence never negative.  The
    arithmetic is that of [time.Duration]; whenever the exact values fit a
    [time.Duration] they are the values stored. *)
Theorem parseStat_derived_times l p stat p' :
  parseStat l p (ReadOk stat) = Some (Ok p') ->
  exists ut st cut cst start,
    stat_field_uint stat 14 32 = Some ut
    /\ stat_field_uint stat 15 32 = Some st
    /\ stat_field_uint stat 16 32 = Some cut
    /\ stat_field_uint stat 17 32 = Some cst
    /\ stat_field_uint stat 22 64 = Some start
    /\ utime p' = wrap64 (ut * lister.clockTick l)
    /\ stime p' = wrap64 (st * lister.clockTick l)
    /\ cutime p' = wrap64 (cut * lister.clockTick l)
    /\ cstime p' = wrap64 (cst * lister.clockTick l)
    /\ cpuTime p' = wrap64 (utime p' + stime p' + cutime p' + cstime p')
    /\ uptime p'
       = Z.max 0 (wrap64 (lister.uptime l
                          - wrap64 (wrap64 start * lister.clockTick l)))
    /\ 0 <= uptime p'
    /\ (in_int64 ((ut + st + cut + cst) * lister.clockTick l) ->
        cpuTime p' = (ut + st + cut + cst) * lister.clockTick l)
    /\ (in_int64 (lister.uptime l - start * lister.clockTick l) ->
        uptime p' = Z.max 0 (lister.uptime l - start * lister.clockTick l)).
Proof.
  intros H. apply parseStat_apply_cols in H as [nm H].
  unfold stat_field_uint, stat_field.
  set (toks := split_fields _ _) in *. clearbody toks.
  destruct toks as [|t3 toks]; [discriminate|]. col_step H.
  destruct toks as [|t4 toks]; [discriminate|]. col_step H.
  destruct (parseIntb t4) as [v4| |] eqn:E4; [|discriminate..]. cbv iota beta in H.
  destruct toks as [|t5 toks]; [discriminate|]. col_step H.
  destruct (parseIntb t5) as [v5| |] eqn:E5; [|discriminate..]. cbv iota beta in H.
  destruct toks as [|t6 toks]; [discriminate|]. col_step H.
  destruct toks as [|t7 toks]; [discriminate|]. col_step H.
  destruct toks as [|t8 toks]; [discriminate|]. col_step H.
  destruct toks as [|t9 toks]; [discriminate|]. col_step H.
  destruct toks as [|t10 toks]; [discriminate|]. col_step H.
  destruct toks as [|t11 toks]; [discriminate|]. col_step H.
  destruct toks as [|t12 toks]; [discriminate|]. col_step H.
  destruct toks as [|t13 toks]; [discriminate|]. col_step H.
  destruct toks as [|t14 toks]; [discriminate|]. col_step H.
  destruct (parseUint32b t14) as [v14| |] eqn:E14; [|discriminate..]. cbv iota beta in H.
  destruct toks as [|t15 toks]; [discriminate|]. col_step H.
  destruct (parseUint32b t15) as [v15| |] eqn:E15; [|discriminate..]. cbv iota beta in H.
  destruct toks as [|t16 toks]; [discriminate|]. col_step H.
  destruct (parseUint32b t16) as [v16| |] eqn:E16; [|discriminate..]. cbv iota beta in H.
  destruct toks as [|t17 toks]; [discriminate|]. col_step H.
  destruct (parseUint32b t17) as [v17| |] eqn:E17; [|discriminate..]. cbv iota beta in H.
  destruct toks as [|t18 toks]; [discriminate|]. col_step H.
  destruct toks as [|t19 toks]; [discriminate|]. col_step H.
  destruct toks as [|t20 toks]; [discriminate|]. col_step H.
  destruct (parseInt32b t20) as [v20| |] eqn:E20; [|discriminate..]. cbv iota beta in H.
  destruct toks as [|t21 toks]; [discriminate|]. col_step H.
  destruct toks as [|t22 toks]; [discriminate|]. col_step H.
  destruct (parseUint64b t22) as [v22| |] eqn:E22; [|discriminate..]. cbv iota beta in H.
  destruct toks as [|t23 toks]; [discriminate|]. col_step H.
  destruct toks as [|t24 toks]; [discriminate|]. col_step H.
  destruct (parseInt32b t24) as [v24| |] eqn:E24; [|discriminate..]. cbv iota beta in H.
  injection H as <-.
  unfold parseUint32b, parseUint64b in *.
  exists v14, v15, v16, v17, v22.
  cbn [lookup list_lookup Nat.sub mbind option_bind].
  rewrite E14, E15, E16, E17, E22.
  cbn [utime stime cutime cstime cpuTime uptime set_rss set_uptime
       set_nthreads set_cpuTime set_cstime set_cutime set_stime set_utime
       set_pgid set_ppid set_name].
  set (tick := lister.clockTick l).
  set (age := wrap64 (lister.uptime l - wrap64 (wrap64 v22 * tick))).
  assert (Hage : (if age <? 0 then 0 else age) = Z.max 0 age)
    by (destruct (age <? 0) eqn:E; lia).
  repeat split; try reflexivity.
  - rewrite wrap64_add_l, <- Z.add_assoc, wrap64_add_l, Z.add_assoc.
    reflexivity.
  - exact Hage.
  - rewrite Hage. lia.
  - intros Hfit.
    rewrite wrap64_add_l, <- Z.add_assoc, wrap64_add_l, Z.add_assoc.
    rewrite wrap64_sum4, <- (wrap64_id _ Hfit). f_equal. lia.
  - intros Hfit. rewrite Hage. f_equal. unfold age.
    rewrite wrap64_mul_l, wrap64_sub_r. apply wrap64_id, Hfit.
Qed.

Lemma parseStat_derived_times_witness :
  exists ut st cut cst start,
    stat_field_uint test_stat 14 32 = Some ut
    /\ stat_field_uint test_stat 15 32 = Some st
    /\ stat_field_uint test_stat 16 32 = Some cut
    /\ stat_field_uint test_stat 17 32 = Some cst
    /\ stat_field_uint test_stat 22 64 = Some start
    /\ utime test_stat_want = wrap64 (ut * lister.clockTick test_lister)
    /\ stime test_stat_want = wrap64 (st * lister.clockTick test_lister)
    /\ cutime test_stat_want = wrap64 (cut * lister.clockTick test_lister)
    /\ cstime test_stat_want = wrap64 (cst * lister.clockTick test_lister)
    /\ cpuTime test_stat_want
       = wrap64 (utime test_stat_want + stime test_stat_want
                 + cutime test_stat_want + cstime test_stat_want)
    /\ uptime test_stat_want
       = Z.max 0 (wrap64 (lister.uptime test_lister
                          - wrap64 (wrap64 start * lister.clockTick test_lister)))
    /\ 0 <= uptime test_stat_want
    /\ (in_int64 ((ut + st + cut + cst) * lister.clockTick test_lister) ->
        cpuTime test_stat_want = (ut + st + cut + cst) * lister.clockTick test_lister)
    /\ (in_int64 (lister.uptime test_lister - start * lister.clockTick test_lister) ->
        uptime test_stat_want
        = Z.max 0 (lister.uptime test_lister - start * lister.clockTick test_lister)).
Proof.
  apply (parseStat_derived_times test_lister process_zero test_stat test_stat_want).
  vm_compute. reflexivity.
Defined.

(** The age is clamped: a start time after the recorded uptime gives 0. *)
Example parseStat_age_clamped :
  uptime <$> (parseStat test_lister process_zero
     (ReadOk (list_ascii_of_string
        "7 (a) S 1 7 7 0 -1 0 0 0 0 0 1 2 3 4 20 0 1 0 60001 0 9 0"))
     ≫= fun r => match r with Ok p => Some p | _ => None end)
  = Some 0.
Proof. vm_compute. reflexivity. Qed.

(** ** FDCounter *)

Example direntCount_test :
  exists b, direntCount test_stream1 [] = Some (Ok (5, b, None))
            /\ exists b', direntCount test_stream2 b = Some (Ok (5, b', None)).
Proof.
  eexists. split; [vm_compute; reflexivity|].
  eexists. vm_compute. reflexivity.
Qed.

(** *** Reading the stream *)

Lemma to_nat_len (b : bytes) : Z.to_nat (len b) = length b.
Proof. unfold len. apply Nat2Z.id. Qed.

Lemma len_grow (b : bytes) : len (grow b) = len b + blockSize.
Proof. unfold grow. rewrite len_app. unfold len. by rewrite length_replicate. Qed.

Lemma length_write_at (b bs : bytes) n :
  (n + length bs <= length b)%nat ->
  length (write_at b (Z.of_nat n) bs) = length b.
Proof.
  intros Hfit. unfold write_at, len.
  rewrite !length_app, length_take, length_drop.
  rewrite <- Nat2Z.inj_add, !Nat2Z.id. lia.
Qed.

Lemma take_write_at (b bs : bytes) n :
  (n + length bs <= length b)%nat ->
  take (n + length bs) (write_at b (Z.of_nat n) bs) = take n b ++ bs.
Proof.
  intros Hfit. unfold write_at. rewrite Nat2Z.id, app_assoc.
  apply take_app_length'. rewrite length_app, length_take. lia.
Qed.

(** On a stream without errors the first loop stores the bytes of the
    stream, in order, from [i] on. *)
Lemma read_dirents_ok f (b : bytes) n :
  stream_ok f -> (n <= length b)%nat ->
  exists b',
    read_dirents f b (Z.of_nat n) (Z.of_nat n)
      = (b', Z.of_nat (n + length (stream_data f)), None)
    /\ (n + length (stream_data f) <= length b')%nat
    /\ take (n + length (stream_data f)) b' = take n b ++ stream_data f.
Proof.
  revert b n. induction f as [|r f IH]; intros b n Hok Hn.
  - cbn [read_dirents stream_data length]. rewrite Nat.add_0_r, app_nil_r.
    destruct (len b - Z.of_nat n <? blockSize); eexists; split; try reflexivity.
    + unfold grow. rewrite length_app. split; [lia|]. by apply take_app_le.
    + done.
  - cbn [read_dirents].
    set (b1 := if len b - Z.of_nat n <? blockSize then grow b else b).
    assert (Hb1 : (length b <= length b1)%nat /\ take n b1 = take n b
                  /\ blockSize <= len b1 - Z.of_nat n).
    { unfold b1. destruct (len b - Z.of_nat n <? blockSize) eqn:E.
      - rewrite len_grow. unfold grow at 1 2. rewrite length_app.
        split; [lia|]. split; [by apply take_app_le|]. unfold len. lia.
      - split; [lia|]. split; [done|]. lia. }
    destruct Hb1 as (Hlen1 & Htake1 & Hroom). clearbody b1.
    assert (Hlb : Z.of_nat n <= len b1) by (unfold len; lia).
    destruct r as [bs|e]; [|done].
    destruct bs as [|c bs].
    + cbn [stream_data length]. rewrite Nat.add_0_r, app_nil_r.
      change (len []) with 0.
      replace (len b1 - Z.of_nat n <? 0) with false by (symmetry; lia).
      change (0 <=? 0) with true. cbv iota.
      eexists. split; [reflexivity|]. split; [lia|done].
    + cbn [stream_ok] in Hok. destruct Hok as [Hsize Hok].
      change (stream_data (RdData (c :: bs) :: f))
        with ((c :: bs) ++ stream_data f).
      set (blk := c :: bs) in *.
      replace (len b1 - Z.of_nat n <? len blk) with false by (symmetry; lia).
      replace (len blk <=? 0) with false
        by (symmetry; unfold blk; rewrite len_cons; pose proof (len_nonneg bs); lia).
      cbv iota.
      assert (Hfit : (n + length blk <= length b1)%nat) by (unfold len in *; lia).
      replace (Z.of_nat n + len blk) with (Z.of_nat (n + length blk))
        by (unfold len; lia).
      destruct (IH (write_at b1 (Z.of_nat n) blk) (n + length blk)%nat Hok)
        as (b' & Hrun & Hle & Htake).
      { rewrite length_write_at; lia. }
      exists b'. rewrite length_app, Nat.add_assoc. split; [exact Hrun|].
      split; [exact Hle|].
      rewrite Htake, take_write_at, Htake1 by exact Hfit.
      by rewrite <- app_assoc.
Qed.

(** *** Scanning the records *)

Lemma scan_dirents_S fuel buf count :
  scan_dirents (S fuel) buf count = scan_body buf count (scan_dirents fuel).
Proof. reflexivity. Qed.

Lemma wf_dirent_len (rec : bytes) : wf_dirent rec -> 18 <= len rec.
Proof.
  unfold wf_dirent, direntReclen, readInt.
  change (Dirent_Reclen_offset + Dirent_Reclen_size) with 18.
  destruct (len rec <? 18) eqn:E; [discriminate|]. lia.
Qed.

Lemma at_index_drop_app (rec rest : bytes) n i :
  (n + i < length rec)%nat ->
  at_index (drop n (rec ++ rest)) i = at_index (drop n rec) i.
Proof. intros H. unfold at_index. by rewrite !lookup_drop, lookup_app_l. Qed.

Lemma direntReclen_app (rec rest : bytes) :
  18 <= len rec -> direntReclen (rec ++ rest) = direntReclen rec.
Proof.
  intros Hlen. unfold direntReclen, readInt. rewrite len_app.
  pose proof (len_nonneg rest).
  change (Dirent_Reclen_offset + Dirent_Reclen_size) with 18.
  replace (len rec + len rest <? 18) with false by (symmetry; lia).
  replace (len rec <? 18) with false by (symmetry; lia).
  change (Dirent_Reclen_size =? 1) with false.
  change (Dirent_Reclen_size =? 2) with true. cbv iota.
  rewrite !at_index_drop_app; [done|unfold len in Hlen..];
    change (Z.to_nat Dirent_Reclen_offset) with 16%nat; lia.
Qed.

Lemma direntIno_ok (rec : bytes) :
  8 <= len rec -> direntIno rec = Ok (dirent_ino rec, true).
Proof.
  intros Hlen. unfold dirent_ino, direntIno, readInt.
  change (Dirent_Ino_offset + Dirent_Ino_size) with 8.
  replace (len rec <? 8) with false by (symmetry; lia).
  reflexivity.
Qed.

Lemma direntIno_short (rec : bytes) :
  len rec < 8 -> direntIno rec = Ok (0, false).
Proof.
  intros Hlen. unfold direntIno, readInt.
  change (Dirent_Ino_offset + Dirent_Ino_size) with 8.
  by replace (len rec <? 8) with true by (symmetry; lia).
Qed.

(** A well-formed record at the head of the buffer is consumed whole, and
    counted when its inode number is not zero. *)
Lemma scan_body_record (rec rest : bytes) count continue :
  wf_dirent rec ->
  scan_body (rec ++ rest) count continue
  = continue rest (if dirent_ino rec =? 0 then count else wrap64 (count + 1)).
Proof.
  intros Hwf. pose proof (wf_dirent_len rec Hwf) as Hlen.
  pose proof (len_nonneg rest).
  unfold scan_body. rewrite len_app.
  replace (len rec + len rest <=? 0) with false by (symmetry; lia).
  rewrite direntReclen_app by exact Hlen. rewrite Hwf.
  replace (len rec + len rest <? len rec) with false by (symmetry; lia).
  cbn [negb orb]. rewrite !to_nat_len.
  rewrite take_app_length, drop_app_length.
  rewrite direntIno_ok by lia. cbn [negb].
  by destruct (dirent_ino rec =? 0).
Qed.

Lemma scan_body_stops (buf : bytes) count continue :
  scan_stops buf -> scan_body buf count continue = Some (Ok count).
Proof.
  intros [->|(reclen & ok & Hrl & Hstop)]; [reflexivity|].
  unfold scan_body. destruct (len buf <=? 0); [reflexivity|].
  rewrite Hrl. destruct ok; cbn [negb orb]; [|reflexivity].
  destruct (len buf <? reclen) eqn:Hfit; [reflexivity|].
  destruct Hstop as [?|[?|Hshort]]; [discriminate|lia|].
  rewrite direntIno_short; [reflexivity|].
  unfold len. rewrite length_take. unfold Dirent_Ino_size in Hshort. lia.
Qed.

Lemma count_present_cons rec recs :
  count_present (rec :: recs)
  = (if dirent_ino rec =? 0 then 0 else 1) + count_present recs.
Proof.
  unfold count_present. simpl.
  destruct (dirent_ino rec =? 0); simpl; lia.
Qed.

Lemma count_present_bounds recs :
  0 <= count_present recs <= Z.of_nat (length recs).
Proof.
  induction recs as [|rec recs IH]; [unfold count_present; simpl; lia|].
  rewrite count_present_cons. cbn [length].
  destruct (dirent_ino rec =? 0); lia.
Qed.

Lemma wf_dirents_length recs :
  Forall wf_dirent recs -> (length recs <= length (concat recs))%nat.
Proof.
  induction 1 as [|rec recs Hwf _ IH]; simpl; [lia|].
  apply wf_dirent_len in Hwf. unfold len in Hwf. rewrite length_app. lia.
Qed.

Lemma scan_dirents_records recs tail fuel count :
  Forall wf_dirent recs -> scan_stops tail ->
  (length (concat recs ++ tail) < fuel)%nat ->
  0 <= count -> count + Z.of_nat (length recs) < 2 ^ 63 ->
  scan_dirents fuel (concat recs ++ tail) count
  = Some (Ok (count + count_present recs)).
Proof.
  intros Hwf Htail. revert fuel count.
  induction Hwf as [|rec recs Hrec _ IH]; intros fuel count Hfuel Hc Hmax.
  - destruct fuel as [|fuel]; [lia|]. rewrite scan_dirents_S.
    cbn [concat app]. rewrite scan_body_stops by exact Htail.
    unfold count_present. simpl. by rewrite Z.add_0_r.
  - destruct fuel as [|fuel]; [lia|]. rewrite scan_dirents_S.
    cbn [concat]. rewrite <- app_assoc, scan_body_record by exact Hrec.
    pose proof (wf_dirent_len rec Hrec) as Hlen. unfold len in Hlen.
    assert (Hfuel' : (length (concat recs ++ tail) < fuel)%nat).
    { cbn [concat] in Hfuel. rewrite <- app_assoc, length_app in Hfuel. lia. }
    cbn [length] in Hmax.
    rewrite IH, count_present_cons.
    + destruct (dirent_ino rec =? 0); [f_equal; f_equal; lia|].
      rewrite wrap64_id by (unfold in_int64; lia). f_equal. f_equal. lia.
    + exact Hfuel'.
    + destruct (dirent_ino rec =? 0); [lia|].
      rewrite wrap64_id by (unfold in_int64; lia). lia.
    + destruct (dirent_ino rec =? 0); [lia|].
      rewrite wrap64_id by (unfold in_int64; lia). lia.
Qed.

(** What [direntCount] returns on a stream without errors whose bytes are
    a sequence of well-formed records, followed by nothing or by
    something the scan stops at. *)
Lemma direntCount_spec f (b : bytes) recs tail :
  stream_ok f ->
  stream_data f = concat recs ++ tail ->
  Forall wf_dirent recs ->
  scan_stops tail ->
  len (stream_data f) < 2 ^ 63 ->
  exists b', direntCount f b = Some (Ok (count_present recs - 2, b', None)).
Proof.
  intros Hok Hdata Hwf Htail Hmax.
  destruct (read_dirents_ok f b 0 Hok ltac:(lia)) as (b' & Hrun & Hle & Htake).
  exists b'. unfold direntCount. change 0 with (Z.of_nat 0) at 1 2.
  rewrite Hrun. cbn [Nat.add take app] in *.
  assert (Hslice : slice b' 0 (Z.of_nat (length (stream_data f)))
                   = Ok (stream_data f)).
  { unfold slice.
    replace ((0 <=? 0) && (0 <=? Z.of_nat (length (stream_data f)))
             && (Z.of_nat (length (stream_data f)) <=? len b')) with true
      by (symmetry; rewrite !andb_true_iff; unfold len; lia).
    rewrite Z.sub_0_r, Nat2Z.id. change (Z.to_nat 0) with 0%nat.
    by rewrite drop_0, Htake. }
  rewrite Hslice, Hdata.
  pose proof (wf_dirents_length recs Hwf) as Hn.
  pose proof (count_present_bounds recs) as Hcnt.
  assert (Hlen : (length (concat recs) <= length (stream_data f))%nat)
    by (rewrite Hdata, length_app; lia).
  unfold len in Hmax.
  rewrite scan_dirents_records; [| done | done | lia | lia | lia].
  cbn [Z.add]. rewrite wrap64_id; [reflexivity|].
  unfold in_int64. lia.
Qed.

(** The second loop always ends within the iterations [direntCount]
    allows: an iteration that goes on has consumed a record of at least
    eight bytes. *)
Lemma scan_dirents_total fuel (buf : bytes) count :
  (length buf < fuel)%nat -> is_Some (scan_dirents fuel buf count).
Proof.
  revert buf count. induction fuel as [|fuel IH]; intros buf count Hfuel; [lia|].
  rewrite scan_dirents_S. unfold scan_body.
  destruct (len buf <=? 0); [eauto|].
  destruct (direntReclen buf) as [[reclen ok]| |]; [|eauto..].
  destruct (negb ok || (len buf <? reclen)) eqn:Hstop; [eauto|].
  apply orb_false_iff in Hstop as [_ Hfit]. apply Z.ltb_ge in Hfit.
  destruct (direntIno (take (Z.to_nat reclen) buf)) as [[ino ok']| |] eqn:Hino;
    [|eauto..].
  destruct ok'; cbn [negb]; [|eauto].
  assert (Hrl : 8 <= reclen).
  { destruct (decide (8 <= reclen)) as [|Hshort]; [done|exfalso].
    rewrite direntIno_short in Hino; [discriminate|].
    unfold len. rewrite length_take. lia. }
  assert (Hlt : (length (drop (Z.to_nat reclen) buf) < fuel)%nat).
  { rewrite length_drop. unfold len in Hfit. lia. }
  destruct (ino =? 0); by apply IH.
Qed.

Lemma direntCount_total f (b : bytes) : is_Some (direntCount f b).
Proof.
  unfold direntCount.
  destruct (read_dirents f b 0 0) as [[b' end_] [err|]]; [eauto|].
  destruct (slice b' 0 end_) as [buf| |]; [|eauto..].
  destruct (scan_dirents_total (S (length buf)) buf 0 ltac:(lia)) as [r ->].
  destruct r; eauto.
Qed.

(** [C10] [direntCount] subtracts two whatever it counted: when fewer
    than two records are counted the result is negative, and it is -2
    when none is -- an empty stream, or records that all carry inode
    number 0, or bytes that are not a record. *)
Theorem direntCount_negative f (b : bytes) recs tail :
  stream_ok f ->
  stream_data f = concat recs ++ tail ->
  Forall wf_dirent recs ->
  scan_stops tail ->
  len (stream_data f) < 2 ^ 63 ->
  count_present recs < 2 ->
  exists c b',
    direntCount f b = Some (Ok (c, b', None))
    /\ c = count_present recs - 2
    /\ c < 0
    /\ (Forall (fun rec => dirent_ino rec = 0) recs -> c = -2).
Proof.
  intros Hok Hdata Hwf Htail Hmax Hfew.
  destruct (direntCount_spec f b recs tail) as [b' Hrun]; try done.
  exists (count_present recs - 2), b'.
  split; [exact Hrun|]. split; [reflexivity|]. split; [lia|].
  intros Hall. replace (count_present recs) with 0; [reflexivity|].
  clear -Hall. induction Hall as [|rec recs Hrec _ IH]; [reflexivity|].
  rewrite count_present_cons, Hrec. cbn [Z.eqb]. lia.
Qed.

(** An empty stream: the count is -2. *)
Lemma direntCount_negative_witness :
  exists c b',
    direntCount [] [] = Some (Ok (c, b', None))
    /\ c = count_present [] - 2
    /\ c < 0
    /\ (Forall (fun rec => dirent_ino rec = 0) [] -> c = -2).
Proof.
  apply (direntCount_negative [] [] [] []).
  - exact I.
  - reflexivity.
  - constructor.
  - left. reflexivity.
  - vm_compute. reflexivity.
  - vm_compute. reflexivity.
Defined.

(** The empty stream and a directory whose only entry has inode number 0,
    evaluated. *)
Example direntCount_empty_and_deleted :
  fmap (fun r => match r with Ok (c, _, e) => Some (c, e) | _ => None end)
       (direntCount [] []) = Some (Some (-2, None))
  /\ fmap (fun r => match r with Ok (c, _, e) => Some (c, e) | _ => None end)
       (direntCount [RdData (mk_dirent 0 8 "gone")] []) = Some (Some (-2, None))
  /\ fmap (fun r => match r with Ok (c, _, e) => Some (c, e) | _ => None end)
       (direntCount [RdData (list_ascii_of_string "junk")] []) = Some (Some (-2, None)).
Proof. repeat split; vm_compute; reflexivity. Qed.

(** ** The lister *)

Example list_test :
  lister_list test_lister (Ok (10 * minute)) (ReadOk [fi_not_a_pid; fi_good]) 0
  = Some (Ok [set_user "alice" (set_pid 1860 test_stat_want)]).
Proof. vm_compute. reflexivity. Qed.

(** *** Errors of parseStat *)

Lemma ParseUint_loop_error maxVal s n e :
  ParseUint_loop maxVal s n = Err e -> e = ErrSyntax \/ e = ErrRange.
Proof.
  revert n. induction s as [|c s IH]; intros n; simpl; [discriminate|].
  repeat case_match; try (intros [= <-]; auto). apply IH.
Qed.

Lemma ParseUint_error s bits e :
  ParseUint s bits = Err e -> e = ErrSyntax \/ e = ErrRange.
Proof.
  unfold ParseUint. destruct s; [intros [= <-]; auto|].
  apply ParseUint_loop_error.
Qed.

Lemma ParseInt_error s bits e :
  ParseInt s bits = Err e -> e = ErrSyntax \/ e = ErrRange.
Proof.
  unfold ParseInt. destruct s as [|c s]; [intros [= <-]; auto|].
  destruct (ParseUint _ bits) as [un|e'|] eqn:Hun.
  - repeat case_match; intros [= <-]; auto.
  - apply ParseUint_error in Hun as [->| ->]; intros [= <-]; auto.
  - discriminate.
Qed.

Lemma parseStat_switch_error l col b p e :
  parseStat_switch l col b p = Err e -> e = ErrSyntax \/ e = ErrRange.
Proof.
  unfold parseStat_switch, mbind, outcome_bind, parseIntb, Atoi,
    parseInt32b, parseUint32b, parseUint64b.
  intros H.
  repeat match type of H with
         | (if ?c then _ else _) = _ => destruct c
         end;
    try discriminate;
    match type of H with
    | match ParseInt ?s ?k with _ => _ end = _ =>
        destruct (ParseInt s k) eqn:E; try discriminate;
        injection H as <-; by apply ParseInt_error in E
    | match ParseUint ?s ?k with _ => _ end = _ =>
        destruct (ParseUint s k) eqn:E; try discriminate;
        injection H as <-; by apply ParseUint_error in E
    end.
Qed.

Lemma parseStat_loop_error fuel l col p stat e :
  parseStat_loop fuel l col p stat = Some (Err e) ->
  e = ErrMalformedStat \/ e = ErrSyntax \/ e = ErrRange.
Proof.
  revert col p stat. induction fuel as [|fuel IH]; intros col p stat;
    [discriminate|].
  rewrite parseStat_loop_S. unfold parseStat_body.
  destruct (skip_spaces stat) as [s1| |] eqn:Hskip.
  - destruct (col =? 2).
    + destruct s1 as [|c s1]; [discriminate|].
      destruct (negb _); [intros [= <-]; auto|].
      unfold slice. repeat case_match; try discriminate; apply IH.
    + unfold slice. repeat case_match; try discriminate;
        try (intros [= <-]); try apply IH.
      all: match goal with
           | H : parseStat_switch _ _ _ _ = Err _ |- _ =>
               apply parseStat_switch_error in H; tauto
           end.
  - exfalso. clear -Hskip. induction stat as [|c stat IHs]; simpl in Hskip;
      [discriminate|]. destruct (Ascii.eqb c " "); [auto|discriminate].
  - discriminate.
Qed.

(** The errors of [parseStat]: never the sentinel [errNotAProcess]. *)
Lemma parseStat_error l p file e :
  parseStat l p file = Some (Err e) -> e <> errNotAProcess.
Proof.
  destruct file as [stat|e']; unfold parseStat.
  - intros H. apply parseStat_loop_error in H as [->|[->| ->]]; discriminate.
  - intros [= <-]. discriminate.
Qed.

(** *** The loop of list *)

Lemma list_loop_app l fis1 fis2 ps :
  list_loop l (fis1 ++ fis2) ps
  = match list_loop l fis1 ps with
    | Some (Ok (ps1, l1)) => list_loop l1 fis2 ps1
    | other => other
    end.
Proof.
  revert l ps. induction fis1 as [|fi fis1 IH]; intros l ps; [reflexivity|].
  cbn [app list_loop].
  destruct (loadProcess l fi) as [[[p l']|e|]|]; try reflexivity.
  - apply IH.
  - destruct e; try reflexivity. apply IH.
Qed.

Lemma loadProcess_stat_error l fi pid' e :
  Atoi (list_ascii_of_string (fi_Name fi)) = Ok pid' ->
  parseStat l (set_user (fi_owner fi) (set_pid pid' process_zero)) (fi_stat fi)
    = Some (Err e) ->
  loadProcess l fi = Some (Err e).
Proof. intros Hpid Hstat. unfold loadProcess. by rewrite Hpid, Hstat. Qed.

Lemma list_loop_error l fi fis ps e :
  loadProcess l fi = Some (Err e) -> e <> errNotAProcess ->
  list_loop l (fi :: fis) ps = Some (Err e).
Proof. intros Hload Hne. cbn [list_loop]. rewrite Hload. by destruct e. Qed.

(** [C5], as the code has it.  A status record that cannot be parsed --
    like one that cannot be read -- is not skipped: [loadProcess] returns
    the error, which is not [errNotAProcess], and [list] returns it in
    place of a listing, whatever entries precede or follow.  Only an
    entry whose name is not a number is skipped. *)
Theorem list_aborts_on_stat_error l up fis1 fi fis2 ps1 l1 pid' e fuel :
  list_loop (set_lister_uptime up l) fis1 [] = Some (Ok (ps1, l1)) ->
  Atoi (list_ascii_of_string (fi_Name fi)) = Ok pid' ->
  parseStat l1 (set_user (fi_owner fi) (set_pid pid' process_zero)) (fi_stat fi)
    = Some (Err e) ->
  lister_list l (Ok up) (ReadOk (fis1 ++ fi :: fis2)) fuel = Some (Err e)
  /\ forall fi',
       (forall n, Atoi (list_ascii_of_string (fi_Name fi')) <> Ok n) ->
       lister_list l (Ok up) (ReadOk (fis1 ++ fi' :: fis2)) fuel
       = lister_list l (Ok up) (ReadOk (fis1 ++ fis2)) fuel.
Proof.
  intros Hpre Hpid Hstat. split.
  - unfold lister_list. rewrite list_loop_app, Hpre.
    rewrite (list_loop_error l1 fi fis2 ps1 e); [reflexivity| |].
    + by apply (loadProcess_stat_error l1 fi pid').
    + by apply parseStat_error in Hstat.
  - intros fi' Hname. unfold lister_list. rewrite !list_loop_app, Hpre.
    cbn [list_loop]. unfold loadProcess.
    destruct (Atoi (list_ascii_of_string (fi_Name fi'))) as [n| |] eqn:Hn;
      [by destruct (Hname n)|reflexivity..].
Qed.

Lemma list_aborts_on_stat_error_witness :
  lister_list test_lister (Ok (10 * minute))
    (ReadOk ([fi_good] ++ fi_malformed :: [fi_good])) 0
  = Some (Err ErrMalformedStat)
  /\ forall fi',
       (forall n, Atoi (list_ascii_of_string (fi_Name fi')) <> Ok n) ->
       lister_list test_lister (Ok (10 * minute))
         (ReadOk ([fi_good] ++ fi' :: [fi_good])) 0
       = lister_list test_lister (Ok (10 * minute))
           (ReadOk ([fi_good] ++ [fi_good])) 0.
Proof.
  apply (list_aborts_on_stat_error test_lister (10 * minute) [fi_good]
           fi_malformed [fi_good]
           [set_user "alice" (set_pid 1860 test_stat_want)]
           (set_lister_uptime (10 * minute) test_lister) 4242 ErrMalformedStat 0).
  - vm_compute. reflexivity.
  - vm_compute. reflexivity.
  - vm_compute. reflexivity.
Defined.

(** A malformed record is not skipped: with one among the entries, [list]
    does not return the listing of the others, it returns the error; and
    so it does for a process that has vanished. *)
Lemma list_does_not_skip_malformed :
  parseStat (set_lister_uptime (10 * minute) test_lister)
    (set_user "alice" (set_pid 4242 process_zero)) (fi_stat fi_malformed)
  = Some (Err ErrMalformedStat)
  /\ lister_list test_lister (Ok (10 * minute)) (ReadOk [fi_good]) 0
     = Some (Ok [set_user "alice" (set_pid 1860 test_stat_want)])
  /\ lister_list test_lister (Ok (10 * minute)) (ReadOk [fi_good; fi_malformed]) 0
     = Some (Err ErrMalformedStat)
  /\ lister_list test_lister (Ok (10 * minute)) (ReadOk [fi_good; fi_malformed]) 0
     <> lister_list test_lister (Ok (10 * minute)) (ReadOk [fi_good]) 0
  /\ lister_list test_lister (Ok (10 * minute)) (ReadOk [fi_good; fi_vanished]) 0
     = Some (Err (ErrIO ENOENT)).
Proof. repeat split; vm_compute; (reflexivity || discriminate). Qed.

(** *** Permission denied on the descriptor directory *)

(** [C7] When the file-descriptor directory of a process cannot be opened
    for lack of permission, [parseFDs] returns no error and sets [nfds]
    to -1, every other field of the record staying as the earlier steps
    left it; [loadProcess] returns that record, the loop of [list] appends
    it and goes on with the remaining entries, and the [nfds] cell is
    rendered as [?].  Any other error of the open is returned. *)
Theorem parseFDs_permission_denied
    (formatDuration formatBytesize formatInt : Z -> string)
    l fi e pid' pa p1 :
  has (lister.needCols l) colNFDs = true ->
  fi_fd fi = ReadErr e ->
  is_permission e = true ->
  Atoi (list_ascii_of_string (fi_Name fi)) = Ok pid' ->
  parseStat l (set_user (fi_owner fi) (set_pid pid' process_zero)) (fi_stat fi)
    = Some (Ok pa) ->
  loadProcess_cmdline l pa fi = Ok p1 ->
  parseFDs l p1 (fi_fd fi) = Some (Ok (set_nfds (-1) p1, l))
  /\ loadProcess l fi = Some (Ok (set_nfds (-1) p1, l))
  /\ (forall fis ps,
        list_loop l (fi :: fis) ps = list_loop l fis (ps ++ [set_nfds (-1) p1]))
  /\ process_cells formatDuration formatBytesize formatInt
       (set_nfds (-1) p1) colNFDs = ["?"%string]
  /\ (forall e' p, is_permission e' = false ->
        parseFDs l p (ReadErr e') = Some (Err (ErrIO e'))).
Proof.
  intros Hcol Hfd Hperm Hpid Hstat Hcmd.
  assert (Hfds : parseFDs l p1 (fi_fd fi) = Some (Ok (set_nfds (-1) p1, l)))
    by (rewrite Hfd; unfold parseFDs; by rewrite Hperm).
  assert (Hload : loadProcess l fi = Some (Ok (set_nfds (-1) p1, l))).
  { unfold loadProcess. rewrite Hpid, Hstat, Hcmd.
    unfold loadProcess_fds. by rewrite Hcol. }
  split; [exact Hfds|]. split; [exact Hload|]. split; [|split].
  - intros fis ps. cbn [list_loop]. by rewrite Hload.
  - reflexivity.
  - intros e' p Hother. unfold parseFDs. by rewrite Hother.
Qed.

Lemma parseFDs_permission_denied_witness :
  parseFDs fds_lister (set_user "root" (set_pid 1860 test_stat_want))
    (fi_fd fi_fd_denied)
  = Some (Ok (set_nfds (-1) (set_user "root" (set_pid 1860 test_stat_want)),
              fds_lister))
  /\ loadProcess fds_lister fi_fd_denied
     = Some (Ok (set_nfds (-1) (set_user "root" (set_pid 1860 test_stat_want)),
                 fds_lister))
  /\ (forall fis ps,
        list_loop fds_lister (fi_fd_denied :: fis) ps
        = list_loop fds_lister fis
            (ps ++ [set_nfds (-1) (set_user "root" (set_pid 1860 test_stat_want))]))
  /\ process_cells (fun _ => ""%string) (fun _ => ""%string) (fun _ => ""%string)
       (set_nfds (-1) (set_user "root" (set_pid 1860 test_stat_want))) colNFDs
     = ["?"%string]
  /\ (forall e' p, is_permission e' = false ->
        parseFDs fds_lister p (ReadErr e') = Some (Err (ErrIO e'))).
Proof.
  apply (parseFDs_permission_denied _ _ _ fds_lister fi_fd_denied EACCES 1860
           (set_user "root" (set_pid 1860 test_stat_want))).
  - vm_compute. reflexivity.
  - reflexivity.
  - reflexivity.
  - vm_compute. reflexivity.
  - vm_compute. reflexivity.
  - vm_compute. reflexivity.
Defined.

(** A run in which the descriptor directory of one process is closed to
    the caller: both processes are listed, the first with [nfds = -1]. *)
Example list_permission_denied :
  lister_list fds_lister (Ok (10 * minute))
    (ReadOk [fi_fd_denied;
             mkFileInfo "1861" "alice" (ReadOk test_stat) (ReadOk [])
               (ReadOk test_stream1)]) 0
  = Some (Ok [set_nfds (-1) (set_user "root" (set_pid 1860 test_stat_want));
              set_nfds 5 (set_user "alice" (set_pid 1861 test_stat_want))]).
Proof. vm_compute. reflexivity. Qed.

(** ** TableRenderer *)

(** The three renderings of [TestTableWriter]: widths 100, 16 and 10. *)
Example write_test :
  (tw ← test_table 100; write tw) = Ok (list_ascii_of_string test_output_full)
  /\ (tw ← test_table 16; write tw) = Ok (list_ascii_of_string test_output_trimmed)
  /\ (tw ← test_table 10; write tw) = Ok (list_ascii_of_string test_output_full).
Proof. repeat split; vm_compute; reflexivity. Qed.

Lemma render_cells_ok tw row j n b :
  (j + length row <= length (widths tw))%nat ->
  (j + length row <= length (opts tw))%nat ->
  exists b', render_cells tw row j n b = Ok b'.
Proof.
  revert j b. induction row as [|cell row IH]; intros j b Hw Ho; simpl in *.
  - eauto.
  - destruct (lookup_lt_is_Some_2 (widths tw) j ltac:(lia)) as [w ->].
    destruct (lookup_lt_is_Some_2 (opts tw) j ltac:(lia)) as [o ->].
    apply IH; lia.
Qed.

Lemma render_row_line tw row :
  (length row <= length (widths tw))%nat ->
  (length row <= length (opts tw))%nat ->
  render_row tw row = Ok (line tw row).
Proof.
  intros Hw Ho. unfold line.
  destruct (render_cells_ok tw row 0 (length row) [] Hw Ho) as [b' Hb].
  unfold render_row. by rewrite Hb.
Qed.

Lemma trim_line_false tw b : trim_line tw false b = Ok b.
Proof. reflexivity. Qed.

Lemma trim_line_true tw b :
  3 < termWidth tw -> trim_line tw true b = Ok (trimmed tw b).
Proof.
  intros Hw. unfold trim_line, trimmed. cbn [andb].
  destruct (termWidth tw <? len b) eqn:Hlong; [|reflexivity].
  apply Z.ltb_lt in Hlong. unfold slice.
  replace ((0 <=? 0) && (0 <=? termWidth tw - 3) && (termWidth tw - 3 <=? len b))
    with true by (symmetry; rewrite !andb_true_iff; lia).
  cbn [mbind outcome_bind]. rewrite Z.sub_0_r.
  change (Z.to_nat 0) with 0%nat. by rewrite drop_0.
Qed.

(** After the header, every row is written with the [trim] decided at the
    header. *)
Lemma write_rows_spec tw rows i trim out :
  Forall (fun r => render_row tw r = Ok (line tw r)) rows ->
  (trim = true -> 3 < termWidth tw) ->
  write_rows tw rows (S i) trim out
  = Ok (out ++ concat ((fun r =>
            (if trim then trimmed tw (line tw r) else line tw r) ++ ["010"%char])
          <$> rows)).
Proof.
  intros Hrows Htrim. revert i out.
  induction Hrows as [|r rows Hr _ IH]; intros i out.
  - simpl. by rewrite app_nil_r.
  - cbn [write_rows]. rewrite Hr. cbn [mbind outcome_bind Nat.eqb].
    destruct trim.
    + rewrite trim_line_true by auto. cbn [mbind outcome_bind].
      rewrite IH. cbn [fmap list_fmap concat]. by rewrite <- !app_assoc.
    + rewrite trim_line_false. cbn [mbind outcome_bind].
      rewrite IH. cbn [fmap list_fmap concat]. by rewrite <- !app_assoc.
Qed.

(** The trimming [write] does.  It is on exactly when the width is
    greater than 3 and the header line is strictly shorter than the
    width.  The header line is then written whole and every later line
    longer than the width is cut to its first [width - 3] bytes followed
    by [...], which makes it [width] bytes long; when it is off every line
    is written whole. *)
Theorem write_trims_when_header_shorter tw hdr rows :
  cells tw = hdr :: rows ->
  length (widths tw) = length (opts tw) ->
  Forall (fun r => length r = length (opts tw)) (hdr :: rows) ->
  let W := termWidth tw in
  let enabled := (3 <? W) && (len (line tw hdr) <? W) in
  write tw
  = Ok ((line tw hdr ++ ["010"%char])
        ++ concat ((fun r =>
             (if enabled then trimmed tw (line tw r) else line tw r) ++ ["010"%char])
           <$> rows))
  /\ (enabled = true <-> 3 < W /\ len (line tw hdr) < W)
  /\ (forall r, enabled = true -> W < len (line tw r) ->
        trimmed tw (line tw r)
        = take (Z.to_nat (W - 3)) (line tw r) ++ list_ascii_of_string "..."
        /\ len (trimmed tw (line tw r)) = W)
  /\ (forall r, len (line tw r) <= W -> trimmed tw (line tw r) = line tw r).
Proof.
  intros Hcells Hlen Hrows W enabled.
  assert (Hen : enabled = true <-> 3 < W /\ len (line tw hdr) < W).
  { unfold enabled. rewrite andb_true_iff, !Z.ltb_lt. tauto. }
  assert (Hrender : Forall (fun r => render_row tw r = Ok (line tw r)) (hdr :: rows)).
  { eapply Forall_impl; [exact Hrows|]. intros r Hr. cbv beta in Hr.
    apply render_row_line; lia. }
  apply Forall_cons in Hrender as [Hhdr Hrest].
  split; [|split; [exact Hen|split]].
  - unfold write. rewrite Hcells. cbn [write_rows]. rewrite Hhdr.
    cbn [mbind outcome_bind Nat.eqb]. fold W. fold enabled.
    assert (Hline : trim_line tw enabled (line tw hdr) = Ok (line tw hdr)).
    { destruct enabled eqn:E; [|reflexivity].
      destruct Hen as [Hen _]. destruct (Hen eq_refl) as [HW Hh].
      rewrite trim_line_true by exact HW.
      unfold trimmed. fold W.
      by replace (W <? len (line tw hdr)) with false by (symmetry; lia). }
    rewrite Hline. cbn [mbind outcome_bind app].
    rewrite write_rows_spec; [reflexivity|exact Hrest|].
    intros E. apply Hen in E as [HW _]. exact HW.
  - intros r E Hlong. apply Hen in E as [HW _].
    unfold trimmed. fold W.
    replace (W <? len (line tw r)) with true by (symmetry; lia).
    split; [reflexivity|].
    rewrite len_app. unfold len at 1. rewrite length_take_le by (unfold len in *; lia).
    change (len (list_ascii_of_string "...")) with 3. lia.
  - intros r Hshort. unfold trimmed. fold W.
    by replace (W <? len (line tw r)) with false by (symmetry; lia).
Qed.

Lemma write_trims_when_header_shorter_witness :
  write (test_tw 16)
  = Ok ((line (test_tw 16) test_header ++ ["010"%char])
        ++ concat ((fun r =>
             (if (3 <? termWidth (test_tw 16))
                 && (len (line (test_tw 16) test_header) <? termWidth (test_tw 16))
              then trimmed (test_tw 16) (line (test_tw 16) r)
              else line (test_tw 16) r) ++ ["010"%char])
           <$> test_rows))
  /\ ((3 <? termWidth (test_tw 16))
      && (len (line (test_tw 16) test_header) <? termWidth (test_tw 16)) = true
      <-> 3 < termWidth (test_tw 16)
          /\ len (line (test_tw 16) test_header) < termWidth (test_tw 16))
  /\ (forall r,
        (3 <? termWidth (test_tw 16))
        && (len (line (test_tw 16) test_header) <? termWidth (test_tw 16)) = true ->
        termWidth (test_tw 16) < len (line (test_tw 16) r) ->
        trimmed (test_tw 16) (line (test_tw 16) r)
        = take (Z.to_nat (termWidth (test_tw 16) - 3)) (line (test_tw 16) r)
          ++ list_ascii_of_string "..."
        /\ len (trimmed (test_tw 16) (line (test_tw 16) r)) = termWidth (test_tw 16))
  /\ (forall r, len (line (test_tw 16) r) <= termWidth (test_tw 16) ->
        trimmed (test_tw 16) (line (test_tw 16) r) = line (test_tw 16) r).
Proof.
  apply (write_trims_when_header_shorter (test_tw 16) test_header test_rows).
  - vm_compute. reflexivity.
  - vm_compute. reflexivity.
  - repeat constructor.
Defined.

(** [C8] The table of [TestTableWriter] on a terminal 15 bytes wide: the
    header line is 15 bytes long, so it fits within the width, and the
    width is greater than 3; yet [write] leaves trimming off -- the test
    is [len(b) < tw.termWidth] -- and writes the last row with its 17
    bytes, where a row longer than the width was to be cut to 12 bytes
    and [...].  The comment of [write] gives up on trimming only when the
    headers cannot be printed, and the test that cuts a line,
    [len(b) > tw.termWidth], lets a line of exactly the width through. *)
Lemma write_header_exactly_fits :
  3 < termWidth (test_tw 15)
  /\ len (line (test_tw 15) test_header) <= termWidth (test_tw 15)
  /\ cells (test_tw 15) = test_header :: test_rows
  /\ termWidth (test_tw 15) < len (line (test_tw 15) ["11"; "1"; "uvwxyz"]%string)
  /\ write (test_tw 15) = Ok (list_ascii_of_string test_output_full)
  /\ write (test_tw 15)
     <> Ok ((line (test_tw 15) test_header ++ ["010"%char])
            ++ concat ((fun r => trimmed (test_tw 15) (line (test_tw 15) r)
                                   ++ ["010"%char]) <$> test_rows)).
Proof. repeat split; vm_compute; (reflexivity || discriminate). Qed.

(** ** TreeAggregator: what the counters end up holding *)

Lemma bump_app f ts1 ts2 (h : heap) :
  bump f (ts1 ++ ts2) h = bump f ts2 (bump f ts1 h).
Proof. unfold bump. apply foldl_app. Qed.

Lemma occurrences_app q l1 l2 :
  occurrences q (l1 ++ l2) = (occurrences q l1 + occurrences q l2)%nat.
Proof. unfold occurrences. by rewrite List.filter_app, length_app. Qed.

Lemma occurrences_cons q t l :
  occurrences q (t :: l)
  = ((if Nat.eqb q t then 1 else 0) + occurrences q l)%nat.
Proof. unfold occurrences. simpl. by destruct (Nat.eqb q t). Qed.

Lemma bump_lookup f ts (h : heap) q :
  bump f ts h !! q = Nat.iter (occurrences q ts) f <$> h !! q.
Proof.
  revert h. induction ts as [|t ts IH]; intros h.
  - simpl. by destruct (h !! q).
  - change (bump f (t :: ts) h) with (bump f ts (alter f t h)).
    rewrite IH, occurrences_cons.
    destruct (Nat.eqb q t) eqn:E.
    + apply Nat.eqb_eq in E as <-. rewrite list_lookup_alter_eq.
      destruct (h !! q) as [p|]; [|done].
      cbn [fmap option_fmap option_map]. f_equal. symmetry.
      apply (Nat.iter_succ_r (occurrences q ts) f p).
    + apply Nat.eqb_neq in E. by rewrite list_lookup_alter_ne.
Qed.

Lemma bump_ppids f ts (h : heap) :
  (forall p, ppid (f p) = ppid p) -> ppid <$> bump f ts h = ppid <$> h.
Proof.
  intros Hf. revert h. induction ts as [|t ts IH]; intros h; [done|].
  change (bump f (t :: ts) h) with (bump f ts (alter f t h)).
  by rewrite IH, alter_ppids.
Qed.

(** Pass 1 increments [nchild] once at the parent of each member. *)
Lemma count_children_bump byPID (h : heap) ps :
  count_children byPID h ps
  = bump incr_nchild (omap (parent_of byPID h) ps) h.
Proof.
  unfold count_children.
  assert (Hgen : forall l (h1 : heap),
    ppid <$> h1 = ppid <$> h ->
    foldl (fun h q => match h !! q with
                      | Some p => match byPID !! ppid p with
                                  | Some parent => alter incr_nchild parent h
                                  | None => h
                                  end
                      | None => h
                      end) h1 l
    = bump incr_nchild (omap (parent_of byPID h) l) h1).
  { induction l as [|x l IH]; intros h1 Hh1; [done|].
    cbn [foldl omap list_omap].
    rewrite <- (parent_of_ppids byPID h1 h x Hh1).
    pose proof (eq_refl (parent_of byPID h1 x)) as Hp.
    unfold parent_of at 1 in Hp.
    destruct (h1 !! x) as [p|]; [|rewrite <- Hp; by apply IH].
    destruct (byPID !! ppid p) as [parent|]; rewrite <- Hp; [|by apply IH].
    rewrite IH; [done|]. rewrite <- Hh1. apply alter_ppids, incr_nchild_ppid. }
  by apply Hgen.
Qed.

(** One generation increments [ndesc] once at the parent of each member. *)
Lemma desc_generation_bump byPID (h : heap) rem :
  desc_generation byPID h rem
  = (bump incr_ndesc (omap (parent_of byPID h) rem) h,
     omap (parent_of byPID h) rem).
Proof.
  unfold desc_generation.
  assert (Hgen : forall l (h1 : heap) acc,
    ppid <$> h1 = ppid <$> h ->
    foldl (fun '(h, next) q =>
           match h !! q with
           | Some p => match byPID !! ppid p with
                       | Some parent => (alter incr_ndesc parent h, next ++ [parent])
                       | None => (h, next)
                       end
           | None => (h, next)
           end) (h1, acc) l
    = (bump incr_ndesc (omap (parent_of byPID h) l) h1,
       acc ++ omap (parent_of byPID h) l)).
  { induction l as [|x l IH]; intros h1 acc Hh1.
    - simpl. by rewrite app_nil_r.
    - cbn [foldl omap list_omap].
      rewrite <- (parent_of_ppids byPID h1 h x Hh1).
      pose proof (eq_refl (parent_of byPID h1 x)) as Hp.
      unfold parent_of at 1 in Hp.
      destruct (h1 !! x) as [p|]; [|rewrite <- Hp; by apply IH].
      destruct (byPID !! ppid p) as [parent|]; rewrite <- Hp; [|by apply IH].
      rewrite IH.
      + by rewrite <- app_assoc.
      + rewrite <- Hh1. apply alter_ppids, incr_ndesc_ppid. }
  by rewrite (Hgen rem h [] eq_refl).
Qed.

(** Pass 2 increments [ndesc] once at the [k]-th ancestor of each member
    of [rem], for every distance [k] from 1 on. *)
Lemma desc_loop_bump fuel byPID (h h' : heap) rem :
  desc_loop fuel byPID h rem = Some h' ->
  h' = bump incr_ndesc
         (concat ((fun k => omap (ancestor (parent_of byPID h) (S k)) rem)
                  <$> seq 0 fuel)) h.
Proof.
  revert h rem. induction fuel as [|fuel IH]; intros h rem.
  - destruct rem; simpl; [|discriminate]. by intros [= <-].
  - destruct rem as [|x rem].
    + intros [= <-]. symmetry.
      assert (Hnil : forall l : list nat,
                concat ((fun k => omap (ancestor (parent_of byPID h) (S k)) [])
                        <$> l) = []).
      { induction l as [|k l IHl]; [done|]. cbn [fmap list_fmap concat].
        by rewrite IHl. }
      by rewrite Hnil.
    + cbn [desc_loop]. rewrite desc_generation_bump. intros Hloop.
      apply IH in Hloop. rewrite Hloop.
      cbn [seq]. rewrite <- fmap_S_seq. cbn [fmap list_fmap concat].
      rewrite bump_app. f_equal.
      rewrite <- list_fmap_compose. f_equal.
        apply list_fmap_ext. intros _ k _. cbn [compose].
        rewrite <- (omap_ancestor_shift (parent_of byPID h) (x :: rem) (S k)).
        apply list_omap_ext, Forall2_same_length_lookup_2; [reflexivity|].
        intros i a b Ha Hb. assert (a = b) as -> by congruence.
        apply ancestor_ext. intros z.
        apply parent_of_ppids, bump_ppids, incr_ndesc_ppid.
Qed.

Lemma occurrences_concat q (ls : list (list nat)) :
  occurrences q (concat ls) = sum_list (occurrences q <$> ls).
Proof.
  induction ls as [|l ls IH]; [done|].
  cbn [concat fmap list_fmap sum_list]. change (foldr Nat.add 0%nat) with sum_list.
  by rewrite occurrences_app, IH.
Qed.

Lemma nchild_incr_nchild p : nchild (incr_nchild p) = wrap64 (nchild p + 1).
Proof. reflexivity. Qed.

Lemma ndesc_incr_nchild p : ndesc (incr_nchild p) = ndesc p.
Proof. reflexivity. Qed.

Lemma ndesc_incr_ndesc p : ndesc (incr_ndesc p) = wrap64 (ndesc p + 1).
Proof. reflexivity. Qed.

Lemma nchild_incr_ndesc p : nchild (incr_ndesc p) = nchild p.
Proof. reflexivity. Qed.

Lemma iter_incr_nchild n p :
  in_int64 (nchild p) -> nchild p + Z.of_nat n < 2 ^ 63 ->
  nchild (Nat.iter n incr_nchild p) = nchild p + Z.of_nat n
  /\ ndesc (Nat.iter n incr_nchild p) = ndesc p
  /\ same_but_counts p (Nat.iter n incr_nchild p).
Proof.
  intros Hlo. induction n as [|n IH]; intros Hhi.
  - simpl. split; [lia|]. split; [done|]. apply same_but_counts_refl.
  - destruct IH as (Hc & Hd & Hs); [lia|]. rewrite Nat.iter_succ.
    split; [|split].
    + rewrite nchild_incr_nchild, Hc, wrap64_id; [lia|]. unfold in_int64 in *. lia.
    + rewrite ndesc_incr_nchild. exact Hd.
    + by apply same_but_counts_incr_nchild.
Qed.

Lemma iter_incr_ndesc n p :
  in_int64 (ndesc p) -> ndesc p + Z.of_nat n < 2 ^ 63 ->
  ndesc (Nat.iter n incr_ndesc p) = ndesc p + Z.of_nat n
  /\ nchild (Nat.iter n incr_ndesc p) = nchild p
  /\ same_but_counts p (Nat.iter n incr_ndesc p).
Proof.
  intros Hlo. induction n as [|n IH]; intros Hhi.
  - simpl. split; [lia|]. split; [done|]. apply same_but_counts_refl.
  - destruct IH as (Hd & Hc & Hs); [lia|]. rewrite Nat.iter_succ.
    split; [|split].
    + rewrite ndesc_incr_ndesc, Hd, wrap64_id; [lia|]. unfold in_int64 in *. lia.
    + rewrite nchild_incr_ndesc. exact Hc.
    + by apply same_but_counts_incr_ndesc.
Qed.

Lemma same_but_counts_trans p1 p2 p3 :
  same_but_counts p1 p2 -> same_but_counts p2 p3 -> same_but_counts p1 p3.
Proof.
  unfold same_but_counts. intros H12 H23. rewrite H23, H12.
  by destruct p1.
Qed.

(** A returning call of [fillChildDesc] adds to [nchild] of every record
    the number of members of [ps] whose parent it is, and to [ndesc] the
    number of pairs of a member and a distance at which the record is
    that member's ancestor -- one increment for each of its descendants
    at each depth -- and changes nothing else. *)
Theorem fillChildDesc_counts fuel (h h' : heap) ps q p :
  fillChildDesc fuel h ps = Some h' ->
  h !! q = Some p ->
  in_int64 (nchild p) -> in_int64 (ndesc p) ->
  nchild p + Z.of_nat (children_count (parent_of (build_byPID h ps) h) ps q) < 2 ^ 63 ->
  ndesc p + Z.of_nat (descendant_count (parent_of (build_byPID h ps) h) ps q fuel) < 2 ^ 63 ->
  exists p',
    h' !! q = Some p'
    /\ nchild p' = nchild p
          + Z.of_nat (children_count (parent_of (build_byPID h ps) h) ps q)
    /\ ndesc p' = ndesc p
          + Z.of_nat (descendant_count (parent_of (build_byPID h ps) h) ps q fuel)
    /\ same_but_counts p p'.
Proof.
  intros Hrun Hq Hc Hd Hcmax Hdmax. unfold fillChildDesc in Hrun.
  set (byPID := build_byPID h ps) in *. set (par := parent_of byPID h) in *.
  apply desc_loop_bump in Hrun. rewrite count_children_bump in Hrun. fold par in Hrun.
  assert (Hpar : forall k (l : list nat),
    omap (ancestor (parent_of byPID (bump incr_nchild (omap par ps) h)) (S k)) l
    = omap (ancestor par (S k)) l).
  { intros k l. apply list_omap_ext, Forall2_same_length_lookup_2; [done|].
    intros i a b Ha Hb. assert (a = b) as -> by congruence.
    apply ancestor_ext. intros z.
    apply parent_of_ppids, bump_ppids, incr_nchild_ppid. }
  rewrite (list_fmap_ext _ (fun k => omap (ancestor par (S k)) ps)) in Hrun
    by (intros; apply Hpar).
  subst h'. rewrite !bump_lookup, Hq. cbn [fmap option_fmap option_map].
  rewrite occurrences_concat, <- list_fmap_compose.
  change (occurrences q (omap par ps)) with (children_count par ps q).
  change (sum_list (_ <$> seq 0 fuel)) with (descendant_count par ps q fuel).
  set (nc := children_count par ps q) in *.
  set (nd := descendant_count par ps q fuel) in *.
  destruct (iter_incr_nchild nc p Hc Hcmax) as (Hc1 & Hd1 & Hs1).
  destruct (iter_incr_ndesc nd (Nat.iter nc incr_nchild p)) as (Hd2 & Hc2 & Hs2).
  { by rewrite Hd1. }
  { by rewrite Hd1. }
  eexists. split; [reflexivity|].
  rewrite Hc2, Hc1, Hd2, Hd1. repeat split.
  by apply (same_but_counts_trans _ _ _ Hs1).
Qed.

Lemma fillChildDesc_counts_witness :
  exists p',
    test_want !! 2%nat = Some p'
    /\ nchild p' = nchild (mk_pp 5 1)
          + Z.of_nat (children_count
                        (parent_of (build_byPID test_heap test_ps) test_heap)
                        test_ps 2)
    /\ ndesc p' = ndesc (mk_pp 5 1)
          + Z.of_nat (descendant_count
                        (parent_of (build_byPID test_heap test_ps) test_heap)
                        test_ps 2 6)
    /\ same_but_counts (mk_pp 5 1) p'.
Proof.
  apply (fillChildDesc_counts 6 test_heap test_want test_ps 2 (mk_pp 5 1)).
  - vm_compute. reflexivity.
  - reflexivity.
  - vm_compute. split; [discriminate|reflexivity].
  - vm_compute. split; [discriminate|reflexivity].
  - vm_compute. reflexivity.
  - vm_compute. reflexivity.
Defined.

(** ** The numeric fields *)

Lemma digit_val_range c : is_digit c = true -> 0 <= digit_val c <= 9.
Proof.
  unfold is_digit, digit_val. intros [H1 H2]%andb_true_iff.
  apply Z.leb_le in H1, H2. lia.
Qed.

Lemma decimal_from_lower n s :
  0 <= n -> forallb is_digit s = true -> n <= decimal_from n s.
Proof.
  revert n. induction s as [|c s IH]; intros n Hn Hs; simpl; [lia|].
  simpl in Hs. apply andb_true_iff in Hs as [Hc Hs].
  pose proof (digit_val_range c Hc).
  specialize (IH (n * 10 + digit_val c) ltac:(lia) Hs). lia.
Qed.

(** The digit loop returns the value of the numeral when it does not
    exceed [maxVal], and otherwise an error. *)
Lemma ParseUint_loop_spec maxVal s n v :
  0 <= n <= maxVal -> maxVal <= maxUint64 ->
  ParseUint_loop maxVal s n = Ok v
  <-> forallb is_digit s = true /\ decimal_from n s = v /\ v <= maxVal.
Proof.
  intros Hn Hmax. revert n Hn.
  induction s as [|c s IH]; intros n Hn; simpl.
  - split; [intros [= <-]; repeat split; lia|intros (_ & <- & _); done].
  - destruct (is_digit c) eqn:Hc; simpl;
      [|split; [discriminate|intros [? _]; discriminate]].
    pose proof (digit_val_range c Hc) as Hd.
    unfold maxUint64 in *.
    change ((2 ^ 64 - 1) / 10 + 1) with 1844674407370955162.
    change (2 ^ 64) with 18446744073709551616 in *.
    destruct (1844674407370955162 <=? n) eqn:Hcut.
    { apply Z.leb_le in Hcut. split; [discriminate|].
      intros (Hs & Hv & Hle).
      pose proof (decimal_from_lower (n * 10 + digit_val c) s ltac:(lia) Hs).
      lia. }
    apply Z.leb_gt in Hcut.
    rewrite (Z.mod_small (n * 10)) by lia.
    destruct (decide (n * 10 + digit_val c < 18446744073709551616)) as [Hfit|Hwrap].
    + rewrite (Z.mod_small (n * 10 + digit_val c)) by lia.
      replace (n * 10 + digit_val c <? n * 10) with false by (symmetry; lia).
      cbn [orb].
      destruct (maxVal <? n * 10 + digit_val c) eqn:Hbig.
      * apply Z.ltb_lt in Hbig. split; [discriminate|].
        intros (Hs & Hv & Hle).
        pose proof (decimal_from_lower (n * 10 + digit_val c) s ltac:(lia) Hs).
        lia.
      * apply Z.ltb_ge in Hbig. apply IH. lia.
    + replace ((n * 10 + digit_val c) mod 18446744073709551616)
        with (n * 10 + digit_val c - 18446744073709551616).
      2:{ apply Z.mod_unique with (q := 1); lia. }
      replace (n * 10 + digit_val c - 18446744073709551616 <? n * 10) with true
        by (symmetry; lia).
      cbn [orb]. split; [discriminate|].
      intros (Hs & Hv & Hle).
      pose proof (decimal_from_lower (n * 10 + digit_val c) s ltac:(lia) Hs).
      lia.
Qed.

(** [parseUint32b] and [parseUint64b] accept exactly the non-empty
    strings of decimal digits whose value fits the width -- no sign, no
    space, no empty field -- and return that value. *)
Theorem parseUint_numeral (b : bytes) v :
  (parseUint32b b = Ok v <-> numeral b /\ decimal b = v /\ v < 2 ^ 32)
  /\ (parseUint64b b = Ok v <-> numeral b /\ decimal b = v /\ v < 2 ^ 64).
Proof.
  assert (Hgen : forall bits, 0 < bits <= 64 ->
    ParseUint b bits = Ok v <-> numeral b /\ decimal b = v /\ v < 2 ^ bits).
  { intros bits Hbits. unfold ParseUint, numeral, decimal.
    destruct b as [|c b]; [split; [discriminate|intros [[? _] _]; done]|].
    assert (Hpow : 2 ^ bits <= 2 ^ 64) by (apply Z.pow_le_mono_r; lia).
    assert (Hpos : 0 < 2 ^ bits) by (apply Z.pow_pos_nonneg; lia).
    rewrite ParseUint_loop_spec by (unfold maxUint64; lia).
    split.
    - intros (Hs & Hv & Hle). repeat split; [done|done|done|lia].
    - intros ((_ & Hs) & Hv & Hlt). repeat split; [done|done|lia]. }
  split; apply Hgen; lia.
Qed.

(** [parseIntb] and [parseInt32b] accept an optional sign followed by a
    numeral, within the range of the type, and return its value; the
    most negative value is accepted, and a lone sign is not. *)
Theorem parseInt_numeral (b : bytes) v :
  let spec bits :=
    numeral (split_sign b).2
    /\ (if (split_sign b).1
        then v = - decimal (split_sign b).2
             /\ decimal (split_sign b).2 <= 2 ^ (bits - 1)
        else v = decimal (split_sign b).2 /\ v < 2 ^ (bits - 1)) in
  (parseIntb b = Ok v <-> spec 64) /\ (parseInt32b b = Ok v <-> spec 32).
Proof.
  intros spec.
  assert (Hgen : forall bits, 1 < bits <= 64 -> ParseInt b bits = Ok v <-> spec bits).
  { intros bits Hbits. unfold spec, ParseInt, split_sign.
    destruct b as [|c b]; [split; [discriminate|intros [[? _] _]; done]|].
    assert (Hpow : 2 ^ (bits - 1) < 2 ^ bits) by (apply Z.pow_lt_mono_r; lia).
    assert (Huint : forall ds u, ParseUint ds bits = Ok u
                      <-> numeral ds /\ decimal ds = u /\ u < 2 ^ bits).
    { intros ds u. unfold ParseUint, numeral, decimal.
      destruct ds as [|d ds]; [split; [discriminate|intros [[? _] _]; done]|].
      assert (2 ^ bits <= 2 ^ 64) by (apply Z.pow_le_mono_r; lia).
      assert (0 < 2 ^ bits) by (apply Z.pow_pos_nonneg; lia).
      rewrite ParseUint_loop_spec by (unfold maxUint64; lia).
      split.
      - intros (Hs & Hv & Hle). repeat split; [done|done|done|lia].
      - intros ((_ & Hs) & Hv & Hlt). repeat split; [done|done|lia]. }
    assert (Hnn : forall ds, numeral ds -> 0 <= decimal ds).
    { intros ds [_ Hs]. by apply decimal_from_lower. }
    destruct (Ascii.eqb c "-") eqn:Hminus.
    - rewrite orb_true_r. cbn [negb andb fst snd].
      destruct (ParseUint b bits) as [un|e|] eqn:Hun.
      + apply Huint in Hun as (Hnum & Hdec & Hlt).
        destruct (2 ^ (bits - 1) <? un) eqn:Hcut.
        * apply Z.ltb_lt in Hcut. split; [discriminate|]. intros (_ & _ & Hle). lia.
        * apply Z.ltb_ge in Hcut. split.
          -- intros [= <-]. repeat split; try apply Hnum; lia.
          -- intros (_ & -> & _). by rewrite Hdec.
      + assert (Hno : ~ (numeral b /\ decimal b <= 2 ^ (bits - 1))).
        { intros [Hnum Hle].
          assert (ParseUint b bits = Ok (decimal b)) as Hok
            by (apply Huint; repeat split; try apply Hnum; lia).
          congruence. }
        split; [by destruct e|]. intros (Hnum & _ & Hle). by destruct Hno.
      + split; [discriminate|]. intros (Hnum & _ & Hle).
        assert (ParseUint b bits = Ok (decimal b)) as Hok
          by (apply Huint; repeat split; try apply Hnum; lia).
        congruence.
    - rewrite orb_false_r. cbn [negb andb].
      set (digits := if Ascii.eqb c "+" then b else c :: b).
      assert (Hsplit : (if Ascii.eqb c "+" then (false, b) else (false, c :: b))
                       = (false, digits))
        by (unfold digits; by destruct (Ascii.eqb c "+")).
      rewrite Hsplit. cbn [fst snd]. clearbody digits.
      destruct (ParseUint digits bits) as [un|e|] eqn:Hun.
      + apply Huint in Hun as (Hnum & Hdec & Hlt).
        destruct (2 ^ (bits - 1) <=? un) eqn:Hcut.
        * apply Z.leb_le in Hcut. split; [discriminate|]. intros (_ & -> & Hv). lia.
        * apply Z.leb_gt in Hcut. split.
          -- intros [= <-]. repeat split; try apply Hnum; lia.
          -- intros (_ & -> & _). by rewrite Hdec.
      + split; [by destruct e|]. intros (Hnum & -> & Hv).
        assert (ParseUint digits bits = Ok (decimal digits)) as Hok
          by (apply Huint; repeat split; try apply Hnum; lia).
        congruence.
      + split; [discriminate|]. intros (Hnum & -> & Hv).
        assert (ParseUint digits bits = Ok (decimal digits)) as Hok
          by (apply Huint; repeat split; try apply Hnum; lia).
        congruence. }
  split; apply Hgen; lia.
Qed.

(** ** StatParser: the other fields, and what is left alone *)

(** For every record [parseStat] accepts: the parent PID and the process
    group are the integers in fields 4 and 5, the thread count the one in
    field 20, the resident size the page count in field 24 times the page
    size; and the fields [parseStat] is not in charge of -- the PID, the
    user, the command line and the three counters -- are as they were. *)
Theorem parseStat_fields l p stat p' :
  parseStat l p (ReadOk stat) = Some (Ok p') ->
  exists f4 f5 f20 f24 pages,
    stat_field stat 4 = Some f4 /\ parseIntb f4 = Ok (ppid p')
    /\ stat_field stat 5 = Some f5 /\ parseIntb f5 = Ok (pgid p')
    /\ stat_field stat 20 = Some f20 /\ parseInt32b f20 = Ok (nthreads p')
    /\ stat_field stat 24 = Some f24 /\ parseInt32b f24 = Ok pages
    /\ rss p' = wrap64 (pages * lister.pageSize l)
    /\ pid p' = pid p /\ user p' = user p /\ cmdline p' = cmdline p
    /\ nfds p' = nfds p /\ nchild p' = nchild p /\ ndesc p' = ndesc p.
Proof.
  intros H. apply parseStat_apply_cols in H as [nm H].
  unfold stat_field.
  set (toks := split_fields _ _) in *. clearbody toks.
  destruct toks as [|t3 toks]; [discriminate|]. col_step H.
  destruct toks as [|t4 toks]; [discriminate|]. col_step H.
  destruct (parseIntb t4) as [v4| |] eqn:E4; [|discriminate..]. cbv iota beta in H.
  destruct toks as [|t5 toks]; [discriminate|]. col_step H.
  destruct (parseIntb t5) as [v5| |] eqn:E5; [|discriminate..]. cbv iota beta in H.
  destruct toks as [|t6 toks]; [discriminate|]. col_step H.
  destruct toks as [|t7 toks]; [discriminate|]. col_step H.
  destruct toks as [|t8 toks]; [discriminate|]. col_step H.
  destruct toks as [|t9 toks]; [discriminate|]. col_step H.
  destruct toks as [|t10 toks]; [discriminate|]. col_step H.
  destruct toks as [|t11 toks]; [discriminate|]. col_step H.
  destruct toks as [|t12 toks]; [discriminate|]. col_step H.
  destruct toks as [|t13 toks]; [discriminate|]. col_step H.
  destruct toks as [|t14 toks]; [discriminate|]. col_step H.
  destruct (parseUint32b t14) as [v14| |] eqn:E14; [|discriminate..]. cbv iota beta in H.
  destruct toks as [|t15 toks]; [discriminate|]. col_step H.
  destruct (parseUint32b t15) as [v15| |] eqn:E15; [|discriminate..]. cbv iota beta in H.
  destruct toks as [|t16 toks]; [discriminate|]. col_step H.
  destruct (parseUint32b t16) as [v16| |] eqn:E16; [|discriminate..]. cbv iota beta in H.
  destruct toks as [|t17 toks]; [discriminate|]. col_step H.
  destruct (parseUint32b t17) as [v17| |] eqn:E17; [|discriminate..]. cbv iota beta in H.
  destruct toks as [|t18 toks]; [discriminate|]. col_step H.
  destruct toks as [|t19 toks]; [discriminate|]. col_step H.
  destruct toks as [|t20 toks]; [discriminate|]. col_step H.
  destruct (parseInt32b t20) as [v20| |] eqn:E20; [|discriminate..]. cbv iota beta in H.
  destruct toks as [|t21 toks]; [discriminate|]. col_step H.
  destruct toks as [|t22 toks]; [discriminate|]. col_step H.
  destruct (parseUint64b t22) as [v22| |] eqn:E22; [|discriminate..]. cbv iota beta in H.
  destruct toks as [|t23 toks]; [discriminate|]. col_step H.
  destruct toks as [|t24 toks]; [discriminate|]. col_step H.
  destruct (parseInt32b t24) as [v24| |] eqn:E24; [|discriminate..]. cbv iota beta in H.
  injection H as <-.
  exists t4, t5, t20, t24, v24.
  cbn [lookup list_lookup Nat.sub].
  rewrite E4, E5, E20, E24.
  repeat split; reflexivity.
Qed.

Lemma parseStat_fields_witness :
  exists f4 f5 f20 f24 pages,
    stat_field test_stat 4 = Some f4 /\ parseIntb f4 = Ok (ppid test_stat_want)
    /\ stat_field test_stat 5 = Some f5 /\ parseIntb f5 = Ok (pgid test_stat_want)
    /\ stat_field test_stat 20 = Some f20
    /\ parseInt32b f20 = Ok (nthreads test_stat_want)
    /\ stat_field test_stat 24 = Some f24 /\ parseInt32b f24 = Ok pages
    /\ rss test_stat_want = wrap64 (pages * lister.pageSize test_lister)
    /\ pid test_stat_want = pid process_zero
    /\ user test_stat_want = user process_zero
    /\ cmdline test_stat_want = cmdline process_zero
    /\ nfds test_stat_want = nfds process_zero
    /\ nchild test_stat_want = nchild process_zero
    /\ ndesc test_stat_want = ndesc process_zero.
Proof.
  apply (parseStat_fields test_lister process_zero test_stat test_stat_want).
  vm_compute. reflexivity.
Defined.

(** The errors of [parseStat]: the error of the read when the record
    could not be read, and for a record that was read only
    [malformed /stat] and the syntax and range errors of the number
    parsers -- never an I/O error. *)
Theorem parseStat_error_kinds l p file e :
  parseStat l p file = Some (Err e) ->
  (exists en, file = ReadErr en /\ e = ErrIO en)
  \/ (exists stat, file = ReadOk stat
                   /\ (e = ErrMalformedStat \/ e = ErrSyntax \/ e = ErrRange)).
Proof.
  destruct file as [stat|en]; unfold parseStat.
  - intros H. right. exists stat. split; [reflexivity|].
    by apply parseStat_loop_error in H.
  - intros [= <-]. left. by exists en.
Qed.

Lemma parseStat_error_kinds_witness :
  (exists en, fi_stat fi_malformed = ReadErr en /\ ErrMalformedStat = ErrIO en)
  \/ (exists stat, fi_stat fi_malformed = ReadOk stat
                   /\ (ErrMalformedStat = ErrMalformedStat
                       \/ ErrMalformedStat = ErrSyntax
                       \/ ErrMalformedStat = ErrRange)).
Proof.
  apply (parseStat_error_kinds test_lister process_zero (fi_stat fi_malformed)
           ErrMalformedStat).
  vm_compute. reflexivity.
Defined.

(** *** What follows field 24 *)

Lemma skip_spaces_app_r (s s1 extra : bytes) :
  skip_spaces s = Ok s1 -> skip_spaces (s ++ extra) = Ok (s1 ++ extra).
Proof.
  induction s as [|c s IH]; simpl; [discriminate|].
  destruct (Ascii.eqb c " "); [exact IH|]. by intros [= <-].
Qed.

Lemma LastIndexByte_lower (s : bytes) c : -1 <= LastIndexByte s c.
Proof.
  induction s as [|x s IH]; simpl; [lia|].
  destruct (0 <=? LastIndexByte s c) eqn:E; [apply Z.leb_le in E; lia|].
  destruct (Ascii.eqb x c); lia.
Qed.

Lemma LastIndexByte_neg (s : bytes) c : LastIndexByte s c < 0 -> c ∉ s.
Proof.
  induction s as [|x s IH]; simpl; [intros _; apply not_elem_of_nil|].
  destruct (0 <=? LastIndexByte s c) eqn:E.
  - apply Z.leb_le in E. lia.
  - apply Z.leb_gt in E. destruct (Ascii.eqb x c) eqn:Hx; [lia|].
    apply Ascii.eqb_neq in Hx. intros _ Hin.
    apply elem_of_cons in Hin as [->|Hin]; [done|]. by apply IH.
Qed.

Lemma LastIndexByte_found (s : bytes) c :
  0 <= LastIndexByte s c ->
  exists pre r, s = pre ++ c :: r /\ (c ∉ r) /\ LastIndexByte s c = len pre.
Proof.
  induction s as [|x s IH]; simpl; [lia|].
  destruct (0 <=? LastIndexByte s c) eqn:E.
  - apply Z.leb_le in E. intros _.
    destruct (IH E) as (pre & r & -> & Hnot & Hi).
    exists (x :: pre), r. split; [done|]. split; [done|].
    rewrite len_cons. lia.
  - apply Z.leb_gt in E. destruct (Ascii.eqb x c) eqn:Hx; [|lia].
    apply Ascii.eqb_eq in Hx as ->. intros _. exists [], s.
    split; [done|]. split; [by apply LastIndexByte_neg|done].
Qed.

Lemma not_elem_of_app_2 (c : ascii) (a b : bytes) : c ∉ a -> c ∉ b -> c ∉ a ++ b.
Proof. intros Ha Hb Hin. apply elem_of_app in Hin as [?|?]; done. Qed.

(** One iteration on a longer line: it accepts what it accepted, provided
    the next one does. *)
Lemma parseStat_body_app l col p (s extra : bytes) p' continue continue' :
  ")"%char ∉ extra ->
  (forall col1 p1 s1, continue col1 p1 s1 = Some (Ok p') ->
                      continue' col1 p1 (s1 ++ extra) = Some (Ok p')) ->
  parseStat_body l col p s continue = Some (Ok p') ->
  parseStat_body l col p (s ++ extra) continue' = Some (Ok p').
Proof.
  intros Hextra Hcont. unfold parseStat_body.
  destruct (skip_spaces s) as [s1| |] eqn:Hskip; [|discriminate..].
  rewrite (skip_spaces_app_r _ _ extra Hskip).
  destruct (col =? 2).
  - destruct s1 as [|c s1]; [discriminate|]. cbn [app].
    destruct (negb (Ascii.eqb c "(")); [discriminate|].
    destruct (decide (0 <= LastIndexByte (c :: s1) ")")) as [Hi|Hi].
    + destruct (LastIndexByte_found _ _ Hi) as (pre & r & Heq & Hnot & Hlen).
      rewrite app_comm_cons, Heq, <- app_assoc, <- app_comm_cons.
      rewrite !LastIndexByte_app by (done || by apply not_elem_of_app_2).
      destruct pre as [|c0 pre].
      { unfold slice. cbn. discriminate. }
      rewrite <- !app_comm_cons, len_cons.
      rewrite (slice_middle c0 pre (")"%char :: r ++ extra)).
      rewrite (slice_middle c0 pre (")"%char :: r)).
      assert (Hsuf : forall tl : bytes,
                slice (c0 :: pre ++ ")"%char :: tl) (1 + len pre + 1)
                  (len (c0 :: pre ++ ")"%char :: tl)) = Ok tl).
      { intros tl.
        replace (c0 :: pre ++ ")"%char :: tl)
          with ((c0 :: pre ++ [")"%char]) ++ tl)
          by (rewrite <- app_comm_cons, <- app_assoc; reflexivity).
        replace (1 + len pre + 1) with (len (c0 :: pre ++ [")"%char]))
          by (rewrite len_cons, len_app; unfold len; simpl; lia).
        apply slice_suffix. }
      rewrite !Hsuf. apply Hcont.
    + pose proof (LastIndexByte_lower (c :: s1) ")").
      replace (LastIndexByte (c :: s1) ")") with (-1) by lia.
      rewrite slice_neg by lia. discriminate.
  - destruct (decide (0 <= IndexByte s1 " ")) as [Hi|Hi].
    + destruct (IndexByte_found _ _ Hi) as (pre & r & Heq & Hnot & Hlen).
      rewrite Heq, <- app_assoc, <- app_comm_cons.
      rewrite !IndexByte_app by done.
      rewrite !slice_prefix.
      rewrite (slice_suffix pre (" "%char :: r ++ extra)).
      rewrite (slice_suffix pre (" "%char :: r)).
      destruct (parseStat_switch l col pre p) as [[p1 []]| |];
        [done| |discriminate..].
      intros Hc. apply Hcont in Hc. exact Hc.
    + pose proof (IndexByte_lower s1 " ").
      replace (IndexByte s1 " ") with (-1) by lia.
      rewrite slice_neg by lia. discriminate.
Qed.

Lemma parseStat_loop_app fuel l col p (s extra : bytes) p' :
  ")"%char ∉ extra ->
  parseStat_loop fuel l col p s = Some (Ok p') ->
  parseStat_loop fuel l col p (s ++ extra) = Some (Ok p').
Proof.
  intros Hextra. revert col p s.
  induction fuel as [|fuel IH]; intros col p s; [discriminate|].
  rewrite !parseStat_loop_S. apply parseStat_body_app; [done|].
  intros col1 p1 s1. apply IH.
Qed.

(** Parsing stops at field 24: what a record holds after the space that
    ends that field does not matter.  Whatever is appended to an accepted
    record -- as long as it brings no [')'], which would move the end of
    the name -- the result is the same. *)
Theorem parseStat_ignores_rest l p (stat extra : bytes) p' :
  ")"%char ∉ extra ->
  parseStat l p (ReadOk stat) = Some (Ok p') ->
  parseStat l p (ReadOk (stat ++ extra)) = Some (Ok p').
Proof. intros Hextra. unfold parseStat. by apply parseStat_loop_app. Qed.

Lemma parseStat_ignores_rest_witness :
  parseStat test_lister process_zero
    (ReadOk (test_stat ++ list_ascii_of_string " 12 extra fields"))
  = Some (Ok test_stat_want).
Proof.
  apply (parseStat_ignores_rest test_lister process_zero test_stat
           (list_ascii_of_string " 12 extra fields") test_stat_want).
  - intros H. apply list_elem_of_In in H. simpl in H.
    repeat (destruct H as [H|H]; [discriminate|]). exact H.
  - vm_compute. reflexivity.
Defined.

(** ** FDCounter: safety on arbitrary streams *)

Lemma readInt_reclen_Ok (buf : bytes) : exists r ok, direntReclen buf = Ok (r, ok).
Proof.
  unfold direntReclen, readInt.
  destruct (len buf <? _); [by eexists _, _|].
  change (Dirent_Reclen_size =? 1) with false.
  change (Dirent_Reclen_size =? 2) with true. by eexists _, _.
Qed.

Lemma readInt_ino_Ok (buf : bytes) : exists r ok, direntIno buf = Ok (r, ok).
Proof.
  unfold direntIno, readInt.
  destruct (len buf <? _); [by eexists _, _|].
  change (Dirent_Ino_size =? 1) with false.
  change (Dirent_Ino_size =? 2) with false.
  change (Dirent_Ino_size =? 4) with false.
  change (Dirent_Ino_size =? 8) with true. by eexists _, _.
Qed.

(** The scan never fails: whatever the bytes, it ends with a count. *)
Lemma scan_dirents_Ok fuel (buf : bytes) count r :
  scan_dirents fuel buf count = Some r -> exists c, r = Ok c.
Proof.
  revert buf count. induction fuel as [|fuel IH]; intros buf count; [discriminate|].
  rewrite scan_dirents_S. unfold scan_body.
  destruct (len buf <=? 0); [intros [= <-]; eauto|].
  destruct (readInt_reclen_Ok buf) as (reclen & ok & ->).
  destruct (negb ok || _); [intros [= <-]; eauto|].
  destruct (readInt_ino_Ok (take (Z.to_nat reclen) buf)) as (ino & ok' & ->).
  destruct (negb ok'); [intros [= <-]; eauto|].
  destruct (ino =? 0); apply IH.
Qed.

(** The first loop, on any stream: the buffer it returns is the one it
    was given extended by whole blocks, holds at least one block beyond
    [i], and [end] stays within it. *)
Lemma read_dirents_shape f (b : bytes) n :
  (n <= length b)%nat ->
  exists b' m err k,
    read_dirents f b (Z.of_nat n) (Z.of_nat n) = (b', Z.of_nat m, err)
    /\ (m <= length b')%nat
    /\ length b' = (length b + k * Z.to_nat blockSize)%nat
    /\ (n + Z.to_nat blockSize <= length b')%nat.
Proof.
  revert b n. induction f as [|r f IH]; intros b n Hn.
  - cbn [read_dirents].
    destruct (len b - Z.of_nat n <? blockSize) eqn:E.
    + exists (grow b), n, None, 1%nat. unfold grow.
      rewrite length_app, length_replicate. repeat split; lia.
    + apply Z.ltb_ge in E. exists b, n, None, 0%nat.
      unfold len, blockSize in *. repeat split; lia.
  - cbn [read_dirents].
    set (b1 := if len b - Z.of_nat n <? blockSize then grow b else b).
    assert (Hb1 : exists k1, length b1 = (length b + k1 * Z.to_nat blockSize)%nat
                  /\ (n + Z.to_nat blockSize <= length b1)%nat).
    { unfold b1. destruct (len b - Z.of_nat n <? blockSize) eqn:E.
      - exists 1%nat. unfold grow. rewrite length_app, length_replicate. lia.
      - apply Z.ltb_ge in E. exists 0%nat. unfold len, blockSize in *. lia. }
    destruct Hb1 as (k1 & Hlen1 & Hroom). clearbody b1.
    destruct r as [bs|e].
    + destruct (len b1 - Z.of_nat n <? len bs) eqn:Hfit.
      { exists b1, n, (Some (wrapSyscallError "readdirent" EINVAL)), k1.
        repeat split; lia. }
      apply Z.ltb_ge in Hfit.
      destruct (len bs <=? 0) eqn:Hempty.
      { exists b1, n, None, k1. repeat split; lia. }
      assert (Hfit' : (n + length bs <= length b1)%nat) by (unfold len in *; lia).
      replace (Z.of_nat n + len bs) with (Z.of_nat (n + length bs))
        by (unfold len; lia).
      destruct (IH (write_at b1 (Z.of_nat n) bs) (n + length bs)%nat)
        as (b' & m & err & k & Hrun & Hm & Hlen & Hblk).
      { rewrite length_write_at; lia. }
      rewrite length_write_at in Hlen by lia.
      exists b', m, err, (k1 + k)%nat. rewrite Hrun.
      repeat split; lia.
    + exists b1, n, (Some (wrapSyscallError "readdirent" e)), k1.
      repeat split; lia.
Qed.

(** [direntCount] returns for every stream and every scratch buffer: it
    neither panics nor loops, whatever bytes and errors the directory
    reads deliver.  The buffer it hands back is the one it was given
    extended by a whole number of blocks, at least one block long; when a
    read fails the count is 0 and the error that of the read. *)
Theorem direntCount_safe f (b : bytes) :
  exists c b' err k,
    direntCount f b = Some (Ok (c, b', err))
    /\ length b' = (length b + k * Z.to_nat blockSize)%nat
    /\ blockSize <= len b'
    /\ (err <> None -> c = 0).
Proof.
  destruct (read_dirents_shape f b 0 ltac:(lia)) as (b' & m & err & k & Hrun & Hm & Hlen & Hblk).
  unfold direntCount. change (Z.of_nat 0) with 0 in Hrun. rewrite Hrun.
  assert (Hblock : blockSize <= len b') by (unfold len, blockSize in *; lia).
  destruct err as [e|].
  - exists 0, b', (Some e), k. repeat split; done.
  - assert (Hslice : slice b' 0 (Z.of_nat m) = Ok (take m b')).
    { unfold slice.
      replace ((0 <=? 0) && (0 <=? Z.of_nat m) && (Z.of_nat m <=? len b'))
        with true by (symmetry; rewrite !andb_true_iff; unfold len; lia).
      rewrite Z.sub_0_r, Nat2Z.id. change (Z.to_nat 0) with 0%nat.
      by rewrite drop_0. }
    rewrite Hslice.
    destruct (scan_dirents_total (S (length (take m b'))) (take m b') 0 ltac:(lia))
      as [r Hr].
    rewrite Hr. destruct (scan_dirents_Ok _ _ _ _ Hr) as [c ->].
    exists (wrap64 (c - 2)), b', None, k. repeat split; done.
Qed.

(** ** TableRenderer: the invariants of a table *)

Lemma build_table_snoc cols width rows row :
  build_table cols width (rows ++ [row])
  = (tw ← build_table cols width rows; append tw row).
Proof. unfold build_table. by rewrite foldl_snoc. Qed.

Lemma newTableWriter_shape cols width :
  let tw := newTableWriter cols width in
  length (opts tw) = OnesCount cols
  /\ termWidth tw = width
  /\ exists hdr, cells tw = [hdr] /\ length hdr = OnesCount cols
                 /\ widths tw = slen <$> hdr.
Proof.
  cbn zeta. unfold newTableWriter. cbn [opts termWidth cells widths].
  set (n := OnesCount cols). set (sel := List.filter _ colConfs).
  assert (Hlen : forall A (d : A) (l : list A),
             length (take n (l ++ replicate n d)) = n).
  { intros A d l. rewrite length_take, length_app, length_replicate. lia. }
  split; [apply Hlen|]. split; [reflexivity|].
  eexists. split; [reflexivity|]. split; [apply Hlen|].
  rewrite fmap_take, fmap_app, fmap_replicate, <- list_fmap_compose.
  change (slen "") with 0. f_equal. f_equal.
  apply list_fmap_ext. by intros i [[col nm] ra] _.
Qed.

Lemma append_Ok tw row tw' :
  append tw row = Ok tw' ->
  length row = length (opts tw)
  /\ opts tw' = opts tw /\ termWidth tw' = termWidth tw
  /\ cells tw' = cells tw ++ [row]
  /\ length (widths tw') = length (widths tw)
  /\ forall j, widths tw' !! j
       = (fun w => match row !! j with
                   | Some cell => if w <? slen cell then slen cell else w
                   | None => w
                   end) <$> widths tw !! j.
Proof.
  unfold append. destruct (length row =? length (opts tw))%nat eqn:E;
    [|discriminate].
  apply Nat.eqb_eq in E. cbn [negb]. intros [= <-].
  cbn [opts termWidth cells widths]. repeat split; try done.
  - apply length_imap.
  - intros j. apply list_lookup_imap.
Qed.

Lemma append_total tw row :
  length row = length (opts tw) -> exists tw', append tw row = Ok tw'.
Proof.
  intros E. unfold append. apply Nat.eqb_eq in E. rewrite E. cbn [negb]. eauto.
Qed.

Lemma append_Panic tw row :
  length row <> length (opts tw) -> append tw row = Panic.
Proof.
  intros E. unfold append. apply Nat.eqb_neq in E. by rewrite E.
Qed.

(** What holds of every table built by [newTableWriter] and [append]. *)
Lemma build_table_inv cols width rows tw :
  build_table cols width rows = Ok tw ->
  length (opts tw) = OnesCount cols
  /\ length (widths tw) = OnesCount cols
  /\ termWidth tw = width
  /\ (exists hdr, cells tw = hdr :: rows /\ length hdr = OnesCount cols)
  /\ Forall (fun row => length row = OnesCount cols /\ cells_fit tw row) (cells tw)
  /\ widths_attained tw.
Proof.
  revert tw. induction rows as [|row rows IH] using rev_ind; intros tw.
  - intros [= <-].
    destruct (newTableWriter_shape cols width) as (Ho & Hw & hdr & Hc & Hh & Hwd).
    split; [done|]. split; [by rewrite Hwd, length_fmap|]. split; [done|].
    split; [by exists hdr|]. unfold cells_fit, widths_attained.
    rewrite Hc, Hwd. split.
    + constructor; [|constructor]. split; [done|].
      intros j cell Hj. exists (slen cell). split; [|lia].
      by rewrite list_lookup_fmap, Hj.
    + intros j w Hj. rewrite list_lookup_fmap in Hj.
      destruct (hdr !! j) as [cell|] eqn:Hcell; [|discriminate].
      injection Hj as <-. exists hdr, cell.
      split; [apply list_elem_of_singleton; done|done].
  - rewrite build_table_snoc.
    destruct (build_table cols width rows) as [tw0| |]; [|discriminate..].
    cbn [mbind outcome_bind]. intros Happ.
    destruct (IH tw0 eq_refl) as (Ho & Hw & Ht & (hdr & Hc & Hh) & Hfit & Hatt).
    apply append_Ok in Happ as (Hrow & Ho' & Ht' & Hc' & Hw' & Hlook).
    split; [congruence|]. split; [congruence|]. split; [congruence|].
    split; [exists hdr; by rewrite Hc', Hc|].
    split.
    + rewrite Hc'. apply Forall_app. split.
      * eapply Forall_impl; [exact Hfit|]. intros r [Hr Hrfit].
        split; [done|]. intros j cell Hj.
        destruct (Hrfit j cell Hj) as (w & Hwj & Hle).
        rewrite Hlook, Hwj. cbn [fmap option_fmap option_map].
        eexists. split; [reflexivity|].
        destruct (row !! j) as [c'|]; [|done].
        destruct (w <? slen c') eqn:E; [apply Z.ltb_lt in E|]; lia.
      * constructor; [|constructor]. split; [congruence|].
        intros j cell Hj.
        destruct (lookup_lt_is_Some_2 (widths tw0) j) as [w Hwj].
        { apply lookup_lt_Some in Hj. lia. }
        rewrite Hlook, Hwj, Hj. cbn [fmap option_fmap option_map].
        eexists. split; [reflexivity|].
        destruct (w <? slen cell) eqn:E; [|apply Z.ltb_ge in E]; lia.
    + intros j w Hj. rewrite Hlook in Hj.
      destruct (widths tw0 !! j) as [w0|] eqn:Hw0; [|discriminate].
      cbn [fmap option_fmap option_map] in Hj. injection Hj as <-.
      rewrite Hc'.
      destruct (row !! j) as [cell|] eqn:Hcell.
      * destruct (w0 <? slen cell) eqn:E.
        -- exists row, cell. split; [|done].
           apply elem_of_app. right. by apply list_elem_of_singleton.
        -- destruct (Hatt j w0 Hw0) as (r & c & Hr & Hrc & Hlen).
           exists r, c. split; [|done]. apply elem_of_app. by left.
      * destruct (Hatt j w0 Hw0) as (r & c & Hr & Hrc & Hlen).
        exists r, c. split; [|done]. apply elem_of_app. by left.
Qed.

(** The lines [write] produces, for a table whose rows all render. *)
Lemma write_lines tw hdr rows :
  cells tw = hdr :: rows ->
  Forall (fun r => render_row tw r = Ok (line tw r)) (hdr :: rows) ->
  write tw
  = Ok (concat ((fun b => b ++ ["010"%char])
         <$> (line tw hdr
              :: ((fun r => if (3 <? termWidth tw) && (len (line tw hdr) <? termWidth tw)
                            then trimmed tw (line tw r) else line tw r) <$> rows)))).
Proof.
  intros Hcells Hrender. apply Forall_cons in Hrender as [Hhdr Hrest].
  set (W := termWidth tw). set (enabled := (3 <? W) && (len (line tw hdr) <? W)).
  unfold write. rewrite Hcells. cbn [write_rows]. rewrite Hhdr.
  cbn [mbind outcome_bind Nat.eqb]. fold W. fold enabled.
  assert (Hen : enabled = true -> 3 < W /\ len (line tw hdr) < W).
  { unfold enabled. rewrite andb_true_iff, !Z.ltb_lt. tauto. }
  assert (Hline : trim_line tw enabled (line tw hdr) = Ok (line tw hdr)).
  { destruct enabled eqn:E; [|reflexivity].
    destruct (Hen eq_refl) as [HW Hh].
    rewrite trim_line_true by exact HW. unfold trimmed. fold W.
    by replace (W <? len (line tw hdr)) with false by (symmetry; lia). }
  rewrite Hline. cbn [mbind outcome_bind app].
  rewrite write_rows_spec; [|exact Hrest|intros E; by destruct (Hen E)].
  cbn [fmap list_fmap concat]. rewrite <- list_fmap_compose. reflexivity.
Qed.

Lemma build_table_Ok_iff cols width rows :
  (exists tw, build_table cols width rows = Ok tw)
  <-> Forall (fun row => length row = OnesCount cols) rows.
Proof.
  induction rows as [|row rows IH] using rev_ind.
  - split; [constructor|]. intros _. by eexists.
  - rewrite build_table_snoc, Forall_app. split.
    + intros [tw Htw].
      destruct (build_table cols width rows) as [tw0| |] eqn:Hb; [|discriminate..].
      cbn [mbind outcome_bind] in Htw.
      apply append_Ok in Htw as (Hrow & _).
      destruct (build_table_inv _ _ _ _ Hb) as (Ho & _).
      split; [apply IH; eauto|]. constructor; [congruence|constructor].
    + intros [Hrows Hrow]. apply IH in Hrows as [tw0 Hb]. rewrite Hb.
      cbn [mbind outcome_bind].
      destruct (build_table_inv _ _ _ _ Hb) as (Ho & _).
      apply append_total. apply Forall_cons in Hrow as [Hrow _]. congruence.
Qed.

Lemma build_table_write cols width rows tw :
  build_table cols width rows = Ok tw -> exists out, write tw = Ok out.
Proof.
  intros Hb.
  destruct (build_table_inv _ _ _ _ Hb) as (Ho & Hw & Ht & (hdr & Hc & Hh) & Hfit & Hatt).
  eexists. apply (write_lines tw hdr rows Hc). rewrite <- Hc.
  eapply Forall_impl; [exact Hfit|]. intros r [Hr _]. cbv beta.
  apply render_row_line; lia.
Qed.

(** A table built by [newTableWriter] and [append] keeps its promises:
    the build succeeds exactly when every row has as many cells as there
    are columns (and panics otherwise); then the header is the first row,
    every column is exactly as wide as its longest cell, header included,
    and [write] returns without a panic. *)
Theorem build_table_sound cols width rows :
  ((exists tw, build_table cols width rows = Ok tw)
   <-> Forall (fun row => length row = OnesCount cols) rows)
  /\ (forall tw, build_table cols width rows = Ok tw ->
        (exists hdr, cells tw = hdr :: rows)
        /\ Forall (cells_fit tw) (cells tw)
        /\ widths_attained tw
        /\ exists out, write tw = Ok out)
  /\ (build_table cols width rows = Panic
      \/ exists tw, build_table cols width rows = Ok tw).
Proof.
  pose proof (build_table_Ok_iff cols width rows) as Hiff.
  split; [exact Hiff|]. split.
  - intros tw Hb.
    destruct (build_table_inv _ _ _ _ Hb) as (Ho & Hw & Ht & (hdr & Hc & Hh) & Hfit & Hatt).
    split; [by exists hdr|]. split.
    { eapply Forall_impl; [exact Hfit|]. by intros r [_ ?]. }
    split; [exact Hatt|]. by apply (build_table_write cols width rows).
  - clear Hiff. induction rows as [|row rows IH] using rev_ind.
    + right. by eexists.
    + rewrite build_table_snoc.
      destruct IH as [->|[tw0 Hb]]; [by left|]. rewrite Hb.
      cbn [mbind outcome_bind].
      destruct (decide (length row = length (opts tw0))) as [E|E].
      * right. by apply append_total.
      * left. by apply append_Panic.
Qed.

(** *** Lines and the terminal width *)


(** *** The rows of [process.write] *)

Lemma OnesCount_div2 n :
  OnesCount n = (Nat.b2n (N.odd n) + OnesCount (N.div2 n))%nat.
Proof. destruct n as [|[p|p|]]; reflexivity. Qed.

Lemma length_filter_fmap {A B} (f : A -> B) (P : B -> bool) (l : list A) :
  length (List.filter P (f <$> l)) = length (List.filter (fun x => P (f x)) l).
Proof.
  induction l as [|x l IH]; [done|]. cbn [fmap list_fmap List.filter].
  change (list_fmap A B f l) with (f <$> l).
  destruct (P (f x)); cbn [length]; by rewrite IH.
Qed.

Lemma length_filter_ext {A} (P Q : A -> bool) (l : list A) :
  (forall x, P x = Q x) ->
  length (List.filter P l) = length (List.filter Q l).
Proof.
  intros H. induction l as [|x l IH]; [done|]. cbn [List.filter].
  rewrite H. destruct (Q x); cbn [length]; by rewrite IH.
Qed.

(** [OnesCount] counts the bits that are set. *)
Lemma OnesCount_bits k n :
  (n < 2 ^ N.of_nat k)%N ->
  OnesCount n
  = length (List.filter (fun i => N.testbit n (N.of_nat i)) (seq 0 k)).
Proof.
  revert n. induction k as [|k IH]; intros n Hn.
  - assert (n = 0%N) as -> by (change (2 ^ N.of_nat 0)%N with 1%N in Hn; lia).
    reflexivity.
  - assert (Ht : length (List.filter (fun i => N.testbit n (N.of_nat i)) (seq 1 k))
                 = OnesCount (N.div2 n)).
    { rewrite <- fmap_S_seq, length_filter_fmap.
      rewrite (length_filter_ext _ (fun i => N.testbit (N.div2 n) (N.of_nat i))).
      2:{ intros i. rewrite Nat2N.inj_succ, N.div2_div. symmetry. apply N.div2_bits. }
      symmetry. apply IH.
      rewrite Nat2N.inj_succ, N.pow_succ_r' in Hn.
      rewrite N.div2_div. apply N.Div0.div_lt_upper_bound. lia. }
    rewrite OnesCount_div2. cbn [seq List.filter].
    change (N.of_nat 0) with 0%N. rewrite N.bit0_odd.
    destruct (N.odd n); cbn [length Nat.b2n]; rewrite Ht; reflexivity.
Qed.

Lemma has_pow2 n i : has n (2 ^ i) = N.testbit n i.
Proof.
  unfold has. destruct (N.testbit n i) eqn:E.
  - apply negb_true_iff, N.eqb_neq. intros H.
    assert (N.testbit (N.land n (2 ^ i)) i = true)
      by (rewrite N.land_spec, E, N.pow2_bits_true; reflexivity).
    rewrite H in *. by rewrite N.bits_0 in *.
  - apply negb_false_iff, N.eqb_eq, N.bits_inj. intros j.
    rewrite N.land_spec, N.bits_0, N.pow2_bits_eqb.
    destruct (N.eqb_spec i j) as [->|]; [by rewrite E|apply andb_false_r].
Qed.

Lemma length_omap_select {A B C} (P : A -> bool) (F : B -> C) (l : list (A * B)) :
  length (omap (fun '(c, v) => if P c then Some (F v) else None) l)
  = length (List.filter P (fst <$> l)).
Proof.
  induction l as [|[c v] l IH]; [done|].
  cbn [omap list_omap fmap list_fmap List.filter fst].
  change (list_omap _ _ ?f l) with (omap f l).
  change (list_fmap _ _ ?f l) with (f <$> l).
  destruct (P c); cbn [length]; by rewrite IH.
Qed.

(** The columns of [process.write] are the seventeen column bits, in
    order. *)
Lemma process_values_cols p :
  fst <$> process_values p = (fun i => 2 ^ N.of_nat i)%N <$> seq 0 17.
Proof. reflexivity. Qed.

Lemma length_process_cells fD fB fI p cols :
  (cols < numCols)%N ->
  length (process_cells fD fB fI p cols) = OnesCount cols.
Proof.
  intros Hc. unfold process_cells.
  rewrite (length_omap_select (has cols)), process_values_cols.
  rewrite length_filter_fmap, (OnesCount_bits 17) by exact Hc.
  apply length_filter_ext. intros i. apply has_pow2.
Qed.

(** [main] never trips the panic of [append]: for a column set made of
    known columns, [process.write] hands [append] exactly as many cells as
    the table has columns, so building the table of any list of processes
    succeeds and [write] returns its output. *)
Theorem process_rows_fit fD fB fI cols width ps :
  (cols < numCols)%N ->
  Forall (fun p => length (process_cells fD fB fI p cols) = OnesCount cols) ps
  /\ exists tw out,
       build_table cols width ((fun p => process_cells fD fB fI p cols) <$> ps) = Ok tw
       /\ write tw = Ok out.
Proof.
  intros Hc.
  assert (HF : Forall (fun p => length (process_cells fD fB fI p cols) = OnesCount cols) ps).
  { apply Forall_forall. intros p _. by apply length_process_cells. }
  split; [exact HF|].
  destruct (proj2 (build_table_Ok_iff cols width
                     ((fun p => process_cells fD fB fI p cols) <$> ps))) as [tw Htw].
  { by apply Forall_fmap. }
  destruct (build_table_write _ _ _ _ Htw) as [out Hout].
  by exists tw, out.
Qed.

Lemma process_rows_fit_witness :
  let fmt := fun _ : Z => "0"%string in
  let cols := N.lor (N.lor colPID colName) colNDesc in
  Forall (fun p => length (process_cells fmt fmt fmt p cols) = OnesCount cols)
         [process_zero]
  /\ exists tw out,
       build_table cols 80 ((fun p => process_cells fmt fmt fmt p cols) <$> [process_zero])
       = Ok tw
       /\ write tw = Ok out.
Proof.
  intros fmt cols.
  apply (process_rows_fit fmt fmt fmt cols 80 [process_zero]).
  reflexivity.
Defined.

(** *** Column alignment *)

Lemma len_list_ascii_of_string s : len (list_ascii_of_string s) = slen s.
Proof.
  unfold len, slen. f_equal.
  induction s as [|c s IH]; [done|]. cbn. by rewrite IH.
Qed.

Lemma len_spaces a b : a <= b -> len (spaces a b) = b - a.
Proof. intros H. unfold len, spaces. rewrite length_replicate. lia. Qed.

Lemma render_cells_pieces tw row j n b :
  (j + length row <= length (widths tw))%nat ->
  (j + length row <= length (opts tw))%nat ->
  render_cells tw row j n b
  = Ok (b ++ concat (imap (fun i => cell_piece tw n (j + i)) row)).
Proof.
  revert j b. induction row as [|cell row IH]; intros j b Hw Ho.
  - cbn. by rewrite app_nil_r.
  - cbn [length] in Hw, Ho. cbn [render_cells imap concat].
    rewrite Nat.add_0_r. unfold cell_piece at 1.
    destruct (lookup_lt_is_Some_2 (widths tw) j ltac:(lia)) as [w Hwj].
    destruct (lookup_lt_is_Some_2 (opts tw) j ltac:(lia)) as [o Hoj].
    rewrite Hwj, Hoj. cbv zeta.
    rewrite IH by lia.
    rewrite (imap_ext ((fun i => cell_piece tw n (j + i)) ∘ S)
               (fun i => cell_piece tw n (S j + i)) row)
      by (intros i x _; unfold compose; by rewrite Nat.add_succ_r).
    f_equal.
    destruct (0 <? j)%nat, (negb (N.land o rightAlign =? 0)%N);
      by rewrite <- ?app_assoc.
Qed.

Lemma line_pieces tw row :
  (length row <= length (widths tw))%nat ->
  (length row <= length (opts tw))%nat ->
  line tw row = concat (imap (cell_piece tw (length row)) row).
Proof.
  intros Hw Ho. unfold line, render_row.
  by rewrite render_cells_pieces.
Qed.

Lemma sum_take_S (l : list Z) k w :
  l !! k = Some w ->
  foldr Z.add 0 (take (S k) l) = foldr Z.add 0 (take k l) + w.
Proof.
  intros H. rewrite (take_S_r _ _ _ H), foldr_app. cbn [foldr].
  generalize (take k l). intros l'. induction l' as [|x l' IH]; cbn [foldr]; lia.
Qed.

Lemma len_concat_app (l1 l2 : list bytes) :
  len (concat (l1 ++ l2)) = len (concat l1) + len (concat l2).
Proof. by rewrite concat_app, len_app. Qed.

(** The cells before column [k], not the last, fill the line up to the
    separator of column [k]. *)
Lemma len_pieces_prefix tw n row k :
  cells_fit tw row ->
  (k <= length row)%nat -> (k <= length (opts tw))%nat -> (k <= n - 1)%nat ->
  len (concat (imap (cell_piece tw n) (take k row)))
  = col_start tw k - (if (0 <? k)%nat then 2 else 0).
Proof.
  intros Hfit. induction k as [|k IH]; intros Hk Ho Hn.
  - rewrite take_0. reflexivity.
  - destruct (lookup_lt_is_Some_2 row k ltac:(lia)) as [cell Hcell].
    destruct (lookup_lt_is_Some_2 (opts tw) k ltac:(lia)) as [o Hoj].
    destruct (Hfit _ _ Hcell) as (w & Hwj & Hle).
    rewrite (take_S_r _ _ _ Hcell), imap_app, len_concat_app, IH by lia.
    rewrite length_take_le by lia. cbn [imap concat]. rewrite app_nil_r, Nat.add_0_r.
    unfold col_start. rewrite (sum_take_S _ _ _ Hwj).
    unfold cell_piece. rewrite Hwj, Hoj. cbv zeta.
    replace (k <? n - 1)%nat with true by (symmetry; apply Nat.ltb_lt; lia).
    rewrite len_app.
    assert (Hbody : len (if negb (N.land o rightAlign =? 0)%N
                         then spaces (len (list_ascii_of_string cell)) w
                                ++ list_ascii_of_string cell
                         else list_ascii_of_string cell
                                ++ spaces (len (list_ascii_of_string cell)) w) = w).
    { destruct (negb _); rewrite len_app, len_spaces, len_list_ascii_of_string;
        rewrite ?len_list_ascii_of_string; lia. }
    rewrite Hbody. change (0 <? S k)%nat with true. cbv iota.
    assert (Hpad : len (if (0 <? k)%nat then pad else []) = if (0 <? k)%nat then 2 else 0)
      by (by destruct (0 <? k)%nat).
    rewrite Hpad. destruct (0 <? k)%nat; lia.
Qed.

(** The columns of a built table line up: in the line of every row, header
    included, the text of a cell of a left-aligned column begins at the
    start of its column and the text of a cell of a right-aligned column
    ends at the end of its column, the start of a column being the widths
    of the columns before it and two bytes of separator for each. *)
Theorem table_columns_align cols width rows tw row j cell :
  build_table cols width rows = Ok tw ->
  row ∈ cells tw ->
  row !! j = Some cell ->
  exists pre post,
    line tw row = pre ++ list_ascii_of_string cell ++ post
    /\ (if right_aligned tw j
        then len pre + slen cell = col_start tw j + col_width tw j
        else len pre = col_start tw j).
Proof.
  intros Hb Hrow Hcell.
  destruct (build_table_inv _ _ _ _ Hb) as (Ho & Hw & _ & _ & Hfit & _).
  rewrite Forall_forall in Hfit. destruct (Hfit _ Hrow) as [Hlen Hcf].
  pose proof (lookup_lt_Some _ _ _ Hcell) as Hj.
  rewrite line_pieces by lia.
  pose proof (take_drop_middle _ _ _ Hcell) as Hsplit.
  assert (Hl : forall n,
    concat (imap (cell_piece tw n) row)
    = concat (imap (cell_piece tw n) (take j row))
      ++ cell_piece tw n j cell
      ++ concat (imap (cell_piece tw n ∘ Nat.add (length (take j row)) ∘ S)
                      (drop (S j) row))).
  { intros n. rewrite <- Hsplit at 1.
    rewrite imap_app, concat_app. cbn [imap concat].
    unfold compose at 2. by rewrite length_take_le, Nat.add_0_r by lia. }
  rewrite Hl. clear Hl Hsplit.
  pose proof (len_pieces_prefix tw (length row) row j Hcf ltac:(lia) ltac:(lia) ltac:(lia))
    as HP.
  set (P := concat (imap (cell_piece tw (length row)) (take j row))) in *.
  set (Q := concat _).
  destruct (Hcf _ _ Hcell) as (w & Hwj & Hle).
  destruct (lookup_lt_is_Some_2 (opts tw) j ltac:(lia)) as [o Hoj].
  unfold cell_piece, right_aligned, col_width. rewrite Hwj, Hoj. cbv zeta.
  cbn [default from_option]. unfold id.
  assert (Hpad : len (if (0 <? j)%nat then pad else []) = if (0 <? j)%nat then 2 else 0)
    by (by destruct (0 <? j)%nat).
  destruct (negb (N.land o rightAlign =? 0)%N).
  - exists (P ++ (if (0 <? j)%nat then pad else [])
              ++ spaces (len (list_ascii_of_string cell)) w), Q.
    split; [by rewrite <- !app_assoc|].
    rewrite !len_app, Hpad, HP, len_spaces, len_list_ascii_of_string;
      rewrite ?len_list_ascii_of_string; lia.
  - exists (P ++ (if (0 <? j)%nat then pad else [])),
           ((if (j <? length row - 1)%nat
             then spaces (len (list_ascii_of_string cell)) w else []) ++ Q).
    split; [by rewrite <- !app_assoc|].
    rewrite len_app, Hpad, HP. lia.
Qed.

Lemma table_columns_align_witness :
  exists pre post,
    line (test_tw 100) ["11"; "1"; "uvwxyz"]%string
    = pre ++ list_ascii_of_string "1" ++ post
    /\ (if right_aligned (test_tw 100) 1
        then len pre + slen "1" = col_start (test_tw 100) 1 + col_width (test_tw 100) 1
        else len pre = col_start (test_tw 100) 1).
Proof.
  apply (table_columns_align (N.lor (N.lor colPID colName) colPPID) 100 test_rows).
  - vm_compute. reflexivity.
  - vm_compute. do 3 right. left.
  - reflexivity.
Defined.

(** *** Rows and the terminal width *)







(** *** Every cell under its own header *)

Lemma select_zip fD fB fI cols (xs : list (N * string * bool))
    (ys : list (N * cell_value)) :
  Forall2 (fun x y => x.1.1 = y.1) xs ys ->
  let both := omap (fun '((c, nm, _), (_, v)) =>
                      if has cols c then Some (nm, format_cell fD fB fI v) else None)
                   (zip xs ys) in
  (fun '(_, nm, _) => nm) <$> List.filter (fun '(col, _, _) => has cols col) xs
  = both.*1
  /\ omap (fun '(col, v) => if has cols col then Some (format_cell fD fB fI v) else None) ys
     = both.*2.
Proof.
  induction 1 as [|[[c nm] ra] [c' v] xs ys Hk _ IH]; [done|].
  cbn in Hk. subst c'. destruct IH as [IH1 IH2].
  cbn [zip zip_with omap list_omap List.filter].
  change (list_omap _ _ ?f ?l) with (omap f l).
  destruct (has cols c); cbn [fmap list_fmap fst snd]; split; f_equal; assumption.
Qed.

Lemma process_values_columns p :
  Forall2 (fun x y => x.1.1 = y.1) colConfs (process_values p).
Proof. repeat constructor. Qed.

(** [newTableWriter] and [process.write] agree on the columns: for a
    column set made of known columns, the header is the list of the names
    of the selected columns and the row of a process is the list of its
    cells for the same columns in the same order, so every cell stands
    under the header of its own column. *)
Theorem header_labels_cells fD fB fI cols width p :
  (cols < numCols)%N ->
  cells (newTableWriter cols width) = [(labelled_cells fD fB fI p cols).*1]
  /\ process_cells fD fB fI p cols = (labelled_cells fD fB fI p cols).*2.
Proof.
  intros Hc.
  destruct (select_zip fD fB fI cols _ _ (process_values_columns p)) as [Hn Hv].
  cbv zeta in Hn, Hv. fold (labelled_cells fD fB fI p cols) in Hn, Hv.
  fold (process_cells fD fB fI p cols) in Hv.
  split; [|exact Hv].
  unfold newTableWriter. cbn [cells]. rewrite Hn. f_equal.
  apply take_app_length'.
  rewrite <- (length_process_cells fD fB fI p cols Hc), Hv.
  by rewrite !length_fmap.
Qed.

Lemma header_labels_cells_witness :
  let fmt := fun _ : Z => "0"%string in
  let cols := N.lor (N.lor colPID colName) colNDesc in
  cells (newTableWriter cols 80) = [(labelled_cells fmt fmt fmt process_zero cols).*1]
  /\ process_cells fmt fmt fmt process_zero cols
     = (labelled_cells fmt fmt fmt process_zero cols).*2.
Proof.
  intros fmt cols.
  apply (header_labels_cells fmt fmt fmt cols 80 process_zero).
  reflexivity.
Defined.

(** ** The lister: which processes are listed *)

Lemma parseStat_switch_id l col b p p' fin :
  parseStat_switch l col b p = Ok (p', fin) ->
  pid p' = pid p /\ user p' = user p.
Proof.
  unfold parseStat_switch, mbind, outcome_bind. intros H.
  repeat match type of H with
         | (if ?c then _ else _) = _ => destruct c
         end;
    repeat (case_match; try discriminate);
    injection H as <- <-; split; reflexivity.
Qed.

Lemma parseStat_loop_id fuel l col p stat p' :
  parseStat_loop fuel l col p stat = Some (Ok p') ->
  pid p' = pid p /\ user p' = user p.
Proof.
  revert col p stat. induction fuel as [|fuel IH]; intros col p stat;
    [discriminate|].
  rewrite parseStat_loop_S. unfold parseStat_body.
  destruct (skip_spaces stat) as [s1| |]; [|discriminate..].
  destruct (col =? 2).
  - destruct s1 as [|c s1]; [discriminate|].
    destruct (negb _); [discriminate|].
    destruct (slice _ 1 _); [|discriminate..].
    destruct (slice _ _ _); [|discriminate..].
    intros H. apply IH in H. exact H.
  - destruct (slice _ 0 _); [|discriminate..].
    destruct (slice _ _ _); [|discriminate..].
    destruct (parseStat_switch l col _ p) as [[p1 [|]]| |] eqn:Hs;
      try discriminate; apply parseStat_switch_id in Hs as [Hs1 Hs2].
    + intros [= <-]. by split.
    + intros H. apply IH in H as [H1 H2]. split; congruence.
Qed.

Lemma read_dirents_error f (b : bytes) i end_ b' end' err :
  read_dirents f b i end_ = (b', end', Some err) -> err <> errNotAProcess.
Proof.
  revert b i end_. induction f as [|r f IH]; intros b i end_; cbn [read_dirents].
  - discriminate.
  - destruct r as [bs|e]; [|by intros [= <- <- <-]].
    destruct (_ <? len bs); [by intros [= <- <- <-]|].
    destruct (len bs <=? 0); [discriminate|]. apply IH.
Qed.

Lemma direntCount_error f (b : bytes) r :
  direntCount f b = Some r ->
  exists c b' err, r = Ok (c, b', err)
                   /\ match err with Some e => e <> errNotAProcess | None => True end.
Proof.
  destruct (read_dirents_shape f b 0 ltac:(lia))
    as (b' & m & err & k & Hrun & Hm & _).
  unfold direntCount. change (Z.of_nat 0) with 0 in Hrun. rewrite Hrun.
  destruct err as [e|].
  - intros [= <-]. eexists _, _, _. split; [reflexivity|].
    by eapply read_dirents_error.
  - assert (Hslice : slice b' 0 (Z.of_nat m) = Ok (take m b')).
    { unfold slice.
      replace ((0 <=? 0) && (0 <=? Z.of_nat m) && (Z.of_nat m <=? len b'))
        with true by (symmetry; rewrite !andb_true_iff; unfold len; lia).
      rewrite Z.sub_0_r, Nat2Z.id. change (Z.to_nat 0) with 0%nat.
      by rewrite drop_0. }
    rewrite Hslice.
    destruct (scan_dirents _ _ 0) as [r'|] eqn:Hscan; [|discriminate].
    destruct (scan_dirents_Ok _ _ _ _ Hscan) as [c ->].
    intros [= <-]. by eexists _, _, _.
Qed.

(** What [loadProcess] returns for an entry: [errNotAProcess] only for a
    name that is not a number; a record with the PID of the name and the
    owner of the entry, the lister differing at most by its scratch
    buffer. *)
Lemma loadProcess_entry l fi r :
  loadProcess l fi = Some r ->
  match r with
  | Ok (p, l') =>
      is_pid_entry fi = true /\ entry_of fi p
      /\ lister.needCols l' = lister.needCols l
      /\ lister.filter l' = lister.filter l
  | Err e => e = errNotAProcess -> is_pid_entry fi = false
  | Panic => True
  end.
Proof.
  unfold loadProcess, is_pid_entry, entry_of.
  destruct (Atoi _) as [pid'| |] eqn:Hpid;
    [|by intros [= <-]..].
  destruct (parseStat _ _ _) as [[p1|e|]|] eqn:Hstat; [|intros [= <-]..|discriminate].
  2:{ intros ->. by apply parseStat_error in Hstat. }
  2:{ done. }
  assert (Hid1 : pid p1 = pid' /\ user p1 = fi_owner fi).
  { unfold parseStat in Hstat. destruct (fi_stat fi); [|discriminate].
    by apply parseStat_loop_id in Hstat. }
  destruct Hid1 as [Hp1 Hu1].
  unfold loadProcess_cmdline, parseCmdline.
  assert (Hcmd : exists p2, pid p2 = pid' /\ user p2 = fi_owner fi
            /\ forall X (k : process -> X) (ke : error -> X) (kp : X),
                 (match (if has (lister.needCols l) colCmdline
                         then match fi_cmdline fi with
                              | ReadOk cmdline' =>
                                  Ok (set_cmdline
                                        (string_of_list_ascii
                                           (TrimSpace (nullReplace cmdline'))) p1)
                              | ReadErr e => Err (ErrIO e)
                              end
                         else Ok p1) with
                  | Ok p => k p | Err e => ke e | Panic => kp end)
                 = k p2
                 \/ exists en, (match (if has (lister.needCols l) colCmdline
                         then match fi_cmdline fi with
                              | ReadOk cmdline' =>
                                  Ok (set_cmdline
                                        (string_of_list_ascii
                                           (TrimSpace (nullReplace cmdline'))) p1)
                              | ReadErr e => Err (ErrIO e)
                              end
                         else Ok p1) with
                  | Ok p => k p | Err e => ke e | Panic => kp end)
                 = ke (ErrIO en)).
  { destruct (has _ colCmdline); [destruct (fi_cmdline fi) as [c|en]|].
    - eexists. split; [|split]; [| |left; reflexivity]; done.
    - exists p1. split; [done|]. split; [done|]. right. by exists en.
    - exists p1. split; [done|]. split; [done|]. by left. }
  destruct Hcmd as (p2 & Hp2 & Hu2 & Hk).
  destruct (Hk _ (fun p => loadProcess_fds l p fi)
              (fun e => Some (Err e)) (Some Panic)) as [-> | [en ->]].
  2:{ intros [= <-]. discriminate. }
  unfold loadProcess_fds, parseFDs.
  destruct (has _ colNFDs); [|intros [= <-]; cbn; repeat split; congruence].
  destruct (fi_fd fi) as [f|en].
  - destruct (direntCount f (lister.buf l)) as [r'|] eqn:Hdc; [|discriminate].
    destruct (direntCount_error _ _ _ Hdc) as (c & b' & err & -> & Herr).
    destruct err as [e|]; intros [= <-]; [by intros ->|].
    cbn; repeat split; congruence.
  - destruct (is_permission en); intros [= <-]; [|discriminate].
    cbn; repeat split; congruence.
Qed.

Lemma list_loop_entries l fis ps0 ps l' :
  list_loop l fis ps0 = Some (Ok (ps, l')) ->
  exists new, ps = ps0 ++ new
    /\ Forall2 entry_of (List.filter is_pid_entry fis) new
    /\ lister.needCols l' = lister.needCols l
    /\ lister.filter l' = lister.filter l.
Proof.
  revert l ps0. induction fis as [|fi fis IH]; intros l ps0.
  - intros [= <- <-]. exists []. rewrite app_nil_r. repeat split. constructor.
  - cbn [list_loop List.filter].
    destruct (loadProcess l fi) as [r|] eqn:Hload; [|discriminate].
    apply loadProcess_entry in Hload.
    destruct r as [[p l1]|e|]; [| |discriminate].
    + destruct Hload as (-> & Hent & Hn & Hf). intros H.
      apply IH in H as (new & -> & Hnew & Hn' & Hf').
      exists (p :: new). rewrite <- app_assoc. split; [done|].
      split; [by constructor|]. split; congruence.
    + destruct e; try discriminate. rewrite Hload by done. apply IH.
Qed.

Lemma same_but_counts_entry fi p p' :
  same_but_counts p p' -> entry_of fi p -> entry_of fi p'.
Proof. unfold same_but_counts, entry_of. intros -> H. exact H. Qed.

(** What [list] returns when it returns a listing: the entries of [/proc]
    named by a number give one process each, in the order of the entries,
    with the PID of the name and the user the entry belongs to; the
    other entries are skipped; and the listing is what the filter keeps of
    these processes, so it never holds the listing program itself. *)
Theorem list_entries l u fis fuel ps :
  lister_list l (Ok u) (ReadOk fis) fuel = Some (Ok ps) ->
  (exists all,
     Forall2 entry_of (List.filter is_pid_entry fis) all
     /\ ps = List.filter (include (lister.filter l)) all)
  /\ Forall (fun p => pid p <> thisPID (lister.filter l)) ps.
Proof.
  unfold lister_list.
  destruct (list_loop _ fis []) as [[[ps1 l1]|e|]|] eqn:Hloop; try discriminate.
  apply list_loop_entries in Hloop as (new & -> & Hnew & _ & Hf).
  cbn [app] in *. cbn [set_lister_uptime lister.filter] in Hf. rewrite Hf.
  assert (Hall : forall all, Forall2 same_but_counts new all ->
            Forall2 entry_of (List.filter is_pid_entry fis) all).
  { intros all Hsame. clear -Hnew Hsame.
    revert all Hsame. induction Hnew as [|fi p fis' new Hent _ IH]; intros all Hsame.
    - apply Forall2_nil_inv_l in Hsame as ->. constructor.
    - apply Forall2_cons_inv_l in Hsame as (p' & all' & Hp & Hrest & ->).
      constructor; [by eapply same_but_counts_entry|by apply IH]. }
  assert (Hinc : forall all,
            Forall (fun p => pid p <> thisPID (lister.filter l))
                   (List.filter (include (lister.filter l)) all)).
  { intros all. induction all as [|p all IH]; cbn [List.filter]; [constructor|].
    destruct (include _ p) eqn:Hp; [|exact IH]. constructor; [|exact IH].
    unfold include in Hp. destruct (thisPID (lister.filter l) =? pid p) eqn:E;
      [discriminate|]. apply Z.eqb_neq in E. congruence. }
  destruct (has _ (N.lor colNChild colNDesc)).
  - destruct (fillChildDesc fuel new _) as [h'|] eqn:Hfill; [|discriminate].
    intros [= <-]. split; [|apply Hinc].
    exists h'. split; [|reflexivity].
    apply Hall. by eapply fillChildDesc_frame.
  - intros [= <-]. split; [|apply Hinc]. exists new. split; [|reflexivity].
    apply Hall. apply Forall2_same_length_lookup_2; [done|].
    intros i x y Hx Hy. assert (x = y) as -> by congruence.
    apply same_but_counts_refl.
Qed.

Lemma list_entries_witness :
  (exists all,
     Forall2 entry_of (List.filter is_pid_entry [fi_not_a_pid; fi_good]) all
     /\ [set_user "alice" (set_pid 1860 test_stat_want)]
        = List.filter (include (lister.filter test_lister)) all)
  /\ Forall (fun p => pid p <> thisPID (lister.filter test_lister))
            [set_user "alice" (set_pid 1860 test_stat_want)].
Proof.
  apply (list_entries test_lister (10 * minute) [fi_not_a_pid; fi_good] 0).
  vm_compute. reflexivity.
Defined.

(** ** The command line *)










(** ** readInt decodes little-endian integers *)

Lemma u8_range c : 0 <= u8 c < 256.
Proof.
  unfold u8. pose proof (N_ascii_bounded c). lia.
Qed.

Lemma u8_byte x : u8 (ascii_of_N (Z.to_N (x mod 256))) = x mod 256.
Proof.
  unfold u8. pose proof (Z.mod_pos_bound x 256 ltac:(lia)).
  rewrite N_ascii_embedding by lia. lia.
Qed.

Lemma le_bytes_S k v :
  le_bytes (S k) v = ascii_of_N (Z.to_N (v mod 256)) :: le_bytes k (v / 256).
Proof.
  unfold le_bytes. cbn [seq fmap list_fmap].
  change (list_fmap _ _ ?f ?l) with (f <$> l).
  change (256 ^ Z.of_nat 0) with 1. rewrite Z.div_1_r. f_equal.
  rewrite <- fmap_S_seq, <- list_fmap_compose. apply list_fmap_ext.
  intros _ i _. unfold compose. do 3 f_equal.
  rewrite Nat2Z.inj_succ, Z.pow_succ_r by lia.
  by rewrite Z.div_div by lia.
Qed.

Lemma le_value_le_bytes k v :
  0 <= v -> le_value (le_bytes k v) = v mod 256 ^ Z.of_nat k.
Proof.
  revert v. induction k as [|k IH]; intros v Hv.
  - change (256 ^ Z.of_nat 0) with 1. by rewrite Z.mod_1_r.
  - rewrite le_bytes_S. cbn [le_value]. rewrite u8_byte, IH by (apply Z.div_pos; lia).
    rewrite Nat2Z.inj_succ, Z.pow_succ_r by lia.
    rewrite Z.rem_mul_r by lia. reflexivity.
Qed.

Lemma lor_shiftl_add a x n :
  0 <= n -> 0 <= a < 2 ^ n -> 0 <= x -> Z.lor a (Z.shiftl x n) = a + x * 2 ^ n.
Proof.
  intros Hn Ha Hx. rewrite Z.shiftl_mul_pow2 by done.
  assert (Hland : Z.land a (x * 2 ^ n) = 0).
  { apply Z.bits_inj'. intros m Hm. rewrite Z.land_spec, Z.bits_0.
    destruct (Z.lt_ge_cases m n) as [Hlt|Hge].
    - rewrite Z.mul_pow2_bits_low by done. apply andb_false_r.
    - destruct (Z.eq_dec a 0) as [->|Hne]; [by rewrite Z.bits_0|].
      rewrite Z.bits_above_log2; [done|lia|].
      apply Z.lt_le_trans with n; [|done]. apply Z.log2_lt_pow2; lia. }
  rewrite <- Z.lxor_lor by done. symmetry. by apply Z.add_nocarry_lxor.
Qed.

(** [readInt] on [size] bytes at [off] yields the number they denote,
    least significant byte first. *)
Lemma readInt_le_value (pre bs post : bytes) :
  length bs ∈ [1; 2; 4; 8]%nat ->
  readInt (pre ++ bs ++ post) (len pre) (len bs) = Ok (le_value bs, true).
Proof.
  intros Hk. unfold readInt. rewrite !len_app.
  pose proof (len_nonneg post). pose proof (len_nonneg pre).
  replace (len pre + (len bs + len post) <? len pre + len bs) with false
    by (symmetry; lia).
  rewrite to_nat_len, drop_app_length.
  repeat (apply elem_of_cons in Hk as [Hk|Hk]); [..|by apply elem_of_nil in Hk].
  - destruct bs as [|c0 [|]]; try discriminate. cbn. f_equal. f_equal. lia.
  - destruct bs as [|c0 [|c1 [|]]]; try discriminate.
    change (len [c0; c1]) with 2. cbn [Z.eqb Pos.eqb app].
    unfold at_index. cbn [lookup list_lookup le_value].
    pose proof (u8_range c0). pose proof (u8_range c1).
    rewrite lor_shiftl_add by lia. f_equal. f_equal. lia.
  - destruct bs as [|c0 [|c1 [|c2 [|c3 [|]]]]]; try discriminate.
    change (len [c0; c1; c2; c3]) with 4. cbn [Z.eqb Pos.eqb app].
    unfold at_index. cbn [lookup list_lookup le_value].
    pose proof (u8_range c0). pose proof (u8_range c1).
    pose proof (u8_range c2). pose proof (u8_range c3).
    rewrite (lor_shiftl_add (u8 c0)) by lia.
    rewrite (lor_shiftl_add _ (u8 c2)) by lia.
    rewrite (lor_shiftl_add _ (u8 c3)) by lia.
    f_equal. f_equal. lia.
  - destruct bs as [|c0 [|c1 [|c2 [|c3 [|c4 [|c5 [|c6 [|c7 [|]]]]]]]]];
      try discriminate.
    change (len [c0; c1; c2; c3; c4; c5; c6; c7]) with 8.
    cbn [Z.eqb Pos.eqb app].
    unfold at_index. cbn [lookup list_lookup le_value].
    pose proof (u8_range c0). pose proof (u8_range c1).
    pose proof (u8_range c2). pose proof (u8_range c3).
    pose proof (u8_range c4). pose proof (u8_range c5).
    pose proof (u8_range c6). pose proof (u8_range c7).
    rewrite (lor_shiftl_add (u8 c0)) by lia.
    rewrite (lor_shiftl_add _ (u8 c2)) by lia.
    rewrite (lor_shiftl_add _ (u8 c3)) by lia.
    rewrite (lor_shiftl_add _ (u8 c4)) by lia.
    rewrite (lor_shiftl_add _ (u8 c5)) by lia.
    rewrite (lor_shiftl_add _ (u8 c6)) by lia.
    rewrite (lor_shiftl_add _ (u8 c7)) by lia.
    f_equal. f_equal. lia.
Qed.

Lemma length_le_bytes k v : length (le_bytes k v) = k.
Proof. unfold le_bytes. by rewrite length_fmap, length_seq. Qed.

(** [readInt] undoes the little-endian encoding: a number below
    [256^size] written on [size] bytes, least significant byte first, is
    read back from any buffer that holds these bytes at [off], for the
    sizes 1, 2, 4 and 8. *)
Theorem readInt_round_trip (pre post : bytes) (k : nat) (v : Z) :
  k ∈ [1; 2; 4; 8]%nat ->
  0 <= v < 256 ^ Z.of_nat k ->
  readInt (pre ++ le_bytes k v ++ post) (len pre) (Z.of_nat k) = Ok (v, true).
Proof.
  intros Hk Hv.
  pose proof (readInt_le_value pre (le_bytes k v) post) as H.
  unfold len at 2 in H. rewrite length_le_bytes in H.
  rewrite H by done. rewrite le_value_le_bytes by lia.
  by rewrite Z.mod_small.
Qed.

Lemma readInt_round_trip_witness :
  readInt (list_ascii_of_string "0123456789abcdef" ++ le_bytes 2 24 ++ [])
          (len (list_ascii_of_string "0123456789abcdef")) (Z.of_nat 2)
  = Ok (24, true).
Proof.
  apply (readInt_round_trip (list_ascii_of_string "0123456789abcdef") [] 2 24).
  - apply elem_of_cons. right. apply elem_of_cons. by left.
  - vm_compute. split; [discriminate|reflexivity].
Defined.

(** ** FDCounter: the count, against the format of the entries *)

Lemma le_value_nonneg (bs : bytes) : 0 <= le_value bs.
Proof.
  induction bs as [|c bs IH]; cbn [le_value]; [lia|].
  pose proof (u8_range c). lia.
Qed.

Lemma direntReclen_field (rec : bytes) :
  18 <= len rec -> direntReclen rec = Ok (dirent_reclen_field rec, true).
Proof.
  intros Hlen. unfold direntReclen, dirent_reclen_field.
  assert (Hsplit : rec = take 16 rec ++ take 2 (drop 16 rec) ++ drop 2 (drop 16 rec))
    by (by rewrite !take_drop).
  assert (H16 : len (take 16 rec) = Dirent_Reclen_offset)
    by (unfold len in *; rewrite length_take; unfold Dirent_Reclen_offset; lia).
  assert (H2 : length (take 2 (drop 16 rec)) = 2%nat)
    by (unfold len in *; rewrite length_take, length_drop; lia).
  rewrite Hsplit at 1. rewrite <- H16.
  replace Dirent_Reclen_size with (len (take 2 (drop 16 rec)))
    by (unfold len; by rewrite H2).
  apply readInt_le_value. rewrite H2.
  apply elem_of_cons. right. apply elem_of_cons. by left.
Qed.

Lemma direntIno_field (rec : bytes) :
  8 <= len rec -> direntIno rec = Ok (dirent_ino_field rec, true).
Proof.
  intros Hlen. unfold direntIno, dirent_ino_field.
  assert (Hsplit : rec = [] ++ take 8 rec ++ drop 8 rec)
    by (by rewrite app_nil_l, take_drop).
  assert (H8 : length (take 8 rec) = 8%nat)
    by (unfold len in *; rewrite length_take; lia).
  rewrite Hsplit at 1. change Dirent_Ino_offset with (len (@nil ascii)).
  replace Dirent_Ino_size with (len (take 8 rec)) by (unfold len; by rewrite H8).
  apply readInt_le_value. rewrite H8.
  do 3 (apply elem_of_cons; right). apply elem_of_cons. by left.
Qed.

Lemma dirent_wf_wf (rec : bytes) : dirent_wf rec -> wf_dirent rec.
Proof.
  intros [Hlen Hfield]. unfold wf_dirent.
  by rewrite direntReclen_field, Hfield.
Qed.

Lemma dirent_ino_field_eq (rec : bytes) :
  dirent_wf rec -> dirent_ino rec = dirent_ino_field rec.
Proof.
  intros [Hlen _]. unfold dirent_ino. by rewrite direntIno_field by lia.
Qed.

Lemma entries_present_eq recs :
  Forall dirent_wf recs -> count_present recs = entries_present recs.
Proof.
  unfold count_present, entries_present.
  induction 1 as [|rec recs Hrec _ IH]; [done|]. cbn [List.filter].
  rewrite (dirent_ino_field_eq rec Hrec).
  destruct (dirent_ino_field rec =? 0); cbn [negb length]; lia.
Qed.

Lemma no_record_stops (tail : bytes) : no_record tail -> scan_stops tail.
Proof.
  intros [->|Hno]; [by left|]. right.
  destruct (Z.lt_ge_cases (len tail) 18) as [Hshort|Hlong].
  - exists 0, false. split; [|by left].
    unfold direntReclen, readInt.
    change (Dirent_Reclen_offset + Dirent_Reclen_size) with 18.
    by replace (len tail <? 18) with true by (symmetry; lia).
  - exists (dirent_reclen_field tail), true.
    split; [by apply direntReclen_field|].
    pose proof (le_value_nonneg (take 2 (drop 16 tail))).
    unfold dirent_reclen_field, Dirent_Ino_size in *.
    destruct Hno as [?|[?|?]]; [lia|by right; left|right; right; lia].
Qed.

(** *** Reading a stream that keeps to the contract *)

Lemma read_dirents_fits f (b : bytes) n :
  stream_fits f (len b) (Z.of_nat n) -> (n <= length b)%nat ->
  exists b',
    read_dirents f b (Z.of_nat n) (Z.of_nat n)
      = (b', Z.of_nat (n + length (stream_data f)), None)
    /\ (n + length (stream_data f) <= length b')%nat
    /\ take (n + length (stream_data f)) b' = take n b ++ stream_data f.
Proof.
  revert b n. induction f as [|r f IH]; intros b n Hok Hn.
  - cbn [read_dirents stream_data length]. rewrite Nat.add_0_r, app_nil_r.
    destruct (len b - Z.of_nat n <? blockSize); eexists; split; try reflexivity.
    + unfold grow. rewrite length_app. split; [lia|]. by apply take_app_le.
    + done.
  - cbn [read_dirents]. cbn [stream_fits] in Hok.
    set (b1 := if len b - Z.of_nat n <? blockSize then grow b else b).
    assert (Hcap : (if len b - Z.of_nat n <? blockSize then len b + blockSize else len b)
                   = len b1).
    { unfold b1. destruct (len b - Z.of_nat n <? blockSize); [|done].
      by rewrite len_grow. }
    rewrite Hcap in Hok.
    assert (Hb1 : (length b <= length b1)%nat /\ take n b1 = take n b).
    { unfold b1. destruct (len b - Z.of_nat n <? blockSize) eqn:E.
      - unfold grow. rewrite length_app.
        split; [lia|]. by apply take_app_le.
      - by split. }
    destruct Hb1 as (Hlen1 & Htake1). clearbody b1.
    assert (Hlb : Z.of_nat n <= len b1) by (unfold len; lia).
    destruct r as [bs|e]; [|done].
    destruct bs as [|c bs].
    + cbn [stream_data length]. rewrite Nat.add_0_r, app_nil_r.
      change (len []) with 0.
      replace (len b1 - Z.of_nat n <? 0) with false by (symmetry; lia).
      change (0 <=? 0) with true. cbv iota.
      eexists. split; [reflexivity|]. split; [lia|done].
    + destruct Hok as [Hsize Hok].
      change (stream_data (RdData (c :: bs) :: f))
        with ((c :: bs) ++ stream_data f).
      set (blk := c :: bs) in *.
      replace (len b1 - Z.of_nat n <? len blk) with false by (symmetry; lia).
      replace (len blk <=? 0) with false
        by (symmetry; unfold blk; rewrite len_cons; pose proof (len_nonneg bs); lia).
      cbv iota.
      assert (Hfit : (n + length blk <= length b1)%nat) by (unfold len in *; lia).
      replace (Z.of_nat n + len blk) with (Z.of_nat (n + length blk)) in *
        by (unfold len; lia).
      destruct (IH (write_at b1 (Z.of_nat n) blk) (n + length blk)%nat)
        as (b' & Hrun & Hle & Htake).
      { unfold len at 1. rewrite length_write_at by exact Hfit. exact Hok. }
      { rewrite length_write_at; lia. }
      exists b'. rewrite length_app, Nat.add_assoc. split; [exact Hrun|].
      split; [exact Hle|].
      rewrite Htake, take_write_at, Htake1 by exact Hfit.
      by rewrite <- app_assoc.
Qed.

Lemma direntCount_fits_spec f (b : bytes) recs tail :
  stream_fits f (len b) 0 ->
  stream_data f = concat recs ++ tail ->
  Forall dirent_wf recs ->
  no_record tail ->
  len (stream_data f) < 2 ^ 63 ->
  exists b', direntCount f b = Some (Ok (entries_present recs - 2, b', None)).
Proof.
  intros Hok Hdata Hwf Htail Hmax.
  destruct (read_dirents_fits f b 0 Hok ltac:(lia)) as (b' & Hrun & Hle & Htake).
  exists b'. unfold direntCount. change 0 with (Z.of_nat 0) at 1 2.
  rewrite Hrun. cbn [Nat.add take app] in *.
  assert (Hslice : slice b' 0 (Z.of_nat (length (stream_data f)))
                   = Ok (stream_data f)).
  { unfold slice.
    replace ((0 <=? 0) && (0 <=? Z.of_nat (length (stream_data f)))
             && (Z.of_nat (length (stream_data f)) <=? len b')) with true
      by (symmetry; rewrite !andb_true_iff; unfold len; lia).
    rewrite Z.sub_0_r, Nat2Z.id. change (Z.to_nat 0) with 0%nat.
    by rewrite drop_0, Htake. }
  rewrite Hslice, Hdata.
  assert (Hwf' : Forall wf_dirent recs)
    by (eapply Forall_impl; [exact Hwf|apply dirent_wf_wf]).
  pose proof (wf_dirents_length recs Hwf') as Hn.
  pose proof (count_present_bounds recs) as Hcnt.
  assert (Hlen : (length (concat recs) <= length (stream_data f))%nat)
    by (rewrite Hdata, length_app; lia).
  unfold len in Hmax.
  rewrite scan_dirents_records;
    [| done | by apply no_record_stops | lia | lia | lia].
  cbn [Z.add]. rewrite <- entries_present_eq by done.
  rewrite wrap64_id; [reflexivity|].
  unfold in_int64. lia.
Qed.

(** A stream whose blocks all fit in one I/O block keeps to the contract,
    whatever the buffer. *)
Lemma stream_ok_fits f cap i :
  stream_ok f -> i <= cap -> stream_fits f cap i.
Proof.
  revert cap i. induction f as [|r f IH]; intros cap i Hok Hi; [done|].
  cbn [stream_fits stream_ok] in *.
  destruct r as [[|c bs]|e]; [done| |done].
  destruct Hok as [Hsize Hok].
  pose proof (len_nonneg (c :: bs)).
  unfold blockSize in *.
  destruct (cap - i <? 4096) eqn:E; (split; [lia|apply IH; [done|lia]]).
Qed.

(** [C6] For a directory stream read to its end without error -- every
    read returning at most what the buffer it was offered can hold, as
    [ReadDirent] does -- whose bytes are well-formed records (possibly
    followed by bytes that do not start with a record), [direntCount]
    returns the number of records whose inode field is not zero, minus
    two: so [k] when all [k + 2] records, ['.'] and ['..'] included, are
    present.  A second call that reuses the buffer the first one returned,
    on a stream of the same bytes, gives the same count. *)
Theorem direntCount_counts_present f (b : bytes) recs tail :
  stream_fits f (len b) 0 ->
  stream_data f = concat recs ++ tail ->
  Forall dirent_wf recs ->
  no_record tail ->
  len (stream_data f) < 2 ^ 63 ->
  exists b',
    direntCount f b = Some (Ok (entries_present recs - 2, b', None))
    /\ (forall f2,
          stream_fits f2 (len b') 0 ->
          stream_data f2 = stream_data f ->
          exists b'',
            direntCount f2 b' = Some (Ok (entries_present recs - 2, b'', None)))
    /\ (Forall (fun rec => dirent_ino_field rec <> 0) recs ->
        entries_present recs - 2 = Z.of_nat (length recs) - 2).
Proof.
  intros Hok Hdata Hwf Htail Hmax.
  destruct (direntCount_fits_spec f b recs tail) as [b' Hrun]; try done.
  exists b'. split; [exact Hrun|]. split.
  - intros f2 Hok2 Hsame.
    apply (direntCount_fits_spec f2 b' recs tail); (congruence || done).
  - intros Hall. f_equal. clear -Hall. unfold entries_present.
    induction Hall as [|rec recs Hrec _ IH]; [reflexivity|].
    cbn [List.filter]. apply Z.eqb_neq in Hrec. rewrite Hrec.
    cbn [negb length]. lia.
Qed.

Lemma direntCount_counts_present_witness :
  exists b',
    direntCount test_stream1 [] = Some (Ok (5, b', None))
    /\ (exists b'', direntCount test_stream2 b' = Some (Ok (5, b'', None)))
    /\ 5 = Z.of_nat (length test_dir) - 2.
Proof.
  assert (Hcount : entries_present test_dir - 2 = 5) by (vm_compute; reflexivity).
  destruct (direntCount_counts_present test_stream1 [] test_dir [])
    as (b' & Hrun & Hagain & Hall).
  - vm_compute. split; [discriminate|exact I].
  - vm_compute. reflexivity.
  - repeat constructor; vm_compute; (discriminate || reflexivity).
  - left. reflexivity.
  - vm_compute. reflexivity.
  - rewrite Hcount in *. exists b'. split; [exact Hrun|]. split.
    + apply Hagain; [|vm_compute; reflexivity].
      apply stream_ok_fits; [|apply len_nonneg].
      vm_compute. split; [discriminate|]. split; [discriminate|exact I].
    + apply Hall. repeat constructor; vm_compute; discriminate.
Defined.

(** A directory of 341 entries read in two calls, the second of which
    returns 4104 bytes -- more than a block, which the buffer, grown to
    two blocks, can hold: the stream keeps to the contract and the count
    is 339. *)
Example direntCount_large_block :
  stream_fits test_stream_big 0 0
  /\ exists b', direntCount test_stream_big [] = Some (Ok (339, b', None)).
Proof.
  split.
  - vm_compute. repeat split; discriminate.
  - eexists. vm_compute. reflexivity.
Qed.

(** ** TreeAggregator: when the walk ends *)

Lemma desc_loop_Some_generation byPID (h : heap) rem fuel r :
  desc_loop fuel byPID h rem = Some r ->
  exists k, (k <= fuel)%nat /\ generation byPID h rem k = [].
Proof.
  revert h rem. induction fuel as [|fuel IH]; intros h rem.
  - destruct rem; [|discriminate]. intros _. by exists 0%nat.
  - destruct rem as [|q rem]; [intros _; exists 0%nat; split; [lia|done]|].
    cbn [desc_loop].
    destruct (desc_generation byPID h (q :: rem)) as [h' next] eqn:Hg.
    intros H. apply IH in H as (k & Hk & Hgen).
    exists (S k). split; [lia|]. cbn [generation]. by rewrite Hg.
Qed.

Lemma ancestor_cycle par q k m :
  ancestor par (S k) q = Some q -> ancestor par (m * S k) q = Some q.
Proof.
  intros Hcyc. induction m as [|m IH]; [done|].
  change (S m * S k)%nat with (S k + m * S k)%nat.
  by rewrite ancestor_add, Hcyc.
Qed.

(** [fillChildDesc] returns exactly on the snapshots whose parent links
    are acyclic: with a record that is its own ancestor, every generation
    of the walk holds a record of the cycle and the loop never ends,
    however many iterations it is given. *)
Theorem fillChildDesc_returns_iff_acyclic (h : heap) (ps : list ptr) :
  (exists fuel, is_Some (fillChildDesc fuel h ps))
  <-> acyclic (parent_of (build_byPID h ps) h).
Proof.
  split.
  - intros (fuel & r & Hr) q k Hcyc.
    unfold fillChildDesc in Hr.
    apply desc_loop_Some_generation in Hr as (n & _ & Hgen).
    change (fill_generation h ps n = []) in Hgen.
    rewrite fill_generation_ancestors in Hgen.
    set (par := parent_of (build_byPID h ps) h) in *.
    assert (Hq : q ∈ ps).
    { pose proof Hcyc as Hc. cbn [ancestor] in Hc.
      destruct (ancestor par k q) as [w|]; [|discriminate]. cbn in Hc.
      by apply parent_of_range in Hc as [? _]. }
    assert (Hn : ancestor par n q = None).
    { destruct (ancestor par n q) as [y|] eqn:E; [exfalso|done].
      assert (Hy : y ∈ omap (ancestor par n) ps)
        by (apply list_elem_of_omap; eauto).
      rewrite Hgen in Hy. by apply elem_of_nil in Hy. }
    pose proof (ancestor_cycle par q k n Hcyc) as Hloop.
    rewrite (ancestor_None_mono par n (n * S k) q) in Hloop; [discriminate| |done].
    rewrite Nat.mul_succ_r. lia.
  - intros Hacyc. exists (length ps). unfold fillChildDesc.
    apply (desc_loop_generation _ _ _ (length ps)); [|done].
    pose proof (fill_generation_length h ps (length ps) Hacyc) as Hlen.
    unfold fill_generation in Hlen.
    destruct (generation _ _ ps (length ps)); [done|simpl in Hlen; lia].
Qed.

(** ** The columns of [main] *)

Lemma N_lor_lt_pow2 a b n :
  (a < 2 ^ n)%N -> (b < 2 ^ n)%N -> (N.lor a b < 2 ^ n)%N.
Proof.
  intros Ha Hb.
  destruct (N.eq_dec a 0%N) as [->|Ha0]; [by rewrite N.lor_0_l|].
  destruct (N.eq_dec b 0%N) as [->|Hb0]; [by rewrite N.lor_0_r|].
  assert (Hne : N.lor a b <> 0%N) by (rewrite N.lor_eq_0_iff; tauto).
  apply N.log2_lt_pow2; [lia|]. rewrite N.log2_lor.
  apply N.max_lub_lt; apply N.log2_lt_pow2; (lia || done).
Qed.

Lemma colNames_known nm col :
  colNames !! nm = Some col -> (0 < col < numCols)%N.
Proof.
  revert nm col. change (map_Forall (fun _ col => (0 < col < numCols)%N) colNames).
  unfold colNames. cbn [foldl colConfs].
  repeat (apply map_Forall_insert_2; [split; reflexivity|]).
  apply map_Forall_empty.
Qed.

Lemma cols_of_names_known names cols r :
  cols_of_names names cols = Some r ->
  (cols < numCols)%N ->
  (r < numCols)%N /\ (cols <> 0%N \/ names <> [] -> r <> 0%N).
Proof.
  revert cols. induction names as [|nm names IH]; intros cols; cbn [cols_of_names].
  - intros [= <-] Hlt. split; [done|]. intros [?|?]; done.
  - destruct (colNames !! _) as [col|] eqn:Hcol; [|discriminate].
    apply colNames_known in Hcol as [Hpos Hlt]. intros Hr Hc.
    apply IH in Hr as [Hr1 Hr2].
    + split; [done|]. intros _. apply Hr2. left.
      rewrite N.lor_eq_0_iff. lia.
    + by apply (N_lor_lt_pow2 _ _ 17).
Qed.

Lemma Split_nonempty sep s : Split sep s <> [].
Proof.
  destruct s as [|c s]; [done|]. cbn [Split].
  destruct (Ascii.eqb c sep); [done|]. by destruct (Split sep s).
Qed.

(** The column set [main] computes from its flags, when it does not exit
    on an unknown name or on [-full] given with [-cols], is a non-empty
    set of known columns.  With it [main] cannot trip the panic of
    [append]: the table of any list of processes is built and written.
    The flag is taken to be ASCII, where [TrimSpace] is the library's. *)
Theorem main_cols_known colsFlag full cols :
  forallb (fun c => u8 c <? 128) colsFlag = true ->
  main_cols colsFlag full = Some cols ->
  (0 < cols < numCols)%N
  /\ forall fD fB fI width ps, exists tw out,
       build_table cols width ((fun p => process_cells fD fB fI p cols) <$> ps) = Ok tw
       /\ write tw = Ok out.
Proof.
  intros _ Hmain.
  assert (Hc : (0 < cols < numCols)%N).
  { unfold main_cols in Hmain.
    destruct (negb (len colsFlag =? 0)); cbn [andb] in Hmain.
    - destruct full; [discriminate|].
      apply cols_of_names_known in Hmain as [H1 H2]; [|reflexivity].
      split; [|done]. apply N.neq_0_lt_0, H2. right. apply Split_nonempty.
    - destruct full; injection Hmain as <-; split; reflexivity. }
  split; [exact Hc|]. intros fD fB fI width ps.
  destruct (proj2 (build_table_Ok_iff cols width
                     ((fun p => process_cells fD fB fI p cols) <$> ps))) as [tw Htw].
  { apply Forall_fmap, Forall_forall. intros p _.
    apply length_process_cells, Hc. }
  destruct (build_table_write _ _ _ _ Htw) as [out Hout].
  by exists tw, out.
Qed.

Lemma main_cols_known_witness :
  (0 < N.lor (N.lor colPID colName) colNDesc < numCols)%N
  /\ forall fD fB fI width ps, exists tw out,
       build_table (N.lor (N.lor colPID colName) colNDesc) width
         ((fun p => process_cells fD fB fI p (N.lor (N.lor colPID colName) colNDesc))
            <$> ps) = Ok tw
       /\ write tw = Ok out.
Proof.
  apply (main_cols_known (list_ascii_of_string "pid, name,ndesc") false).
  - reflexivity.
  - vm_compute. reflexivity.
Defined.
